(** * Blaze: the sparse subvector view (blaze/math/views/SparseSubvector.h)

    A shallow embedding of the [SparseSubvector] class template and of the
    [sub] restructuring functions, together with the properties of the
    view that the specification states. *)

From Stdlib Require Import ZArith Lia Floats.
From stdpp Require Import base option list gmap strings.

Open Scope Z_scope.

(** ** [size_t] arithmetic

    Indices and sizes are [size_t] values: unsigned 64-bit integers whose
    addition and subtraction wrap around. *)

Definition size_t_modulus : Z := 2 ^ 64.

Definition size_t_add (a b : Z) : Z := (a + b) mod size_t_modulus.

Definition size_t_sub (a b : Z) : Z := (a - b) mod size_t_modulus.

(** ** Outcomes of an operation

    An operation returns normally, throws [std::invalid_argument], stops on
    a failed assertion (assertions are compiled in by a build switch), or
    has undefined behaviour (a dangling reference, an iterator dereferenced
    past the end of the element array). *)

Inductive result (A : Type) : Type :=
| Ok (a : A)
| InvalidArgument (what : string)
| AssertionFailed (what : string)
| Undefined.

Arguments Ok {A} a.
Arguments InvalidArgument {A} what.
Arguments AssertionFailed {A} what.
Arguments Undefined {A}.

(** The build switches of blaze/util/Assert.h, which is not part of the
    sources at hand: user assertions and internal assertions. *)
Record Assertions := {
  BLAZE_USER_ASSERTION : bool;
  BLAZE_INTERNAL_ASSERTION : bool
}.

(** ** Element types

    The element type of a vector is a template parameter. The view needs
    its default value and the [isDefault] shim; the arithmetic of the
    expression templates needs the elementwise operators. The equality of
    the values is the one [isDefault] decides (for a floating point type
    the comparison [==], which does not tell the two zeros apart). *)

Class Numeric (ET : Type) := {
  zero : ET;
  isDefault : ET -> bool;
  isDefault_spec : forall x, isDefault x = true <-> x = zero;
  plus : ET -> ET -> ET;
  minus : ET -> ET -> ET;
  times : ET -> ET -> ET;
  absolute : ET -> ET
}.

(** The integral element type, as far as no overflow occurs. *)
#[export] Instance Numeric_Z : Numeric Z := {|
  zero := 0;
  isDefault := fun x => x =? 0;
  isDefault_spec := fun x => Z.eqb_eq x 0;
  plus := Z.add;
  minus := Z.sub;
  times := Z.mul;
  absolute := Z.abs
|}.

(** ** The backing sparse vector *)

(** Modelled from the spec: the backing container (CompressedVector.h is
    not part of the sources at hand) is a sorted sparse vector; it holds
    (index, value) pairs sorted ascending by index and supports lookup,
    insertion, erasure and range queries (lower and upper bound by index).
    An iterator of the container is a position in its element array. *)
Record CompressedVector (ET : Type) := {
  cv_size : Z;
  cv_elements : list (Z * ET)
}.

Arguments cv_size {ET} _.
Arguments cv_elements {ET} _.

Module CV.
Section Ops.
Context {ET : Type}.

Definition size (v : CompressedVector ET) : Z := cv_size v.

Definition begin (v : CompressedVector ET) : nat := 0%nat.

Definition end_ (v : CompressedVector ET) : nat := length (cv_elements v).

(** Modelled from the spec: position of the first element whose index is
    not less than [index]. *)
Fixpoint lower_pos (l : list (Z * ET)) (index : Z) : nat :=
  match l with
  | [] => 0%nat
  | e :: l' => if bool_decide (e.1 < index) then S (lower_pos l' index) else 0%nat
  end.

(** Modelled from the spec: position of the first element whose index is
    greater than [index]. *)
Fixpoint upper_pos (l : list (Z * ET)) (index : Z) : nat :=
  match l with
  | [] => 0%nat
  | e :: l' => if bool_decide (e.1 <= index) then S (upper_pos l' index) else 0%nat
  end.

Definition lowerBound (v : CompressedVector ET) (index : Z) : nat :=
  lower_pos (cv_elements v) index.

Definition upperBound (v : CompressedVector ET) (index : Z) : nat :=
  upper_pos (cv_elements v) index.

(** Modelled from the spec: lookup of the element with index [index]; the
    end position when there is none. *)
Definition find (v : CompressedVector ET) (index : Z) : nat :=
  let pos := lowerBound v index in
  match cv_elements v !! pos with
  | Some e => if bool_decide (e.1 = index) then pos else end_ v
  | None => end_ v
  end.

(** Modelled from the spec: erasure of the elements at the positions
    [first, last). *)
Definition erase (v : CompressedVector ET) (first last : nat) : CompressedVector ET :=
  {| cv_size := cv_size v;
     cv_elements := take first (cv_elements v) ++ drop last (cv_elements v) |}.

(** Modelled from the spec: insertion of a new element, which keeps the
    elements sorted; [None] stands for the duplicate-element failure, which
    leaves the container unchanged. The position of the new element comes
    with the new container. *)
Definition insert (v : CompressedVector ET) (index : Z) (value : ET)
  : option (nat * CompressedVector ET) :=
  let pos := lowerBound v index in
  if bool_decide (find v index = end_ v) then
    Some (pos, {| cv_size := cv_size v;
                  cv_elements := take pos (cv_elements v) ++ (index, value) :: drop pos (cv_elements v) |})
  else None.

(** Modelled from the spec: erasure of the element with index [index], if
    there is one. *)
Definition erase_index (v : CompressedVector ET) (index : Z) : CompressedVector ET :=
  let pos := find v index in
  if bool_decide (pos = end_ v) then v else erase v pos (S pos).

(** Modelled from the spec: read access to the element with index
    [index]; the default value when none is stored. *)
Definition at_const `{!Numeric ET} (v : CompressedVector ET) (index : Z) : ET :=
  match cv_elements v !! find v index with
  | Some e => e.2
  | None => zero
  end.

(** Modelled from the spec: erasure of the element at the position [pos];
    the elements behind it move up, so that [pos] is the position of the
    element that followed it. *)
Definition erase_pos (v : CompressedVector ET) (pos : nat) : CompressedVector ET :=
  erase v pos (S pos).

(** Modelled from the spec: the subscript operator of a sparse container
    that is not constant is an insert-or-fetch operation; an element with
    the default value is inserted when none is stored at [index]. The
    position of the element stands for the reference to its value. *)
Definition at_ `{!Numeric ET} (v : CompressedVector ET) (index : Z)
  : nat * CompressedVector ET :=
  match insert v index zero with
  | Some (pos, v') => (pos, v')
  | None => (find v index, v)
  end.

(** The strictly ascending order of the stored indices. *)
Fixpoint ascending (l : list (Z * ET)) : Prop :=
  match l with
  | [] => True
  | e :: l' => Forall (fun e' => e.1 < e'.1) l' /\ ascending l'
  end.

(** The class invariant of the container: its size is a [size_t], the
    stored indices are below the size and strictly ascending. *)
Definition wf (v : CompressedVector ET) : Prop :=
  0 <= cv_size v < size_t_modulus /\
  Forall (fun e => 0 <= e.1 < cv_size v) (cv_elements v) /\
  ascending (cv_elements v).

End Ops.
End CV.

(** ** Memory

    A view refers to its backing vector: the sparse vectors live in a
    memory, addressed by natural numbers, and an operation on a view reads
    and writes the vector at the view's address. An operation that throws
    leaves the memory as it is at that moment. *)

Abbreviation memory ET := (gmap nat (CompressedVector ET)).

Definition M (ET A : Type) : Type := memory ET -> result A * memory ET.

Section Monad.
Context {ET : Type}.

Definition ret {A} (a : A) : M ET A := fun m => (Ok a, m).

Definition bind {A B} (c : M ET A) (k : A -> M ET B) : M ET B :=
  fun m =>
    match c m with
    | (Ok a, m') => k a m'
    | (InvalidArgument what, m') => (InvalidArgument what, m')
    | (AssertionFailed what, m') => (AssertionFailed what, m')
    | (Undefined, m') => (Undefined, m')
    end.

Definition throw_invalid_argument {A} (what : string) : M ET A :=
  fun m => (InvalidArgument what, m).

Definition assertion_failed {A} (what : string) : M ET A :=
  fun m => (AssertionFailed what, m).

Definition undefined {A} : M ET A := fun m => (Undefined, m).

(** Reading through a reference; a dangling one is undefined behaviour. *)
Definition load (a : nat) : M ET (CompressedVector ET) :=
  fun m => match m !! a with Some v => (Ok v, m) | None => (Undefined, m) end.

Definition store (a : nat) (v : CompressedVector ET) : M ET unit :=
  fun m => (Ok tt, <[a := v]> m).

End Monad.

Notation "'let*' x := c 'in' k" := (bind c (fun x => k))
  (at level 10, x pattern, c at level 100, k at level 200).
Notation "c ;; k" := (bind c (fun _ => k))
  (at level 100, k at level 200, right associativity).

(** ** The view *)

(** The members of [SparseSubvector]: the reference to the sparse vector
    (its address), the first index and the size of the subvector. *)
Record SparseSubvector := {
  vector_ : nat;
  start_ : Z;
  size_ : Z
}.

(** The members of [SubvectorIterator]: [pos_] is an iterator of the
    backing vector, that is a position in the element array of the vector
    the view refers to, and [offset_] is the offset of the subvector. *)
Record SubvectorIterator := {
  pos_ : nat;
  offset_ : Z
}.

(** [SubvectorIterator::operator==] compares the positions only. *)
Definition iterator_eqb (a b : SubvectorIterator) : bool :=
  bool_decide (pos_ a = pos_ b).

(** [SubvectorIterator::operator!=] *)
Definition iterator_neqb (a b : SubvectorIterator) : bool :=
  negb (iterator_eqb a b).

(** [SubvectorIterator::operator-], the number of elements between two
    iterators, a [ptrdiff_t]. *)
Definition iterator_difference (a b : SubvectorIterator) : Z :=
  Z.of_nat (pos_ a) - Z.of_nat (pos_ b).

(** The members of [SubvectorElement], the access proxy an iterator
    dereferences to. *)
Record SubvectorElement := {
  element_pos_ : nat;
  element_offset_ : Z
}.

(** The operators of the element type with a scalar of type [Other] that
    the scalar assignments use. [floating_division] is the compile time
    condition [IsNumeric<DT>::value && IsFloatingPoint<DT>::value] for
    [DT = DivTrait<ElementType,Other>::Type], and [Tmp] is
    [If< IsNumeric<DT>, DT, Other >::Type]. The operator [/=] of an element
    type need not be defined everywhere: [div_defined x s] tells whether
    [x /= s] is, and [div_assign x s] is its result where it is. *)
Class Scalar (ET Other : Type) := {
  Tmp : Type;
  is_zero : Other -> bool;
  floating_division : bool;
  reciprocal : Other -> Tmp;
  mul_assign : ET -> Other -> ET;
  mul_assign_tmp : ET -> Tmp -> ET;
  div_assign : ET -> Other -> ET;
  div_defined : ET -> Other -> bool
}.

Arguments Tmp ET Other {_}.
Arguments floating_division ET Other {_}.

(** An integral element type with an integral scalar: the division
    truncates, and the division of built-in integers by zero is undefined
    behaviour. *)
#[export] Instance Scalar_Z : Scalar Z Z := {|
  Tmp := Z;
  is_zero := fun s => s =? 0;
  floating_division := false;
  reciprocal := fun s => Z.quot 1 s;
  mul_assign := Z.mul;
  mul_assign_tmp := Z.mul;
  div_assign := Z.quot;
  div_defined := fun _ s => negb (s =? 0)
|}.

(** The element type [double] with a scalar of type [double]: the
    division of binary64 floating point numbers is defined everywhere. *)
#[export] Instance Scalar_double : Scalar float float := {|
  Tmp := float;
  is_zero := fun s => PrimFloat.eqb s 0%float;
  floating_division := true;
  reciprocal := fun s => PrimFloat.div 1%float s;
  mul_assign := PrimFloat.mul;
  mul_assign_tmp := PrimFloat.mul;
  div_assign := PrimFloat.div;
  div_defined := fun _ _ => true
|}.

(** The right-hand side of an assignment, a [Vector<VT2,TF>]: a dense
    vector, which has storage of its own; a sparse vector, by its address;
    or a sparse subvector. *)
Inductive Vector (ET : Type) : Type :=
| DenseVector (values : list ET)
| SparseVector (vector : nat)
| Subvector (sv : SparseSubvector).

Arguments DenseVector {ET} values.
Arguments SparseVector {ET} vector.
Arguments Subvector {ET} sv.

(** An evaluated vector: a temporary of a result type, dense or sparse. *)
Inductive Operand (ET : Type) : Type :=
| DenseOperand (values : list ET)
| SparseOperand (x : CompressedVector ET).

Arguments DenseOperand {ET} values.
Arguments SparseOperand {ET} x.

(** A loop over a sequence whose body does not change the sequence. *)
Fixpoint for_each {ET A} (l : list A) (body : A -> M ET unit) : M ET unit :=
  match l with
  | [] => ret tt
  | a :: l' => body a;; for_each l' body
  end.

Module SV.
Section View.
Context {ET : Type} `{!Numeric ET}.
Variable cfg : Assertions.

(** [SparseSubvector::SparseSubvector( VT& vector, size_t start, size_t n )] *)
Definition new (vector : nat) (start n : Z) : M ET SparseSubvector :=
  let* v := load vector in
  if bool_decide (n = 0) || bool_decide (size_t_add start n > CV.size v) then
    throw_invalid_argument "Invalid subvector specification"
  else
    ret {| vector_ := vector; start_ := start; size_ := n |}.

Definition size (sv : SparseSubvector) : Z := size_ sv.

Definition capacity (sv : SparseSubvector) : Z := size_ sv.

Definition begin (sv : SparseSubvector) : M ET SubvectorIterator :=
  let* v := load (vector_ sv) in
  ret {| pos_ := CV.lowerBound v (start_ sv); offset_ := start_ sv |}.

Definition end_ (sv : SparseSubvector) : M ET SubvectorIterator :=
  let* v := load (vector_ sv) in
  ret {| pos_ := CV.lowerBound v (size_t_add (start_ sv) (size_ sv)); offset_ := start_ sv |}.

(** [SparseSubvector::nonZeros]: [end() - begin()], a [ptrdiff_t], returned
    as a [size_t]. *)
Definition nonZeros (sv : SparseSubvector) : M ET Z :=
  let* last := end_ sv in
  let* first := begin sv in
  ret (iterator_difference last first mod size_t_modulus).

(** The element of the backing vector an iterator position points to;
    there is none at or past the end of the element array. *)
Definition pointee (sv : SparseSubvector) (pos : nat) : M ET (Z * ET) :=
  let* v := load (vector_ sv) in
  match cv_elements v !! pos with
  | Some e => ret e
  | None => undefined
  end.

(** [SubvectorElement::SubvectorElement( IteratorType pos, size_t offset )] *)
Definition new_element (sv : SparseSubvector) (pos : nat) (offset : Z) : M ET SubvectorElement :=
  (if BLAZE_INTERNAL_ASSERTION cfg then
     let* e := pointee sv pos in
     if bool_decide (e.1 >= offset) then ret tt
     else assertion_failed "Invalid offset detected"
   else ret tt);;
  ret {| element_pos_ := pos; element_offset_ := offset |}.

(** [SubvectorIterator::operator*] and [operator->] *)
Definition dereference (sv : SparseSubvector) (it : SubvectorIterator) : M ET SubvectorElement :=
  new_element sv (pos_ it) (offset_ it).

(** [SubvectorIterator::operator++] *)
Definition increment (it : SubvectorIterator) : SubvectorIterator :=
  {| pos_ := S (pos_ it); offset_ := offset_ it |}.

(** [SubvectorElement::index] *)
Definition index (sv : SparseSubvector) (el : SubvectorElement) : M ET Z :=
  let* e := pointee sv (element_pos_ el) in
  ret (size_t_sub e.1 (element_offset_ el)).

(** [SubvectorElement::value], read *)
Definition value (sv : SparseSubvector) (el : SubvectorElement) : M ET ET :=
  let* e := pointee sv (element_pos_ el) in
  ret e.2.

(** [SubvectorElement::value] as the target of a compound assignment
    [el.value() op= rhs], where [f] is the operation on the value. *)
Definition update_value (sv : SparseSubvector) (el : SubvectorElement) (f : ET -> ET) : M ET unit :=
  let* v := load (vector_ sv) in
  match cv_elements v !! element_pos_ el with
  | Some e =>
      store (vector_ sv)
        {| cv_size := cv_size v;
           cv_elements := <[element_pos_ el := (e.1, f e.2)]> (cv_elements v) |}
  | None => undefined
  end.

(** [el.value() /= rhs]: undefined behaviour where the division of the
    value by [rhs] is not defined. *)
Definition divide_value {Other} `{!Scalar ET Other} (sv : SparseSubvector)
  (el : SubvectorElement) (rhs : Other) : M ET unit :=
  let* x := value sv el in
  if div_defined x rhs then update_value sv el (fun x => div_assign x rhs)
  else undefined.

(** The assignment operators of [SubvectorElement], which assign to the
    element of the backing vector the proxy refers to: [operator=],
    [operator+=], [operator-=], and [operator*=] and [operator/=] with a
    scalar. *)
Definition element_assign (sv : SparseSubvector) (el : SubvectorElement) (v : ET)
  : M ET unit :=
  update_value sv el (fun _ => v).

Definition element_add_assign (sv : SparseSubvector) (el : SubvectorElement) (v : ET)
  : M ET unit :=
  update_value sv el (fun x => plus x v).

Definition element_sub_assign (sv : SparseSubvector) (el : SubvectorElement) (v : ET)
  : M ET unit :=
  update_value sv el (fun x => minus x v).

Definition element_mul_assign {Other} `{!Scalar ET Other} (sv : SparseSubvector)
  (el : SubvectorElement) (v : Other) : M ET unit :=
  update_value sv el (fun x => mul_assign x v).

Definition element_div_assign {Other} `{!Scalar ET Other} (sv : SparseSubvector)
  (el : SubvectorElement) (v : Other) : M ET unit :=
  divide_value sv el v.

(** The traversal of the class documentation,
    [for( it=sv.begin(); it!=sv.end(); ++it )] reading [it->index()] and
    [it->value()]. An iterator that passes the end of the element array
    without meeting [end()] is dereferenced there, which is undefined; the
    fuel is the number of stored elements, so that it runs out only at or
    past the end of the array. *)
Fixpoint traverse (fuel : nat) (sv : SparseSubvector) (it : SubvectorIterator)
  : M ET (list (Z * ET)) :=
  let* last := end_ sv in
  if iterator_eqb it last then ret []
  else
    match fuel with
    | O => undefined
    | S fuel' =>
        let* el := dereference sv it in
        let* i := index sv el in
        let* x := value sv el in
        let* rest := traverse fuel' sv (increment it) in
        ret ((i, x) :: rest)
    end.

Definition elements (sv : SparseSubvector) : M ET (list (Z * ET)) :=
  let* v := load (vector_ sv) in
  let* first := begin sv in
  traverse (CV.end_ v) sv first.

(** [SparseSubvector::operator[]( size_t index ) const] *)
Definition at_const (sv : SparseSubvector) (index : Z) : M ET ET :=
  (if BLAZE_USER_ASSERTION cfg && negb (bool_decide (index < size sv))
   then assertion_failed "Invalid subvector access index" else ret tt);;
  let* v := load (vector_ sv) in
  ret (CV.at_const v (size_t_add (start_ sv) index)).

(** [SparseSubvector::operator[]( size_t index )] of a view that is not
    constant: the position of the element stands for the reference to its
    value. *)
Definition at_ (sv : SparseSubvector) (index : Z) : M ET nat :=
  (if BLAZE_USER_ASSERTION cfg && negb (bool_decide (index < size sv))
   then assertion_failed "Invalid subvector access index" else ret tt);;
  let* v := load (vector_ sv) in
  let r := CV.at_ v (size_t_add (start_ sv) index) in
  store (vector_ sv) r.2;;
  ret r.1.

(** The statement [sv[index] = value]: the subscript operator returns the
    reference, and the value is written through it. *)
Definition subscript_assign (sv : SparseSubvector) (index : Z) (value : ET) : M ET unit :=
  let* pos := at_ sv index in
  update_value sv {| element_pos_ := pos; element_offset_ := start_ sv |} (fun _ => value).

(** [SparseSubvector::reset] *)
Definition reset (sv : SparseSubvector) : M ET unit :=
  let* v := load (vector_ sv) in
  store (vector_ sv)
    (CV.erase v (CV.lowerBound v (start_ sv))
                (CV.lowerBound v (size_t_add (start_ sv) (size_ sv)))).

(** [SparseSubvector::insert]; the position stands for the reference to
    the inserted value, and the failure of the insertion into the backing
    vector is the documented [std::invalid_argument]. *)
Definition insert (sv : SparseSubvector) (index : Z) (value : ET) : M ET nat :=
  let* v := load (vector_ sv) in
  match CV.insert v (size_t_add (start_ sv) index) value with
  | Some (pos, v') => store (vector_ sv) v';; ret pos
  | None => throw_invalid_argument "Invalid sparse subvector access index"
  end.

(** [SparseSubvector::erase( size_t index )] *)
Definition erase (sv : SparseSubvector) (index : Z) : M ET unit :=
  let* v := load (vector_ sv) in
  store (vector_ sv) (CV.erase_index v (size_t_add (start_ sv) index)).

(** [SparseSubvector::erase( Iterator pos )] *)
Definition erase_pos (sv : SparseSubvector) (pos : SubvectorIterator)
  : M ET SubvectorIterator :=
  let* v := load (vector_ sv) in
  store (vector_ sv) (CV.erase_pos v (pos_ pos));;
  ret {| pos_ := pos_ pos; offset_ := start_ sv |}.

(** [SparseSubvector::erase( Iterator first, Iterator last )] *)
Definition erase_range (sv : SparseSubvector) (first last : SubvectorIterator)
  : M ET SubvectorIterator :=
  let* v := load (vector_ sv) in
  store (vector_ sv) (CV.erase v (pos_ first) (pos_ last));;
  ret {| pos_ := pos_ first; offset_ := start_ sv |}.

(** [SparseSubvector::reserve] *)
Definition reserve (sv : SparseSubvector) (n : Z) : M ET unit :=
  ret tt.

(** [SparseSubvector::find] *)
Definition find (sv : SparseSubvector) (index : Z) : M ET SubvectorIterator :=
  let* v := load (vector_ sv) in
  let pos := CV.find v (size_t_add (start_ sv) index) in
  if negb (bool_decide (pos = CV.end_ v)) then
    ret {| pos_ := pos; offset_ := start_ sv |}
  else end_ sv.

(** [SparseSubvector::lowerBound] *)
Definition lowerBound (sv : SparseSubvector) (index : Z) : M ET SubvectorIterator :=
  let* v := load (vector_ sv) in
  ret {| pos_ := CV.lowerBound v (size_t_add (start_ sv) index); offset_ := start_ sv |}.

(** [SparseSubvector::upperBound] *)
Definition upperBound (sv : SparseSubvector) (index : Z) : M ET SubvectorIterator :=
  let* v := load (vector_ sv) in
  ret {| pos_ := CV.upperBound v (size_t_add (start_ sv) index); offset_ := start_ sv |}.

(** [SparseSubvector::append] *)
Definition append (sv : SparseSubvector) (index : Z) (value : ET) (check : bool) : M ET unit :=
  if negb check || negb (isDefault value) then
    let* v := load (vector_ sv) in
    match CV.insert v (size_t_add (start_ sv) index) value with
    | Some (_, v') => store (vector_ sv) v'
    | None => throw_invalid_argument "Invalid sparse subvector access index"
    end
  else ret tt.

(** The loop of the scalar assignments,
    [for( Iterator element=begin(); element!=end(); ++element )] with the
    body [element->value() op= rhs]; [end()] is evaluated in every round. *)
Fixpoint for_each_value (fuel : nat) (sv : SparseSubvector) (f : ET -> ET)
  (element : SubvectorIterator) : M ET unit :=
  let* last := end_ sv in
  if iterator_eqb element last then ret tt
  else
    match fuel with
    | O => undefined
    | S fuel' =>
        let* el := dereference sv element in
        update_value sv el f;;
        for_each_value fuel' sv f (increment element)
    end.

Definition update_values (sv : SparseSubvector) (f : ET -> ET) : M ET unit :=
  let* v := load (vector_ sv) in
  let* first := begin sv in
  for_each_value (CV.end_ v) sv f first.

(** [SparseSubvector::operator*=( Other rhs )] *)
Definition mul_assign_scalar {Other} `{!Scalar ET Other} (sv : SparseSubvector) (rhs : Other)
  : M ET unit :=
  update_values sv (fun x => mul_assign x rhs).

(** [SparseSubvector::scale] *)
Definition scale {Other} `{!Scalar ET Other} (sv : SparseSubvector) (scalar : Other)
  : M ET unit :=
  update_values sv (fun x => mul_assign x scalar).

(** The loop of the integer division of [operator/=],
    [for( Iterator element=begin(); element!=end(); ++element )] with the
    body [element->value() /= rhs]. *)
Fixpoint for_each_quotient {Other} `{!Scalar ET Other} (fuel : nat) (sv : SparseSubvector)
  (rhs : Other) (element : SubvectorIterator) : M ET unit :=
  let* last := end_ sv in
  if iterator_eqb element last then ret tt
  else
    match fuel with
    | O => undefined
    | S fuel' =>
        let* el := dereference sv element in
        divide_value sv el rhs;;
        for_each_quotient fuel' sv rhs (increment element)
    end.

Definition divide_values {Other} `{!Scalar ET Other} (sv : SparseSubvector) (rhs : Other)
  : M ET unit :=
  let* v := load (vector_ sv) in
  let* first := begin sv in
  for_each_quotient (CV.end_ v) sv rhs first.

(** [SparseSubvector::operator/=( Other rhs )] *)
Definition div_assign_scalar {Other} `{!Scalar ET Other} (sv : SparseSubvector) (rhs : Other)
  : M ET unit :=
  (if BLAZE_USER_ASSERTION cfg && is_zero rhs
   then assertion_failed "Division by zero detected" else ret tt);;
  if floating_division ET Other then
    let tmp := reciprocal rhs in
    update_values sv (fun x => mul_assign_tmp x tmp)
  else
    divide_values sv rhs.

(** [SparseSubvector::canAlias] and [SparseSubvector::isAliased]: the
    address of the backing vector is compared with the given address. *)
Definition canAlias (sv : SparseSubvector) (alias : nat) : bool :=
  bool_decide (vector_ sv = alias).

Definition isAliased (sv : SparseSubvector) (alias : nat) : bool :=
  bool_decide (vector_ sv = alias).

(** *** The assignment operators *)

(** [blaze::assign( *this, rhs )] for a dense right-hand side, that is
    [SparseSubvector::assign( const DenseVector<VT2,TF>& )]: the loop
    [for( size_t i=0UL; i<size(); ++i )]. *)
Definition assign_dense (sv : SparseSubvector) (rhs : list ET) : M ET unit :=
  (if BLAZE_INTERNAL_ASSERTION cfg && negb (bool_decide (size sv = Z.of_nat (length rhs)))
   then assertion_failed "Invalid vector sizes" else ret tt);;
  for_each (seqZ 0 (size sv))
    (fun i => match rhs !! Z.to_nat i with
              | Some x => append sv i x true
              | None => undefined
              end).

(** [SparseSubvector::assign( const SparseVector<VT2,TF>& )]: the loop over
    the elements of the right-hand side, from its [begin()] to its [end()]. *)
Definition assign_sparse (sv : SparseSubvector) (rhs : CompressedVector ET) : M ET unit :=
  (if BLAZE_INTERNAL_ASSERTION cfg && negb (bool_decide (size sv = CV.size rhs))
   then assertion_failed "Invalid vector sizes" else ret tt);;
  for_each (cv_elements rhs) (fun element => append sv element.1 element.2 false).

Definition assign (sv : SparseSubvector) (rhs : Operand ET) : M ET unit :=
  match rhs with
  | DenseOperand x => assign_dense sv x
  | SparseOperand x => assign_sparse sv x
  end.

(** The size of a right-hand side. *)
Definition vector_size (rhs : Vector ET) : M ET Z :=
  match rhs with
  | DenseVector x => ret (Z.of_nat (length x))
  | SparseVector a => let* x := load a in ret (CV.size x)
  | Subvector w => ret (size w)
  end.

(** [(~rhs).canAlias( &vector_ )]: a dense vector is no sparse vector, a
    sparse vector aliases its own address, and a subvector that of its
    backing vector. *)
Definition vector_canAlias (rhs : Vector ET) (alias : nat) : bool :=
  match rhs with
  | DenseVector _ => false
  | SparseVector a => bool_decide (a = alias)
  | Subvector w => canAlias w alias
  end.

(** The elements of a right-hand side as they are in the memory at this
    moment: what the construction of a temporary of its result type
    copies, and what the loops of [assign] read from a right-hand side
    that does not alias the vector they write to. The result type of a
    subvector is a sparse vector of the size of the subvector that holds
    the elements of the subvector under their local indices. *)
Definition evaluate (rhs : Vector ET) : M ET (Operand ET) :=
  match rhs with
  | DenseVector x => ret (DenseOperand x)
  | SparseVector a => let* x := load a in ret (SparseOperand x)
  | Subvector w =>
      let* es := elements w in
      ret (SparseOperand {| cv_size := size w; cv_elements := es |})
  end.

(** The read access [rhs[i]] to a right-hand side; past the end of a
    dense vector it is undefined. *)
Definition vector_at (rhs : Vector ET) (i : Z) : M ET ET :=
  match rhs with
  | DenseVector x =>
      match x !! Z.to_nat i with
      | Some y => ret y
      | None => undefined
      end
  | SparseVector a => let* x := load a in ret (CV.at_const x i)
  | Subvector w => at_const w i
  end.

(** [SparseSubvector::operator=( const Vector<VT2,TF>& rhs )] *)
Definition assign_vector (sv : SparseSubvector) (rhs : Vector ET) : M ET unit :=
  let* n := vector_size rhs in
  if negb (bool_decide (size sv = n)) then
    throw_invalid_argument "Vector sizes do not match"
  else if vector_canAlias rhs (vector_ sv) then
    let* tmp := evaluate rhs in
    reset sv;;
    assign sv tmp
  else
    reset sv;;
    let* x := evaluate rhs in
    assign sv x.

(** [SparseSubvector::operator=( const SparseSubvector& rhs )]. Views are
    values here: [this == &rhs] implies the second condition of the
    disjunction, which is the one that is modelled. *)
Definition copy_assign (sv rhs : SparseSubvector) : M ET unit :=
  if bool_decide (vector_ sv = vector_ rhs) && bool_decide (start_ sv = start_ rhs) then
    ret tt
  else if negb (bool_decide (size sv = size rhs)) then
    throw_invalid_argument "Vector sizes do not match"
  else if canAlias rhs (vector_ sv) then
    let* tmp := evaluate (Subvector rhs) in
    reset sv;;
    assign sv tmp
  else
    reset sv;;
    let* x := evaluate (Subvector rhs) in
    assign sv x.

(** The value of an evaluated operand at an index: the value of a dense
    vector, the stored value or the default value of a sparse one. *)
Definition operand_at (x : Operand ET) (i : Z) : ET :=
  match x with
  | DenseOperand x => default zero (x !! Z.to_nat i)
  | SparseOperand x => CV.at_const x i
  end.

(** Modelled from the spec: the sum, the difference and the componentwise
    product of the subvector and a right-hand side (the operators of the
    expression templates are not part of the sources at hand), evaluated
    into the result type of the operation: a dense vector for the sum and
    the difference with a dense vector, a sparse vector otherwise, which
    stores the indices at which an operand stores an element (for the
    product: both operands). *)
Definition evaluate_binary (op : ET -> ET -> ET) (both : bool)
  (sv : SparseSubvector) (lhs : CompressedVector ET) (rhs : Operand ET) : Operand ET :=
  let value i := op (CV.at_const lhs i) (operand_at rhs i) in
  let stored (x : CompressedVector ET) i := bool_decide (i ∈ (cv_elements x).*1) in
  match rhs with
  | DenseOperand _ =>
      if both then
        SparseOperand {| cv_size := size sv;
                         cv_elements := (fun e => (e.1, value e.1)) <$> cv_elements lhs |}
      else DenseOperand (value <$> seqZ 0 (size sv))
  | SparseOperand x =>
      SparseOperand
        {| cv_size := size sv;
           cv_elements :=
             (fun i => (i, value i)) <$>
               filter (fun i => (if both then stored lhs i && stored x i
                                 else stored lhs i || stored x i) = true)
                 (seqZ 0 (size sv)) |}
  end.

(** The temporary [tmp( *this op (~rhs) )] of the compound assignments:
    the view and the right-hand side are read, and the result of the
    operation is evaluated. *)
Definition evaluate_with (op : ET -> ET -> ET) (both : bool)
  (sv : SparseSubvector) (rhs : Vector ET) : M ET (Operand ET) :=
  let* es := elements sv in
  let* x := evaluate rhs in
  ret (evaluate_binary op both sv {| cv_size := size sv; cv_elements := es |} x).

(** [SparseSubvector::addAssign], for a dense and for a sparse right-hand
    side. *)
Definition addAssign (sv : SparseSubvector) (rhs : Vector ET) : M ET unit :=
  let* n := vector_size rhs in
  (if BLAZE_INTERNAL_ASSERTION cfg && negb (bool_decide (size sv = n))
   then assertion_failed "Invalid vector sizes" else ret tt);;
  let* tmp := evaluate_with plus false sv rhs in
  reset sv;;
  assign sv tmp.

(** [SparseSubvector::subAssign], for a dense and for a sparse right-hand
    side. *)
Definition subAssign (sv : SparseSubvector) (rhs : Vector ET) : M ET unit :=
  let* n := vector_size rhs in
  (if BLAZE_INTERNAL_ASSERTION cfg && negb (bool_decide (size sv = n))
   then assertion_failed "Invalid vector sizes" else ret tt);;
  let* tmp := evaluate_with minus false sv rhs in
  reset sv;;
  assign sv tmp.

(** [SparseSubvector::operator+=( const Vector<VT2,TF>& rhs )] *)
Definition add_assign (sv : SparseSubvector) (rhs : Vector ET) : M ET unit :=
  let* n := vector_size rhs in
  if negb (bool_decide (n = size sv)) then
    throw_invalid_argument "Vector sizes do not match"
  else addAssign sv rhs.

(** [SparseSubvector::operator-=( const Vector<VT2,TF>& rhs )] *)
Definition sub_assign (sv : SparseSubvector) (rhs : Vector ET) : M ET unit :=
  let* n := vector_size rhs in
  if negb (bool_decide (n = size sv)) then
    throw_invalid_argument "Vector sizes do not match"
  else subAssign sv rhs.

(** [SparseSubvector::operator*=( const Vector<VT2,TF>& rhs )] *)
Definition mul_assign_vector (sv : SparseSubvector) (rhs : Vector ET) : M ET unit :=
  let* n := vector_size rhs in
  if negb (bool_decide (n = size sv)) then
    throw_invalid_argument "Vector sizes do not match"
  else
    let* tmp := evaluate_with times true sv rhs in
    reset sv;;
    assign sv tmp.

End View.
End SV.

(** ** Subvectors of expressions *)

(** Modelled from the spec: the expression templates (the operators and
    the expression classes are not part of the sources at hand). An
    expression is a concrete sparse vector, a subvector of a vector that is
    no computation, or a node of an unevaluated operation; the
    constructors of the nodes are named after the type traits by which
    [sub] selects its overload. *)
Inductive Expr (ET Other : Type) : Type :=
| Concrete (v : CompressedVector ET)
| SubvectorOf (operand : Expr ET Other) (start n : Z)
| VecVecAddExpr (lhs rhs : Expr ET Other)
| VecVecSubExpr (lhs rhs : Expr ET Other)
| VecVecMultExpr (lhs rhs : Expr ET Other)
| VecScalarMultExpr (lhs : Expr ET Other) (scalar : Other)
| VecScalarDivExpr (lhs : Expr ET Other) (scalar : Other)
| VecAbsExpr (operand : Expr ET Other)
| VecEvalExpr (operand : Expr ET Other)
| VecTransExpr (operand : Expr ET Other).

Arguments Concrete {ET Other} v.
Arguments SubvectorOf {ET Other} operand start n.
Arguments VecVecAddExpr {ET Other} lhs rhs.
Arguments VecVecSubExpr {ET Other} lhs rhs.
Arguments VecVecMultExpr {ET Other} lhs rhs.
Arguments VecScalarMultExpr {ET Other} lhs scalar.
Arguments VecScalarDivExpr {ET Other} lhs scalar.
Arguments VecAbsExpr {ET Other} operand.
Arguments VecEvalExpr {ET Other} operand.
Arguments VecTransExpr {ET Other} operand.

Module Expression.
Section Expressions.
Context {ET Other : Type} `{!Numeric ET} `{!Scalar ET Other}.

Fixpoint size (e : Expr ET Other) : Z :=
  match e with
  | Concrete v => CV.size v
  | SubvectorOf _ _ n => n
  | VecVecAddExpr lhs _ | VecVecSubExpr lhs _ | VecVecMultExpr lhs _ => size lhs
  | VecScalarMultExpr lhs _ | VecScalarDivExpr lhs _ => size lhs
  | VecAbsExpr operand | VecEvalExpr operand | VecTransExpr operand => size operand
  end.

(** Modelled from the spec: the elementwise value of an expression. *)
Fixpoint at_ (e : Expr ET Other) (i : Z) : ET :=
  match e with
  | Concrete v => CV.at_const v i
  | SubvectorOf operand start _ => at_ operand (size_t_add start i)
  | VecVecAddExpr lhs rhs => plus (at_ lhs i) (at_ rhs i)
  | VecVecSubExpr lhs rhs => minus (at_ lhs i) (at_ rhs i)
  | VecVecMultExpr lhs rhs => times (at_ lhs i) (at_ rhs i)
  | VecScalarMultExpr lhs scalar => mul_assign (at_ lhs i) scalar
  | VecScalarDivExpr lhs scalar => div_assign (at_ lhs i) scalar
  | VecAbsExpr operand => absolute (at_ operand i)
  | VecEvalExpr operand => at_ operand i
  | VecTransExpr operand => at_ operand i
  end.

(** Modelled from the spec: the eager evaluation of an expression into a
    concrete sparse vector, which stores the values that are not the
    default value. *)
Definition evaluate (e : Expr ET Other) : CompressedVector ET :=
  {| cv_size := size e;
     cv_elements :=
       (fun i => (i, at_ e i)) <$>
         filter (fun i => isDefault (at_ e i) = false) (seqZ 0 (size e)) |}.

(** Modelled from the spec: the binary operators of vectors, which throw
    when the sizes of the operands differ. *)
Definition binary (node : Expr ET Other -> Expr ET Other -> Expr ET Other)
  (lhs rhs : Expr ET Other) : result (Expr ET Other) :=
  if bool_decide (size lhs = size rhs) then Ok (node lhs rhs)
  else InvalidArgument "Vector sizes do not match".

(** The [sub] functions: the two that create a view of a vector that is no
    computation, by the constructor of the view, and the restructuring
    overloads for the nodes of an expression. *)
Fixpoint sub (sv : Expr ET Other) (start n : Z) : result (Expr ET Other) :=
  match sv with
  | Concrete _ | SubvectorOf _ _ _ =>
      if bool_decide (n = 0) || bool_decide (size_t_add start n > size sv) then
        InvalidArgument "Invalid subvector specification"
      else Ok (SubvectorOf sv start n)
  | VecVecAddExpr lhs rhs =>
      match sub lhs start n, sub rhs start n with
      | Ok l, Ok r => binary VecVecAddExpr l r
      | Ok _, failure => failure
      | failure, _ => failure
      end
  | VecVecSubExpr lhs rhs =>
      match sub lhs start n, sub rhs start n with
      | Ok l, Ok r => binary VecVecSubExpr l r
      | Ok _, failure => failure
      | failure, _ => failure
      end
  | VecVecMultExpr lhs rhs =>
      match sub lhs start n, sub rhs start n with
      | Ok l, Ok r => binary VecVecMultExpr l r
      | Ok _, failure => failure
      | failure, _ => failure
      end
  | VecScalarMultExpr lhs scalar =>
      match sub lhs start n with
      | Ok l => Ok (VecScalarMultExpr l scalar)
      | failure => failure
      end
  | VecScalarDivExpr lhs scalar =>
      match sub lhs start n with
      | Ok l => Ok (VecScalarDivExpr l scalar)
      | failure => failure
      end
  | VecAbsExpr operand =>
      match sub operand start n with
      | Ok o => Ok (VecAbsExpr o)
      | failure => failure
      end
  | VecEvalExpr operand =>
      match sub operand start n with
      | Ok o => Ok (VecEvalExpr o)
      | failure => failure
      end
  | VecTransExpr operand =>
      match sub operand start n with
      | Ok o => Ok (VecTransExpr o)
      | failure => failure
      end
  end.

(** In the words of the specification: the expression is evaluated eagerly
    and the result is sliced. *)
Definition eager_sub (e : Expr ET Other) (start n : Z) : result (Expr ET Other) :=
  sub (Concrete (evaluate e)) start n.

(** An expression whose leaves are sparse vectors, whose views are ranges
    of their operands and whose binary nodes have operands of one size. *)
Fixpoint wf (e : Expr ET Other) : Prop :=
  match e with
  | Concrete v => CV.wf v
  | SubvectorOf operand start n =>
      wf operand /\ 0 <= start /\ 0 < n /\ start + n <= size operand
  | VecVecAddExpr lhs rhs | VecVecSubExpr lhs rhs | VecVecMultExpr lhs rhs =>
      wf lhs /\ wf rhs /\ size lhs = size rhs
  | VecScalarMultExpr lhs _ | VecScalarDivExpr lhs _ => wf lhs
  | VecAbsExpr operand | VecEvalExpr operand | VecTransExpr operand => wf operand
  end.

End Expressions.
End Expression.

(** * Vocabulary of the properties *)

(** The invariant of a view over the vector [v]: a non-empty range of
    indices of [v]. *)
Definition view_invariant {ET} (sv : SparseSubvector) (v : CompressedVector ET) : Prop :=
  0 <= start_ sv /\ 0 < size_ sv /\ start_ sv + size_ sv <= cv_size v.

(** The global indices a view covers. *)
Definition in_range (sv : SparseSubvector) (g : Z) : Prop :=
  start_ sv <= g < start_ sv + size_ sv.

#[global] Typeclasses Transparent in_range.

(** A position of the backing vector that is its end or holds an element
    outside the range of the view. *)
Definition outside_view {ET} (sv : SparseSubvector) (v : CompressedVector ET) (pos : nat)
  : Prop :=
  pos = CV.end_ v \/
  exists e, cv_elements v !! pos = Some e /\ ~ in_range sv e.1.

(** The address a right-hand side reads its elements from, if any. *)
Definition vector_address {ET} (rhs : Vector ET) : option nat :=
  match rhs with
  | DenseVector _ => None
  | SparseVector a => Some a
  | Subvector w => Some (vector_ w)
  end.

(** A right-hand side of the size [n] in the memory [m]: a dense vector
    of [n] values, a sparse vector of the size [n] or a view of the size
    [n] over a sparse vector. *)
Definition vector_wf {ET} (m : memory ET) (rhs : Vector ET) (n : Z) : Prop :=
  match rhs with
  | DenseVector x => Z.of_nat (length x) = n
  | SparseVector a => exists u, m !! a = Some u /\ CV.wf u /\ cv_size u = n
  | Subvector w =>
      exists u, m !! vector_ w = Some u /\ CV.wf u /\ view_invariant w u /\ size_ w = n
  end.

(** An evaluated operand of the size [n]. *)
Definition operand_wf {ET} (x : Operand ET) (n : Z) : Prop :=
  match x with
  | DenseOperand xs => Z.of_nat (length xs) = n
  | SparseOperand u => CV.wf u /\ cv_size u = n
  end.

(** The pushed-down subvector of [e] and the subvector of the eagerly
    evaluated [e] exist and have the same values. *)
Definition agrees_with_eager {ET Other} `{!Numeric ET} `{!Scalar ET Other}
  (e : Expr ET Other) (start n : Z) : Prop :=
  exists pushed sliced,
    Expression.sub e start n = Ok pushed /\
    Expression.eager_sub e start n = Ok sliced /\
    forall i, 0 <= i < n -> Expression.at_ pushed i = Expression.at_ sliced i.

(** Auxiliary notions of the proofs. *)

(** The value stored under an index, if any. *)
Fixpoint stored {ET} (l : list (Z * ET)) (g : Z) : option ET :=
  match l with
  | [] => None
  | e :: l' => if decide (e.1 = g) then Some e.2 else stored l' g
  end.

(** The appends of an assignment that insert an element: those that are
    not to check for the default value, or whose value is not the default
    value. *)
Definition effective {ET} `{!Numeric ET} (acts : list (Z * ET * bool)) : list (Z * ET) :=
  omap (fun act => if negb act.2 || negb (isDefault act.1.2) then Some act.1 else None) acts.

(** The values of the positions [first, last) of an element array updated
    by [f]. *)
Definition update_between {ET} (f : ET -> ET) (first last : nat) (l : list (Z * ET))
  : list (Z * ET) :=
  take first l ++ ((fun e => (e.1, f e.2)) <$> take (last - first) (drop first l))
  ++ drop last l.

(** The elements an assignment stores for an evaluated operand: the values
    of a dense vector that are not the default value, under their indices,
    and the stored elements of a sparse vector. *)
Definition operand_elements {ET} `{!Numeric ET} (x : Operand ET) : list (Z * ET) :=
  match x with
  | DenseOperand xs =>
      (fun i => (i, default zero (xs !! Z.to_nat i))) <$>
        filter (fun i => isDefault (default zero (xs !! Z.to_nat i)) = false)
          (seqZ 0 (Z.of_nat (length xs)))
  | SparseOperand u => cv_elements u
  end.

(** An operation that reads and writes the vector at the address [a] only:
    it runs the same way beside a vector at any other address. *)
Definition framed {ET A} (a : nat) (c : M ET A) : Prop :=
  forall (m : memory ET) a' u, a' <> a ->
    c (<[a' := u]> m) = ((c m).1, <[a' := u]> (c m).2).

(** The data of the examples. *)

Definition all_assertions : Assertions :=
  {| BLAZE_USER_ASSERTION := true; BLAZE_INTERNAL_ASSERTION := true |}.

Definition no_assertions : Assertions :=
  {| BLAZE_USER_ASSERTION := false; BLAZE_INTERNAL_ASSERTION := false |}.

(** The scenario of the specification: a sparse vector of size 10 with the
    elements (2,5), (5,-1), (7,3), at address 0, and the view of size 4
    from index 3. *)
Definition example_vector : CompressedVector Z :=
  {| cv_size := 10; cv_elements := [(2, 5); (5, -1); (7, 3)] |}.

Definition example_memory : memory Z := {[ 0%nat := example_vector ]}.

Definition example_view : SparseSubvector :=
  {| vector_ := 0; start_ := 3; size_ := 4 |}.

Definition example_vector_b : CompressedVector Z :=
  {| cv_size := 10; cv_elements := [(0, 1); (5, 4); (6, -2)] |}.

(** A view of the example vector that overlaps the example view: the
    range of size 4 from index 4. *)
Definition example_overlap : SparseSubvector :=
  {| vector_ := 0; start_ := 4; size_ := 4 |}.

(** * Arithmetic of [size_t] *)

Lemma size_t_add_small a b :
  0 <= a -> 0 <= b -> a + b < size_t_modulus -> size_t_add a b = a + b.
Proof. intros. unfold size_t_add. apply Z.mod_small. lia. Qed.

Lemma size_t_sub_small a b :
  0 <= b <= a -> a < size_t_modulus -> size_t_sub a b = a - b.
Proof. intros. unfold size_t_sub. apply Z.mod_small. lia. Qed.

(** * Properties of the backing vector *)

Section ContainerFacts.
Context {ET : Type}.
Implicit Types (l : list (Z * ET)) (i : Z).

Lemma filter_all (P : Z * ET -> Prop) `{!forall e, Decision (P e)} l :
  Forall P l -> filter P l = l.
Proof.
  induction 1 as [|e l He _ IH]; [done|].
  rewrite filter_cons_True by done. by rewrite IH.
Qed.

Lemma filter_none (P : Z * ET -> Prop) `{!forall e, Decision (P e)} l :
  Forall (fun e => ~ P e) l -> filter P l = [].
Proof.
  induction 1 as [|e l He _ IH]; [done|].
  by rewrite filter_cons_False.
Qed.

Lemma ascending_app l1 l2 :
  CV.ascending (l1 ++ l2) <->
  CV.ascending l1 /\ CV.ascending l2 /\
  Forall (fun e1 => Forall (fun e2 => e1.1 < e2.1) l2) l1.
Proof.
  induction l1 as [|e l1 IH]; simpl.
  - intuition constructor.
  - rewrite Forall_app, IH, Forall_cons. tauto.
Qed.

Lemma lower_pos_length l i : (CV.lower_pos l i <= length l)%nat.
Proof. induction l as [|e l IH]; simpl; [lia|]. case_bool_decide; lia. Qed.

Lemma upper_pos_lower_pos l i : CV.upper_pos l i = CV.lower_pos l (i + 1).
Proof.
  induction l as [|e l IH]; simpl; [done|].
  rewrite IH. repeat case_bool_decide; lia.
Qed.

Lemma lower_pos_mono l i j : i <= j -> (CV.lower_pos l i <= CV.lower_pos l j)%nat.
Proof.
  intros Hij. induction l as [|e l IH]; simpl; [lia|].
  repeat case_bool_decide; lia.
Qed.

Lemma lower_pos_take l i : Forall (fun e => e.1 < i) (take (CV.lower_pos l i) l).
Proof.
  induction l as [|e l IH]; simpl; [constructor|].
  case_bool_decide; simpl; [by constructor|constructor].
Qed.

Lemma lower_pos_drop l i :
  CV.ascending l -> Forall (fun e => i <= e.1) (drop (CV.lower_pos l i) l).
Proof.
  induction l as [|e l IH]; simpl; [constructor|].
  intros [Hhd Htl]. case_bool_decide; simpl; [by apply IH|].
  constructor; [lia|]. eapply Forall_impl; [exact Hhd|]. simpl. intros; lia.
Qed.

(** The positions depend on the stored indices only. *)
Lemma lower_pos_indices l l' i : l.*1 = l'.*1 -> CV.lower_pos l i = CV.lower_pos l' i.
Proof.
  revert l'. induction l as [|e l IH]; intros [|e' l'] Heq; simplify_eq/=; [done|].
  rewrite (IH l') by done. by replace e'.1 with e.1.
Qed.

End ContainerFacts.

Section RangeFacts.
Context {ET : Type}.
Implicit Types (l : list (Z * ET)).

Lemma filter_middle (P : Z * ET -> Prop) `{!forall e, Decision (P e)} l1 l2 l3 :
  Forall (fun e => ~ P e) l1 -> Forall P l2 -> Forall (fun e => ~ P e) l3 ->
  filter P (l1 ++ l2 ++ l3) = l2.
Proof.
  intros H1 H2 H3. rewrite !filter_app.
  rewrite (filter_none P l1), (filter_all P l2), (filter_none P l3) by done.
  by rewrite app_nil_r.
Qed.

Lemma filter_around (P : Z * ET -> Prop) `{!forall e, Decision (P e)} l1 l2 l3 :
  Forall P l1 -> Forall (fun e => ~ P e) l2 -> Forall P l3 ->
  filter P (l1 ++ l2 ++ l3) = l1 ++ l3.
Proof.
  intros H1 H2 H3. rewrite !filter_app.
  by rewrite (filter_all P l1), (filter_none P l2), (filter_all P l3).
Qed.

Lemma split_positions l (p q : nat) :
  (p <= q)%nat -> l = take p l ++ take (q - p) (drop p l) ++ drop q l.
Proof.
  intros Hpq.
  rewrite <- (take_drop p l) at 1. f_equal.
  rewrite <- (take_drop (q - p) (drop p l)) at 1. f_equal.
  rewrite drop_drop. f_equal. lia.
Qed.

(** The element array splits at the lower bounds of [a] and of [b]. *)
Lemma split_at_bounds l (a b : Z) :
  a <= b ->
  let p := CV.lower_pos l a in
  let q := CV.lower_pos l b in
  l = take p l ++ take (q - p) (drop p l) ++ drop q l.
Proof. intros Hab p q. by apply split_positions, lower_pos_mono. Qed.

Lemma between_bounds l (a b : Z) :
  CV.ascending l -> a <= b ->
  Forall (fun e => a <= e.1 < b)
    (take (CV.lower_pos l b - CV.lower_pos l a) (drop (CV.lower_pos l a) l)).
Proof.
  intros Hl Hab.
  assert (CV.lower_pos l a <= CV.lower_pos l b)%nat by (by apply lower_pos_mono).
  apply Forall_and. split.
  - apply Forall_take. by apply lower_pos_drop.
  - rewrite take_drop_commute.
    replace (CV.lower_pos l a + (CV.lower_pos l b - CV.lower_pos l a))%nat
      with (CV.lower_pos l b) by lia.
    apply Forall_drop, lower_pos_take.
Qed.

Lemma range_filter l (a b : Z) :
  CV.ascending l -> a <= b ->
  take (CV.lower_pos l b - CV.lower_pos l a) (drop (CV.lower_pos l a) l)
  = filter (fun e => a <= e.1 < b) l.
Proof.
  intros Hl Hab. symmetry.
  rewrite (split_at_bounds l a b Hab) at 1.
  apply filter_middle.
  - eapply Forall_impl; [apply lower_pos_take|]. simpl. intros; lia.
  - by apply between_bounds.
  - eapply Forall_impl; [by apply lower_pos_drop|]. simpl. intros; lia.
Qed.

Lemma outside_filter l (a b : Z) :
  CV.ascending l -> a <= b ->
  take (CV.lower_pos l a) l ++ drop (CV.lower_pos l b) l
  = filter (fun e => ~ (a <= e.1 < b)) l.
Proof.
  intros Hl Hab. symmetry.
  rewrite (split_at_bounds l a b Hab) at 1.
  apply filter_around.
  - eapply Forall_impl; [apply lower_pos_take|]. simpl. intros; lia.
  - eapply Forall_impl; [by apply between_bounds|]. simpl. intros; lia.
  - eapply Forall_impl; [by apply lower_pos_drop|]. simpl. intros; lia.
Qed.

Lemma Forall_filter_keep (P Q : Z * ET -> Prop) `{!forall e, Decision (P e)} l :
  Forall Q l -> Forall Q (filter P l).
Proof.
  rewrite !Forall_forall. intros HQ e He.
  apply list_elem_of_filter in He as [_ He]. by apply HQ.
Qed.

Lemma ascending_filter (P : Z * ET -> Prop) `{!forall e, Decision (P e)} l :
  CV.ascending l -> CV.ascending (filter P l).
Proof.
  induction l as [|e l IH]; simpl; [done|]. intros [Hhd Htl].
  destruct (decide (P e)).
  - rewrite filter_cons_True by done. simpl. split; [|by apply IH].
    by apply Forall_filter_keep.
  - rewrite filter_cons_False by done. by apply IH.
Qed.

End RangeFacts.

Lemma ascending_shift {ET} (a : Z) (l : list (Z * ET)) :
  CV.ascending l -> CV.ascending ((fun e => (e.1 - a, e.2)) <$> l).
Proof.
  induction l as [|e l IH]; simpl; [done|]. intros [Hhd Htl]. split; [|by apply IH].
  apply Forall_fmap. eapply Forall_impl; [exact Hhd|]. simpl. intros; lia.
Qed.

(** * Properties of the view *)

Section ViewFacts.
Context {ET : Type} `{!Numeric ET}.
Variable cfg : Assertions.
Implicit Types (sv : SparseSubvector) (v : CompressedVector ET) (m : memory ET).

Lemma view_end_no_wrap sv v :
  CV.wf v -> view_invariant sv v ->
  size_t_add (start_ sv) (size_ sv) = start_ sv + size_ sv.
Proof.
  intros (Hsz & _) (H0 & Hn & Hle). apply size_t_add_small; lia.
Qed.

Lemma view_index_no_wrap sv v i :
  CV.wf v -> view_invariant sv v -> 0 <= i < size_ sv ->
  size_t_add (start_ sv) i = start_ sv + i.
Proof.
  intros (Hsz & _) (H0 & Hn & Hle) Hi. apply size_t_add_small; lia.
Qed.

Lemma run_load m a v {A} (k : CompressedVector ET -> M ET A) :
  m !! a = Some v -> bind (load a) k m = k v m.
Proof. intros Hm. unfold bind, load. by rewrite Hm. Qed.

(** The constructor on a range that does not wrap around. *)
Lemma new_run m v (vector : nat) (start n : Z) :
  m !! vector = Some v -> 0 <= start -> 0 <= n -> start + n < size_t_modulus ->
  SV.new vector start n m
  = (if decide (n = 0 \/ start + n > cv_size v)
     then InvalidArgument "Invalid subvector specification"
     else Ok {| vector_ := vector; start_ := start; size_ := n |}, m).
Proof.
  intros Hm H0 Hn Hsum. unfold SV.new. rewrite (run_load m _ v) by done.
  rewrite size_t_add_small by done. unfold CV.size.
  destruct (decide (n = 0 \/ start + n > cv_size v)) as [Hbad|Hok].
  - destruct (decide (n = 0)) as [->|]; [done|].
    rewrite (bool_decide_eq_false_2 (n = 0)) by done.
    by rewrite bool_decide_eq_true_2 by lia.
  - rewrite (bool_decide_eq_false_2 (n = 0)) by lia.
    by rewrite bool_decide_eq_false_2 by lia.
Qed.

(** The constructor establishes the invariant of the view, unless the sum
    of start and size wraps around. *)
Lemma constructor_establishes_invariant m m' v (vector : nat) (start n : Z) sv :
  m !! vector = Some v -> 0 <= start -> 0 <= n -> start + n < size_t_modulus ->
  SV.new vector start n m = (Ok sv, m') ->
  m' = m /\ sv = {| vector_ := vector; start_ := start; size_ := n |} /\
  view_invariant sv v.
Proof.
  intros Hm H0 Hn Hsum Hnew. rewrite (new_run m v) in Hnew by done.
  destruct (decide (n = 0 \/ start + n > cv_size v)) as [Hd|Hd]; [done|].
  simplify_eq. split; [done|]. split; [done|].
  unfold view_invariant. simpl. lia.
Qed.

Lemma begin_run sv m v :
  m !! vector_ sv = Some v ->
  SV.begin sv m = (Ok {| pos_ := CV.lowerBound v (start_ sv); offset_ := start_ sv |}, m).
Proof. intros Hm. unfold SV.begin. by rewrite (run_load m _ v). Qed.

Lemma end_run sv m v :
  m !! vector_ sv = Some v ->
  SV.end_ sv m
  = (Ok {| pos_ := CV.lowerBound v (size_t_add (start_ sv) (size_ sv)); offset_ := start_ sv |}, m).
Proof. intros Hm. unfold SV.end_. by rewrite (run_load m _ v). Qed.

Lemma traverse_unfold fuel sv it :
  SV.traverse cfg fuel sv it =
  (let* last := SV.end_ sv in
   if iterator_eqb it last then ret []
   else
     match fuel return M ET (list (Z * ET)) with
     | O => undefined
     | S fuel' =>
         let* el := SV.dereference cfg sv it in
         let* i := SV.index sv el in
         let* x := SV.value sv el in
         let* rest := SV.traverse cfg fuel' sv (SV.increment it) in
         ret ((i, x) :: rest)
     end).
Proof. by destruct fuel. Qed.

Lemma pointee_run sv m v pos e :
  m !! vector_ sv = Some v -> cv_elements v !! pos = Some e ->
  SV.pointee sv pos m = (Ok e, m).
Proof. intros Hm He. unfold SV.pointee. rewrite (run_load m _ v) by done. by rewrite He. Qed.

Lemma dereference_run sv m v pos e :
  m !! vector_ sv = Some v -> cv_elements v !! pos = Some e -> start_ sv <= e.1 ->
  SV.dereference cfg sv {| pos_ := pos; offset_ := start_ sv |} m
  = (Ok {| element_pos_ := pos; element_offset_ := start_ sv |}, m).
Proof.
  intros Hm He Hle. unfold SV.dereference, SV.new_element. simpl.
  destruct (BLAZE_INTERNAL_ASSERTION cfg); [|done].
  unfold bind at 1 2. rewrite (pointee_run sv m v pos e) by done.
  rewrite bool_decide_eq_true_2 by lia. done.
Qed.

Lemma traverse_run fuel sv m v p :
  m !! vector_ sv = Some v ->
  let l := cv_elements v in
  let q := CV.lower_pos l (size_t_add (start_ sv) (size_ sv)) in
  (p <= q)%nat -> (q - p <= fuel)%nat -> 0 <= start_ sv ->
  Forall (fun e => start_ sv <= e.1 < size_t_modulus) (take (q - p) (drop p l)) ->
  SV.traverse cfg fuel sv {| pos_ := p; offset_ := start_ sv |} m
  = (Ok ((fun e => (e.1 - start_ sv, e.2)) <$> take (q - p) (drop p l)), m).
Proof.
  intros Hm l q. revert p. induction fuel as [|fuel IH]; intros p Hpq Hfuel Hstart Hall.
  - rewrite traverse_unfold. unfold bind at 1. rewrite (end_run sv m v) by done.
    unfold iterator_eqb; simpl.
    change (CV.lowerBound v (size_t_add (start_ sv) (size_ sv))) with q.
    replace (q - p)%nat with 0%nat by lia. rewrite bool_decide_eq_true_2 by lia. done.
  - rewrite traverse_unfold. unfold bind at 1. rewrite (end_run sv m v) by done.
    unfold iterator_eqb; simpl.
    change (CV.lowerBound v (size_t_add (start_ sv) (size_ sv))) with q.
    case_bool_decide as Heq.
    + subst p. replace (q - q)%nat with 0%nat by lia. done.
    + assert (Hlt : (p < length l)%nat).
      { pose proof (lower_pos_length l (size_t_add (start_ sv) (size_ sv))). unfold q in *. lia. }
      destruct (lookup_lt_is_Some_2 l p Hlt) as [e He].
      replace (q - p)%nat with (S (q - S p)) in * by lia.
      rewrite (drop_S l e p He) in *. simpl in Hall. apply Forall_cons in Hall as [Hhd Hall].
      unfold bind at 1. rewrite (dereference_run sv m v p e) by (done || lia).
      unfold SV.index, SV.value. simpl.
      unfold bind at 1 2. rewrite (pointee_run sv m v p e) by done.
      unfold ret at 1. unfold bind at 1 2. rewrite (pointee_run sv m v p e) by done.
      unfold ret at 1. unfold bind at 1. unfold SV.increment. simpl.
      rewrite IH by (done || lia). unfold ret. simpl.
      rewrite size_t_sub_small by lia. done.
Qed.

(** The traversal of a view yields the stored elements of its range, each
    under its local index. *)
Lemma elements_run sv m v :
  m !! vector_ sv = Some v -> CV.wf v -> view_invariant sv v ->
  SV.elements cfg sv m
  = (Ok ((fun e => (e.1 - start_ sv, e.2)) <$>
           filter (fun e => in_range sv e.1) (cv_elements v)), m).
Proof.
  intros Hm Hwf Hinv. pose proof Hinv as (H0 & Hn & Hle).
  pose proof Hwf as (Hsz & Hidx & Hasc).
  unfold SV.elements. rewrite (run_load m _ v) by done.
  unfold bind. rewrite (begin_run sv m v) by done.
  unfold CV.end_, CV.lowerBound.
  pose proof (lower_pos_length (cv_elements v) (size_t_add (start_ sv) (size_ sv))).
  assert (Hmono : (CV.lower_pos (cv_elements v) (start_ sv)
                   <= CV.lower_pos (cv_elements v) (size_t_add (start_ sv) (size_ sv)))%nat).
  { apply lower_pos_mono. rewrite (view_end_no_wrap sv v) by done. lia. }
  rewrite (view_end_no_wrap sv v) in * by done.
  assert (Hall : Forall (fun e => start_ sv <= e.1 < size_t_modulus)
            (filter (fun e => in_range sv e.1) (cv_elements v))).
  { apply Forall_forall. intros e He. apply list_elem_of_filter in He as [Hr He].
    rewrite Forall_forall in Hidx. specialize (Hidx e He). unfold in_range in Hr. lia. }
  unfold in_range in *.
  rewrite <- (range_filter (cv_elements v) (start_ sv) (start_ sv + size_ sv)) in * by (done || lia).
  rewrite (traverse_run _ sv m v); rewrite ?(view_end_no_wrap sv v) by done; done || lia.
Qed.

End ViewFacts.

Section MutationFacts.
Context {ET : Type} `{!Numeric ET}.
Variable cfg : Assertions.
Implicit Types (sv : SparseSubvector) (v : CompressedVector ET) (m : memory ET).

(** Erasing a range of positions keeps the class invariant. *)
Lemma wf_filter (P : Z * ET -> Prop) `{!forall e, Decision (P e)} v :
  CV.wf v ->
  CV.wf {| cv_size := cv_size v; cv_elements := filter P (cv_elements v) |}.
Proof.
  intros (Hsz & Hidx & Hasc). repeat split; simpl; try lia.
  - by apply Forall_filter_keep.
  - by apply ascending_filter.
Qed.

Lemma reset_run sv m v :
  m !! vector_ sv = Some v -> CV.wf v -> view_invariant sv v ->
  SV.reset sv m
  = (Ok tt, <[vector_ sv :=
       {| cv_size := cv_size v;
          cv_elements := filter (fun e => ~ in_range sv e.1) (cv_elements v) |}]> m).
Proof.
  intros Hm Hwf Hinv. pose proof Hinv as (H0 & Hn & Hle).
  pose proof Hwf as (Hsz & Hidx & Hasc).
  unfold SV.reset. rewrite (run_load m _ v) by done.
  unfold store, CV.erase, CV.lowerBound. do 3 f_equal.
  rewrite (view_end_no_wrap sv v) by done.
  unfold in_range. apply outside_filter; [done|lia].
Qed.

Lemma update_between_empty (f : ET -> ET) p (l : list (Z * ET)) : update_between f p p l = l.
Proof.
  unfold update_between. replace (p - p)%nat with 0%nat by lia.
  simpl. apply take_drop.
Qed.

Lemma update_between_step (f : ET -> ET) p q (l : list (Z * ET)) e :
  (p < q)%nat -> l !! p = Some e ->
  update_between f (S p) q (<[p := (e.1, f e.2)]> l) = update_between f p q l.
Proof.
  intros Hpq He. unfold update_between.
  assert (Hlen : (p < length l)%nat) by (by eapply lookup_lt_Some).
  rewrite (take_S_r _ p (e.1, f e.2)) by (by rewrite list_lookup_insert_eq).
  rewrite take_insert_ge by lia.
  rewrite !drop_insert_lt by lia.
  replace (q - p)%nat with (S (q - S p)) by lia.
  rewrite (drop_S l e p He). simpl. by rewrite <- app_assoc.
Qed.

Lemma for_each_value_unfold fuel sv f it :
  SV.for_each_value cfg fuel sv f it =
  (let* last := SV.end_ sv in
   if iterator_eqb it last then ret tt
   else
     match fuel return M ET unit with
     | O => undefined
     | S fuel' =>
         let* el := SV.dereference cfg sv it in
         SV.update_value sv el f;;
         SV.for_each_value cfg fuel' sv f (SV.increment it)
     end).
Proof. by destruct fuel. Qed.

Lemma for_each_value_run fuel sv f : forall m v p,
  m !! vector_ sv = Some v ->
  let l := cv_elements v in
  let q := CV.lower_pos l (size_t_add (start_ sv) (size_ sv)) in
  (p <= q)%nat -> (q - p <= fuel)%nat ->
  Forall (fun e => start_ sv <= e.1) (take (q - p) (drop p l)) ->
  SV.for_each_value cfg fuel sv f {| pos_ := p; offset_ := start_ sv |} m
  = (Ok tt, <[vector_ sv :=
       {| cv_size := cv_size v; cv_elements := update_between f p q l |}]> m).
Proof.
  induction fuel as [|fuel IH]; intros m v p Hm l q Hpq Hfuel Hall.
  - rewrite for_each_value_unfold. unfold bind at 1. rewrite (end_run sv m v) by done.
    unfold iterator_eqb; simpl.
    change (CV.lowerBound v (size_t_add (start_ sv) (size_ sv))) with q.
    assert (p = q) as -> by lia. rewrite bool_decide_eq_true_2 by done.
    rewrite update_between_empty. unfold ret. f_equal.
    symmetry. apply insert_id. by destruct v.
  - rewrite for_each_value_unfold. unfold bind at 1. rewrite (end_run sv m v) by done.
    unfold iterator_eqb; simpl.
    change (CV.lowerBound v (size_t_add (start_ sv) (size_ sv))) with q.
    case_bool_decide as Heq.
    + subst p. rewrite update_between_empty. unfold ret. f_equal.
      symmetry. apply insert_id. by destruct v.
    + assert (Hlt : (p < length l)%nat).
      { pose proof (lower_pos_length l (size_t_add (start_ sv) (size_ sv))). unfold q in *. lia. }
      destruct (lookup_lt_is_Some_2 l p Hlt) as [e He].
      replace (q - p)%nat with (S (q - S p)) in Hall by lia.
      rewrite (drop_S l e p He) in Hall. simpl in Hall.
      apply Forall_cons in Hall as [Hhd Hall].
      unfold bind at 1. rewrite (dereference_run cfg sv m v p e) by done.
      unfold bind at 1. unfold SV.update_value. simpl.
      rewrite (run_load m _ v) by done. fold l. rewrite He.
      unfold store. unfold SV.increment. simpl.
      set (v1 := {| cv_size := cv_size v; cv_elements := <[p:=(e.1, f e.2)]> l |}).
      assert (Hq : CV.lower_pos (cv_elements v1) (size_t_add (start_ sv) (size_ sv)) = q).
      { apply lower_pos_indices. simpl. rewrite list_fmap_insert. simpl.
        apply list_insert_id. by rewrite list_lookup_fmap, He. }
      rewrite (IH (<[vector_ sv := v1]> m) v1 (S p)).
      * rewrite insert_insert_eq. rewrite Hq. simpl.
        by rewrite update_between_step by (done || lia).
      * by rewrite lookup_insert_eq.
      * rewrite Hq. lia.
      * rewrite Hq. lia.
      * rewrite Hq. simpl. by rewrite drop_insert_lt by lia.
Qed.

Lemma update_between_range (f : ET -> ET) (l : list (Z * ET)) (a b : Z) :
  CV.ascending l -> a <= b ->
  update_between f (CV.lower_pos l a) (CV.lower_pos l b) l
  = (fun e => if decide (a <= e.1 < b) then (e.1, f e.2) else e) <$> l.
Proof.
  intros Hl Hab. rewrite (split_at_bounds l a b Hab) at 4.
  unfold update_between. rewrite !fmap_app. f_equal; [|f_equal].
  - rewrite <- (list_fmap_id (take _ l)) at 1. apply Forall_fmap_ext_1.
    eapply Forall_impl; [apply lower_pos_take|]. simpl. intros e He.
    rewrite decide_False by lia. done.
  - apply Forall_fmap_ext_1.
    eapply Forall_impl; [by apply between_bounds|]. simpl. intros e He.
    by rewrite decide_True.
  - rewrite <- (list_fmap_id (drop _ l)) at 1. apply Forall_fmap_ext_1.
    eapply Forall_impl; [by apply lower_pos_drop|]. simpl. intros e He.
    rewrite decide_False by lia. done.
Qed.

(** The scalar loops update the values of the stored elements of the range
    and nothing else. *)
Lemma update_values_run sv f m v :
  m !! vector_ sv = Some v -> CV.wf v -> view_invariant sv v ->
  SV.update_values cfg sv f m
  = (Ok tt, <[vector_ sv :=
       {| cv_size := cv_size v;
          cv_elements :=
            (fun e => if decide (in_range sv e.1) then (e.1, f e.2) else e)
              <$> cv_elements v |}]> m).
Proof.
  intros Hm Hwf Hinv. pose proof Hinv as (H0 & Hn & Hle).
  pose proof Hwf as (Hsz & Hidx & Hasc).
  unfold SV.update_values. rewrite (run_load m _ v) by done.
  unfold bind. rewrite (begin_run sv m v) by done.
  unfold CV.end_, CV.lowerBound.
  pose proof (lower_pos_length (cv_elements v) (size_t_add (start_ sv) (size_ sv))).
  rewrite (for_each_value_run _ sv f m v); rewrite ?(view_end_no_wrap sv v) by done.
  - unfold in_range. by rewrite update_between_range by (done || lia).
  - done.
  - apply lower_pos_mono. lia.
  - rewrite (view_end_no_wrap sv v) in * by done. lia.
  - eapply Forall_impl; [apply between_bounds; [done|lia]|]. simpl. intros; lia.
Qed.

End MutationFacts.

Section DivisionFacts.
Context {ET Other : Type} `{!Scalar ET Other}.
Variable cfg : Assertions.
Implicit Types (sv : SparseSubvector) (v : CompressedVector ET) (m : memory ET).

Lemma for_each_quotient_unfold fuel sv (rhs : Other) it :
  SV.for_each_quotient cfg fuel sv rhs it =
  (let* last := SV.end_ sv in
   if iterator_eqb it last then ret tt
   else
     match fuel return M ET unit with
     | O => undefined
     | S fuel' =>
         let* el := SV.dereference cfg sv it in
         SV.divide_value sv el rhs;;
         SV.for_each_quotient cfg fuel' sv rhs (SV.increment it)
     end).
Proof. by destruct fuel. Qed.

Lemma divide_value_run sv m v pos e offset (rhs : Other) :
  m !! vector_ sv = Some v -> cv_elements v !! pos = Some e ->
  SV.divide_value sv {| element_pos_ := pos; element_offset_ := offset |} rhs m
  = if div_defined e.2 rhs
    then (Ok tt, <[vector_ sv :=
            {| cv_size := cv_size v;
               cv_elements := <[pos := (e.1, div_assign e.2 rhs)]> (cv_elements v) |}]> m)
    else (Undefined, m).
Proof.
  intros Hm He. unfold SV.divide_value, SV.value. simpl.
  unfold bind at 1 2. rewrite (pointee_run sv m v pos e) by done. unfold ret at 1.
  destruct (div_defined e.2 rhs); [|done].
  unfold SV.update_value. simpl. rewrite (run_load m _ v) by done. by rewrite He.
Qed.

(** The loop of the division where every division is defined: it is the
    loop that updates the values by the quotients. *)
Lemma for_each_quotient_run fuel sv (rhs : Other) : forall m v p,
  m !! vector_ sv = Some v ->
  let l := cv_elements v in
  let q := CV.lower_pos l (size_t_add (start_ sv) (size_ sv)) in
  (p <= q)%nat -> (q - p <= fuel)%nat ->
  Forall (fun e => start_ sv <= e.1 /\ div_defined e.2 rhs = true) (take (q - p) (drop p l)) ->
  SV.for_each_quotient cfg fuel sv rhs {| pos_ := p; offset_ := start_ sv |} m
  = (Ok tt, <[vector_ sv :=
       {| cv_size := cv_size v;
          cv_elements := update_between (fun x => div_assign x rhs) p q l |}]> m).
Proof.
  induction fuel as [|fuel IH]; intros m v p Hm l q Hpq Hfuel Hall.
  - rewrite for_each_quotient_unfold. unfold bind at 1. rewrite (end_run sv m v) by done.
    unfold iterator_eqb; simpl.
    change (CV.lowerBound v (size_t_add (start_ sv) (size_ sv))) with q.
    assert (p = q) as -> by lia. rewrite bool_decide_eq_true_2 by done.
    rewrite update_between_empty. unfold ret. f_equal.
    symmetry. apply insert_id. by destruct v.
  - rewrite for_each_quotient_unfold. unfold bind at 1. rewrite (end_run sv m v) by done.
    unfold iterator_eqb; simpl.
    change (CV.lowerBound v (size_t_add (start_ sv) (size_ sv))) with q.
    case_bool_decide as Heq.
    + subst p. rewrite update_between_empty. unfold ret. f_equal.
      symmetry. apply insert_id. by destruct v.
    + assert (Hlt : (p < length l)%nat).
      { pose proof (lower_pos_length l (size_t_add (start_ sv) (size_ sv))). unfold q in *. lia. }
      destruct (lookup_lt_is_Some_2 l p Hlt) as [e He].
      replace (q - p)%nat with (S (q - S p)) in Hall by lia.
      rewrite (drop_S l e p He) in Hall. simpl in Hall.
      apply Forall_cons in Hall as [[Hhd Hdef] Hall].
      unfold bind at 1. rewrite (dereference_run cfg sv m v p e) by done.
      unfold bind at 1. rewrite (divide_value_run sv m v p e _ rhs Hm He). rewrite Hdef.
      unfold SV.increment. simpl.
      set (v1 := {| cv_size := cv_size v;
                    cv_elements := <[p:=(e.1, div_assign e.2 rhs)]> l |}).
      assert (Hq : CV.lower_pos (cv_elements v1) (size_t_add (start_ sv) (size_ sv)) = q).
      { apply lower_pos_indices. simpl. rewrite list_fmap_insert. simpl.
        apply list_insert_id. by rewrite list_lookup_fmap, He. }
      rewrite (IH (<[vector_ sv := v1]> m) v1 (S p)).
      * rewrite insert_insert_eq. rewrite Hq. simpl.
        by rewrite (update_between_step (fun x => div_assign x rhs)) by (done || lia).
      * by rewrite lookup_insert_eq.
      * rewrite Hq. lia.
      * rewrite Hq. lia.
      * rewrite Hq. simpl. by rewrite drop_insert_lt by lia.
Qed.

(** The loop of the division where a division is not defined: it runs
    into undefined behaviour. *)
Lemma for_each_quotient_undefined fuel sv (rhs : Other) : forall m v p,
  m !! vector_ sv = Some v ->
  let l := cv_elements v in
  let q := CV.lower_pos l (size_t_add (start_ sv) (size_ sv)) in
  (p <= q)%nat -> (q - p <= fuel)%nat ->
  Forall (fun e => start_ sv <= e.1) (take (q - p) (drop p l)) ->
  Exists (fun e => div_defined e.2 rhs = false) (take (q - p) (drop p l)) ->
  exists m',
    SV.for_each_quotient cfg fuel sv rhs {| pos_ := p; offset_ := start_ sv |} m
    = (Undefined, m').
Proof.
  induction fuel as [|fuel IH]; intros m v p Hm l q Hpq Hfuel Hall Hex.
  - replace (q - p)%nat with 0%nat in Hex by lia. by apply Exists_nil in Hex.
  - rewrite for_each_quotient_unfold. unfold bind at 1. rewrite (end_run sv m v) by done.
    unfold iterator_eqb; simpl.
    change (CV.lowerBound v (size_t_add (start_ sv) (size_ sv))) with q.
    case_bool_decide as Heq.
    + subst p. replace (q - q)%nat with 0%nat in Hex by lia. by apply Exists_nil in Hex.
    + assert (Hlt : (p < length l)%nat).
      { pose proof (lower_pos_length l (size_t_add (start_ sv) (size_ sv))). unfold q in *. lia. }
      destruct (lookup_lt_is_Some_2 l p Hlt) as [e He].
      replace (q - p)%nat with (S (q - S p)) in Hall, Hex by lia.
      rewrite (drop_S l e p He) in Hall, Hex. simpl in Hall, Hex.
      apply Forall_cons in Hall as [Hhd Hall].
      unfold bind at 1. rewrite (dereference_run cfg sv m v p e) by done.
      unfold bind at 1. rewrite (divide_value_run sv m v p e _ rhs Hm He).
      destruct (div_defined e.2 rhs) eqn:Hdef; [|by eexists].
      apply Exists_cons in Hex as [Hex|Hex]; [congruence|].
      unfold SV.increment. simpl.
      set (v1 := {| cv_size := cv_size v;
                    cv_elements := <[p:=(e.1, div_assign e.2 rhs)]> l |}).
      assert (Hq : CV.lower_pos (cv_elements v1) (size_t_add (start_ sv) (size_ sv)) = q).
      { apply lower_pos_indices. simpl. rewrite list_fmap_insert. simpl.
        apply list_insert_id. by rewrite list_lookup_fmap, He. }
      apply (IH (<[vector_ sv := v1]> m) v1 (S p)).
      * by rewrite lookup_insert_eq.
      * rewrite Hq. lia.
      * rewrite Hq. lia.
      * rewrite Hq. simpl. by rewrite drop_insert_lt by lia.
      * rewrite Hq. simpl. by rewrite drop_insert_lt by lia.
Qed.

(** The division of the values of the range, where the division of every
    stored value of the range is defined. *)
Lemma divide_values_run sv (rhs : Other) m v :
  m !! vector_ sv = Some v -> CV.wf v -> view_invariant sv v ->
  (forall pos g x, cv_elements v !! pos = Some (g, x) -> in_range sv g ->
                   div_defined x rhs = true) ->
  SV.divide_values cfg sv rhs m
  = (Ok tt, <[vector_ sv :=
       {| cv_size := cv_size v;
          cv_elements :=
            (fun e => if decide (in_range sv e.1) then (e.1, div_assign e.2 rhs) else e)
              <$> cv_elements v |}]> m).
Proof.
  intros Hm Hwf Hinv Hdef. pose proof Hinv as (H0 & Hn & Hle).
  pose proof Hwf as (Hsz & Hidx & Hasc).
  unfold SV.divide_values. rewrite (run_load m _ v) by done.
  unfold bind. rewrite (begin_run sv m v) by done.
  unfold CV.end_, CV.lowerBound.
  pose proof (lower_pos_length (cv_elements v) (size_t_add (start_ sv) (size_ sv))).
  rewrite (for_each_quotient_run _ sv rhs m v); rewrite ?(view_end_no_wrap sv v) by done.
  - unfold in_range. by rewrite update_between_range by (done || lia).
  - done.
  - apply lower_pos_mono. lia.
  - rewrite (view_end_no_wrap sv v) in * by done. lia.
  - apply Forall_forall. intros [g x] He.
    pose proof (between_bounds (cv_elements v) (start_ sv) (start_ sv + size_ sv) Hasc
                  ltac:(lia)) as Hb.
    rewrite Forall_forall in Hb. specialize (Hb _ He). simpl in Hb. simpl. split; [lia|].
    apply list_elem_of_lookup in He as [k Hk].
    rewrite lookup_take_Some in Hk. destruct Hk as [Hk _]. rewrite lookup_drop in Hk.
    by apply (Hdef _ g x Hk).
Qed.

(** The division of the values of the range, where the division of a
    stored value of the range is not defined. *)
Lemma divide_values_undefined sv (rhs : Other) m v :
  m !! vector_ sv = Some v -> CV.wf v -> view_invariant sv v ->
  (exists pos g x, cv_elements v !! pos = Some (g, x) /\ in_range sv g /\
                   div_defined x rhs = false) ->
  exists m', SV.divide_values cfg sv rhs m = (Undefined, m').
Proof.
  intros Hm Hwf Hinv (pos & g & x & He & Hr & Hdef). pose proof Hinv as (H0 & Hn & Hle).
  pose proof Hwf as (Hsz & Hidx & Hasc).
  unfold SV.divide_values. rewrite (run_load m _ v) by done.
  unfold bind. rewrite (begin_run sv m v) by done.
  unfold CV.end_, CV.lowerBound.
  pose proof (lower_pos_length (cv_elements v) (size_t_add (start_ sv) (size_ sv))).
  apply (for_each_quotient_undefined _ sv rhs m v); rewrite ?(view_end_no_wrap sv v) by done.
  - done.
  - apply lower_pos_mono. lia.
  - rewrite (view_end_no_wrap sv v) in * by done. lia.
  - eapply Forall_impl; [apply between_bounds; [done|lia]|]. simpl. intros; lia.
  - apply Exists_exists. exists (g, x). split; [|done].
    rewrite (range_filter (cv_elements v) (start_ sv) (start_ sv + size_ sv)) by (done || lia).
    apply list_elem_of_filter. split; [exact Hr|]. by eapply list_elem_of_lookup_2.
Qed.

End DivisionFacts.

Section LookupFacts.
Context {ET : Type}.
Implicit Types (l : list (Z * ET)) (v : CompressedVector ET).

Lemma lower_pos_clamp l (a b c : Z) :
  CV.ascending l -> a <= c <= b ->
  let p := CV.lower_pos l c in
  p = length l \/ (exists e, l !! p = Some e /\ ~ (a <= e.1 < b)) ->
  p = CV.lower_pos l b.
Proof.
  intros Hl Hc p Hout.
  assert (Hpq : (p <= CV.lower_pos l b)%nat) by (apply lower_pos_mono; lia).
  pose proof (lower_pos_length l b) as Hq.
  destruct Hout as [Hend | (e & He & Hr)]; [lia|].
  destruct (decide (p = CV.lower_pos l b)) as [|Hne]; [done|exfalso].
  assert (c <= e.1).
  { pose proof (lower_pos_drop l c Hl) as Hd. fold p in Hd.
    rewrite (drop_S l e p He) in Hd. by apply Forall_cons in Hd as [? _]. }
  assert (e.1 < b).
  { pose proof (lower_pos_take l b) as Ht. rewrite Forall_forall in Ht.
    apply Ht. apply list_elem_of_lookup. exists p.
    rewrite lookup_take_lt by lia. done. }
  lia.
Qed.

Lemma find_cases v (g : Z) :
  CV.find v g = CV.end_ v \/
  (CV.find v g = CV.lowerBound v g /\
   exists e, cv_elements v !! CV.find v g = Some e /\ e.1 = g).
Proof.
  unfold CV.find. simpl.
  destruct (cv_elements v !! CV.lowerBound v g) as [e|] eqn:He; [|by left].
  case_bool_decide; [right|by left]. eauto.
Qed.

End LookupFacts.

Section StoredFacts.
Context {ET : Type} `{!Numeric ET}.
Implicit Types (l : list (Z * ET)) (v : CompressedVector ET) (g : Z).

Lemma stored_None l g : stored l g = None <-> Forall (fun e => e.1 <> g) l.
Proof.
  induction l as [|e l IH]; simpl; [by split; [constructor|]|].
  rewrite Forall_cons. destruct (decide (e.1 = g)); [|tauto].
  split; [done|]. tauto.
Qed.

Lemma stored_app l1 l2 g :
  stored (l1 ++ l2) g = match stored l1 g with Some x => Some x | None => stored l2 g end.
Proof. induction l1 as [|e l1 IH]; simpl; [done|]. by destruct (decide (e.1 = g)). Qed.

Lemma find_stored v g :
  CV.ascending (cv_elements v) ->
  cv_elements v !! CV.find v g = (fun x => (g, x)) <$> stored (cv_elements v) g.
Proof.
  destruct v as [n l]. unfold CV.find, CV.lowerBound, CV.end_. simpl.
  induction l as [|e l IH]; simpl; [done|]. intros [Hhd Htl].
  case_bool_decide as Hlt; simpl.
  - rewrite decide_False by lia. rewrite <- (IH Htl).
    destruct (l !! CV.lower_pos l g) as [e'|]; [|done].
    by case_bool_decide.
  - case_bool_decide as Heq.
    + rewrite decide_True by done. simpl. destruct e; simpl in *; by subst.
    + rewrite decide_False by done.
      rewrite lookup_ge_None_2 by (simpl; lia).
      assert (stored l g = None) as ->; [|done].
      apply stored_None. eapply Forall_impl; [exact Hhd|]. simpl. intros; lia.
Qed.

Lemma find_length v g : (CV.find v g <= CV.end_ v)%nat.
Proof.
  unfold CV.find, CV.end_.
  destruct (cv_elements v !! CV.lowerBound v g) eqn:He; [|done].
  case_bool_decide; [|done]. apply lookup_lt_Some in He. lia.
Qed.

Lemma find_end_stored v g :
  CV.ascending (cv_elements v) ->
  CV.find v g = CV.end_ v <-> stored (cv_elements v) g = None.
Proof.
  intros Hl. pose proof (find_stored v g Hl) as Hf.
  pose proof (find_length v g) as Hlen. unfold CV.end_ in *. split.
  - intros Heq. rewrite Heq, lookup_ge_None_2 in Hf by done.
    by destruct (stored (cv_elements v) g).
  - intros Hnone. rewrite Hnone in Hf. simpl in Hf.
    apply lookup_ge_None_1 in Hf. lia.
Qed.

Lemma at_const_stored v g :
  CV.ascending (cv_elements v) ->
  CV.at_const v g = default zero (stored (cv_elements v) g).
Proof.
  intros Hl. unfold CV.at_const. rewrite (find_stored v g Hl).
  by destruct (stored (cv_elements v) g).
Qed.

Lemma stored_filter (Q : Z * ET -> Prop) `{!forall e, Decision (Q e)}
  (P : Z -> Prop) `{!forall g, Decision (P g)} l g :
  (forall e, Q e <-> P e.1) ->
  stored (filter Q l) g = if decide (P g) then stored l g else None.
Proof.
  intros HQ. induction l as [|e l IH]; simpl; [by destruct (decide (P g))|].
  destruct (decide (Q e)) as [Hq|Hq].
  - rewrite filter_cons_True by done. simpl. rewrite IH.
    destruct (decide (e.1 = g)) as [<-|]; [|done].
    apply HQ in Hq. by destruct (decide (P e.1)).
  - rewrite filter_cons_False by done. rewrite IH.
    destruct (decide (e.1 = g)) as [<-|]; [|done].
    rewrite HQ in Hq. by destruct (decide (P e.1)).
Qed.

Lemma stored_shift l (a i : Z) :
  stored ((fun e => (e.1 - a, e.2)) <$> l) i = stored l (i + a).
Proof.
  induction l as [|e l IH]; [done|]. rewrite fmap_cons. cbn [stored fst snd]. rewrite IH.
  destruct (decide (e.1 - a = i)), (decide (e.1 = i + a)); done || lia.
Qed.

(** The insertion of an element whose index is not stored yet. *)
Lemma insert_fresh v g x :
  CV.ascending (cv_elements v) -> stored (cv_elements v) g = None ->
  exists v',
    CV.insert v g x = Some (CV.lowerBound v g, v') /\
    cv_size v' = cv_size v /\
    CV.ascending (cv_elements v') /\
    (forall e, e ∈ cv_elements v' -> e = (g, x) \/ e ∈ cv_elements v) /\
    forall g', stored (cv_elements v') g'
               = if decide (g' = g) then Some x else stored (cv_elements v) g'.
Proof.
  intros Hl Hnone. unfold CV.insert.
  rewrite bool_decide_eq_true_2 by (by apply find_end_stored).
  eexists. split; [done|]. split; [done|]. simpl.
  unfold CV.lowerBound.
  set (l := cv_elements v) in *. set (p := CV.lower_pos l g).
  assert (Hlow : Forall (fun e => e.1 < g) (take p l)) by apply lower_pos_take.
  assert (Hup : Forall (fun e => g < e.1) (drop p l)).
  { pose proof (lower_pos_drop l g Hl) as Hge. fold p in Hge.
    apply stored_None in Hnone. rewrite <- (take_drop p l) in Hnone.
    apply Forall_app in Hnone as [_ Hne].
    apply Forall_forall. intros e He.
    rewrite Forall_forall in Hge, Hne.
    specialize (Hge e He). specialize (Hne e He). simpl in *. lia. }
  split; [|split].
  - pose proof Hl as Hl'.
    rewrite <- (take_drop p l) in Hl'. apply ascending_app in Hl' as (Hl1 & Hl2 & Hl12).
    apply ascending_app. split; [done|]. split; [by split|].
    apply Forall_forall. intros e1 He1. constructor; simpl.
    + rewrite Forall_forall in Hlow. by apply Hlow.
    + rewrite Forall_forall in Hl12. by apply Hl12.
  - intros e. rewrite elem_of_app, elem_of_cons.
    intros [He|[->|He]]; [right|by left|right].
    + by eapply subseteq_take.
    + by eapply subseteq_drop.
  - intros g'. rewrite stored_app. simpl.
    assert (Hsplit : stored l g' = match stored (take p l) g' with
                                   | Some y => Some y
                                   | None => stored (drop p l) g'
                                   end).
    { by rewrite <- stored_app, take_drop. }
    rewrite Hsplit.
    destruct (decide (g' = g)) as [->|Hne].
    + rewrite decide_True by done.
      assert (stored (take p l) g = None) as ->; [|done].
      apply stored_None. eapply Forall_impl; [exact Hlow|]. simpl. intros; lia.
    + rewrite decide_False by done. done.
Qed.

End StoredFacts.

Section AssignFacts.
Context {ET : Type} `{!Numeric ET}.
Variable cfg : Assertions.
Implicit Types (sv : SparseSubvector) (v : CompressedVector ET) (m : memory ET).

Lemma for_each_fmap {A B} (h : A -> B) (l : list A) (body : B -> M ET unit) :
  for_each (h <$> l) body = for_each l (fun a => body (h a)).
Proof.
  induction l as [|a l IH]; [done|]. rewrite fmap_cons. cbn [for_each]. by rewrite IH.
Qed.

Lemma for_each_ext {A} (l : list A) (f g : A -> M ET unit) :
  (forall a, a ∈ l -> f a = g a) -> for_each l f = for_each l g.
Proof.
  induction l as [|a l IH]; simpl; [done|]. intros Hfg.
  rewrite (Hfg a) by (apply elem_of_cons; by left).
  rewrite IH; [done|]. intros a' Ha'. apply Hfg, elem_of_cons. by right.
Qed.

Lemma wf_insert_fresh v v' g :
  CV.wf v -> 0 <= g < cv_size v -> cv_size v' = cv_size v ->
  CV.ascending (cv_elements v') ->
  (forall e, e ∈ cv_elements v' -> e.1 = g \/ e ∈ cv_elements v) ->
  CV.wf v'.
Proof.
  intros (Hsz & Hidx & _) Hg Hsize Hasc Hsub. split; [lia|]. split; [|done].
  apply Forall_forall. intros e He. rewrite Hsize.
  destruct (Hsub e He) as [->|He']; [done|].
  rewrite Forall_forall in Hidx. by apply Hidx.
Qed.

Lemma append_run sv m v i x check :
  m !! vector_ sv = Some v -> CV.wf v -> view_invariant sv v ->
  0 <= i < size_ sv -> stored (cv_elements v) (start_ sv + i) = None ->
  exists v',
    SV.append sv i x check m = (Ok tt, <[vector_ sv := v']> m) /\
    CV.wf v' /\ cv_size v' = cv_size v /\
    forall g, stored (cv_elements v') g
              = if decide (g = start_ sv + i /\ negb check || negb (isDefault x) = true)
                then Some x else stored (cv_elements v) g.
Proof.
  intros Hm Hwf Hinv Hi Hnone. pose proof Hinv as (H0 & Hn & Hle).
  unfold SV.append. destruct (negb check || negb (isDefault x)) eqn:Heff.
  - rewrite (run_load m _ v) by done. rewrite (view_index_no_wrap sv v i) by done.
    destruct (insert_fresh v (start_ sv + i) x) as (v' & Hins & Hsize & Hasc & Hsub & Hst);
      [apply Hwf|done|].
    rewrite Hins. exists v'. split; [done|]. split; [|split; [done|]].
    + apply (wf_insert_fresh v v' (start_ sv + i)); try done; [lia|].
      intros e He. destruct (Hsub e He) as [->|?]; [by left|by right].
    + intros g. rewrite Hst. destruct (decide (g = start_ sv + i)).
      * by rewrite decide_True.
      * rewrite decide_False; [done|]. by intros [? _].
  - exists v. split; [|split; [done|split; [done|]]].
    + unfold ret. f_equal. symmetry. by apply insert_id.
    + intros g. rewrite decide_False; [done|]. by intros [_ ?].
Qed.

Lemma stored_effective_fresh (acts : list (Z * ET * bool)) (i : Z) :
  i ∉ acts.*1.*1 -> stored (effective acts) i = None.
Proof.
  intros Hi. apply stored_None, Forall_forall. intros e He Heq. apply Hi.
  apply list_elem_of_omap in He as (act & Hact & Hsome).
  destruct (negb act.2 || negb (isDefault act.1.2)); [|done].
  injection Hsome as <-. subst i.
  apply list_elem_of_fmap. exists act.1. split; [done|].
  apply list_elem_of_fmap. by exists act.
Qed.

(** A sequence of appends at distinct local indices whose elements are not
    stored yet. *)
Lemma appends_run sv (acts : list (Z * ET * bool)) : forall m v,
  m !! vector_ sv = Some v -> CV.wf v -> view_invariant sv v ->
  NoDup acts.*1.*1 ->
  Forall (fun act => 0 <= act.1.1 < size_ sv /\
                     stored (cv_elements v) (start_ sv + act.1.1) = None) acts ->
  exists v',
    for_each acts (fun act => SV.append sv act.1.1 act.1.2 act.2) m
    = (Ok tt, <[vector_ sv := v']> m) /\
    CV.wf v' /\ cv_size v' = cv_size v /\
    forall g, stored (cv_elements v') g
              = match stored (effective acts) (g - start_ sv) with
                | Some x => Some x
                | None => stored (cv_elements v) g
                end.
Proof.
  induction acts as [|[[i x] check] acts IH]; intros m v Hm Hwf Hinv Hnd Hall.
  - exists v. split; [|by split].
    simpl. unfold ret. f_equal. symmetry. by apply insert_id.
  - rewrite !fmap_cons in Hnd. simpl in Hnd. apply NoDup_cons in Hnd as [Hi Hnd].
    apply Forall_cons in Hall as [[Hrange Hnone] Hall]. simpl in Hrange, Hnone.
    destruct (append_run sv m v i x check Hm Hwf Hinv Hrange Hnone)
      as (v1 & Hrun1 & Hwf1 & Hsize1 & Hst1).
    destruct (IH (<[vector_ sv := v1]> m) v1) as (v' & Hrun & Hwf' & Hsize' & Hst').
    + by rewrite lookup_insert_eq.
    + done.
    + unfold view_invariant in *. by rewrite Hsize1.
    + done.
    + apply Forall_forall. intros act Hact.
      rewrite Forall_forall in Hall. destruct (Hall act Hact) as [Hr Hn].
      split; [done|]. rewrite Hst1. rewrite decide_False; [done|].
      intros [Heq _]. apply Hi.
      assert (act.1.1 = i) as <- by lia.
      apply list_elem_of_fmap. exists act.1. split; [done|].
      apply list_elem_of_fmap. by exists act.
    + exists v'. split; [|split; [done|split; [congruence|]]].
      * simpl. unfold bind. rewrite Hrun1. rewrite Hrun.
        by rewrite insert_insert_eq.
      * intros g. rewrite Hst', Hst1. unfold effective. simpl.
        fold (effective acts).
        destruct (negb check || negb (isDefault x)) eqn:Heff; simpl.
        -- destruct (decide (i = g - start_ sv)) as [->|Hne].
           ++ rewrite stored_effective_fresh by done.
              rewrite decide_True; [done|]. split; [lia|done].
           ++ rewrite decide_False; [done|]. intros [? _]. lia.
        -- rewrite decide_False; [done|]. by intros [_ ?].
Qed.

Lemma effective_unchecked (l : list (Z * ET)) :
  effective ((fun e => (e, false)) <$> l) = l.
Proof.
  induction l as [|e l IH]; [done|]. unfold effective in *.
  csimpl. by rewrite IH.
Qed.

Lemma stored_effective_checked (value : Z -> ET) (l : list Z) (j : Z) :
  stored (effective ((fun i => (i, value i, true)) <$> l)) j
  = if decide (j ∈ l)
    then if isDefault (value j) then None else Some (value j)
    else None.
Proof.
  induction l as [|i l IH].
  - unfold effective. csimpl. by destruct (decide (j ∈ [])) as [?%elem_of_nil|].
  - unfold effective in *. csimpl.
    destruct (isDefault (value i)) eqn:Hdef; csimpl.
    + rewrite IH. destruct (decide (j = i)) as [->|Hne].
      * rewrite (decide_True (P := i ∈ i :: l)) by (apply elem_of_cons; by left).
        rewrite Hdef. by destruct (decide (i ∈ l)).
      * destruct (decide (j ∈ l)) as [Hin|Hin].
        -- rewrite decide_True; [done|]. apply elem_of_cons. by right.
        -- rewrite decide_False; [done|]. rewrite elem_of_cons. tauto.
    + rewrite IH. destruct (decide (i = j)) as [->|Hne].
      * rewrite (decide_True (P := j ∈ j :: l)) by (apply elem_of_cons; by left).
        by rewrite Hdef.
      * destruct (decide (j ∈ l)) as [Hin|Hin].
        -- rewrite decide_True; [done|]. apply elem_of_cons. by right.
        -- rewrite decide_False; [done|]. rewrite elem_of_cons. intros [?|?]; [congruence|done].
Qed.

(** [assign] into a view whose range holds no element stores the values of
    the operand in the range and changes nothing outside. *)
Lemma assign_run sv (x : Operand ET) m v :
  m !! vector_ sv = Some v -> CV.wf v -> view_invariant sv v ->
  operand_wf x (size_ sv) ->
  (forall i, 0 <= i < size_ sv -> stored (cv_elements v) (start_ sv + i) = None) ->
  exists v',
    SV.assign cfg sv x m = (Ok tt, <[vector_ sv := v']> m) /\
    CV.wf v' /\ cv_size v' = cv_size v /\
    (forall i, 0 <= i < size_ sv -> CV.at_const v' (start_ sv + i) = SV.operand_at x i) /\
    (forall g, ~ in_range sv g -> stored (cv_elements v') g = stored (cv_elements v) g).
Proof.
  intros Hm Hwf Hinv Hx Hempty. destruct x as [xs|u]; simpl in Hx.
  - (* dense *)
    set (value := fun i : Z => default zero (xs !! Z.to_nat i)).
    set (acts := (fun i => (i, value i, true)) <$> seqZ 0 (size_ sv)).
    destruct (appends_run sv acts m v Hm Hwf Hinv) as (v' & Hrun & Hwf' & Hsize & Hst).
    { unfold acts. rewrite <- !list_fmap_compose.
      rewrite (list_fmap_ext _ id (seqZ 0 (size_ sv))) by done.
      rewrite list_fmap_id. apply NoDup_seqZ. }
    { apply Forall_forall. intros act Hact. unfold acts in Hact.
      apply list_elem_of_fmap in Hact as (i & -> & Hi). simpl.
      apply elem_of_seqZ in Hi. split; [lia|]. apply Hempty. lia. }
    exists v'. split; [|split; [done|split; [done|split]]].
    + unfold SV.assign, SV.assign_dense, SV.size.
      rewrite (bool_decide_eq_true_2 (size_ sv = _)) by done.
      rewrite andb_false_r. unfold bind at 1. unfold ret at 1.
      rewrite <- Hrun. unfold acts. rewrite for_each_fmap.
      match goal with
      | |- for_each ?l ?f ?m = for_each ?l ?g ?m =>
          rewrite (for_each_ext l f g); [done|]
      end.
      intros i Hi. simpl. apply elem_of_seqZ in Hi.
      unfold value. destruct (xs !! Z.to_nat i) eqn:Hxi; [done|].
      apply lookup_ge_None_1 in Hxi. lia.
    + intros i Hi. rewrite at_const_stored by apply Hwf'. rewrite Hst.
      replace (start_ sv + i - start_ sv) with i by lia.
      unfold acts. rewrite stored_effective_checked.
      rewrite decide_True by (apply elem_of_seqZ; lia).
      rewrite Hempty by done. simpl. fold (value i).
      destruct (isDefault (value i)) eqn:Hdef; [|done].
      simpl. symmetry. by apply isDefault_spec.
    + intros g Hg. rewrite Hst. unfold acts. rewrite stored_effective_checked.
      rewrite decide_False; [done|]. rewrite elem_of_seqZ. unfold in_range in Hg. lia.
  - (* sparse *)
    destruct Hx as [Hwfu Hsizeu]. pose proof Hwfu as (Hszu & Hidxu & Hascu).
    set (acts := (fun e : Z * ET => (e, false)) <$> cv_elements u).
    assert (Hfresh : forall j, ~ 0 <= j < size_ sv -> stored (cv_elements u) j = None).
    { intros j Hj. apply stored_None. eapply Forall_impl; [exact Hidxu|].
      simpl. intros e He. lia. }
    destruct (appends_run sv acts m v Hm Hwf Hinv) as (v' & Hrun & Hwf' & Hsize & Hst).
    { unfold acts. rewrite <- !list_fmap_compose.
      rewrite (list_fmap_ext _ fst (cv_elements u)) by done.
      clear -Hascu. induction (cv_elements u) as [|e l IH]; [constructor|].
      destruct Hascu as [Hhd Htl]. rewrite fmap_cons. apply NoDup_cons. split; [|by apply IH].
      intros Hin. apply list_elem_of_fmap in Hin as (e' & Heq & He').
      rewrite Forall_forall in Hhd. specialize (Hhd e' He'). lia. }
    { apply Forall_forall. intros act Hact. unfold acts in Hact.
      apply list_elem_of_fmap in Hact as (e & -> & He). simpl.
      rewrite Forall_forall in Hidxu. specialize (Hidxu e He).
      split; [lia|]. apply Hempty. lia. }
    exists v'. split; [|split; [done|split; [done|split]]].
    + unfold SV.assign, SV.assign_sparse, SV.size, CV.size.
      rewrite (bool_decide_eq_true_2 (size_ sv = _)) by done.
      rewrite andb_false_r. unfold bind at 1. unfold ret at 1.
      rewrite <- Hrun. unfold acts. by rewrite for_each_fmap.
    + intros i Hi. unfold SV.operand_at.
      rewrite !at_const_stored by (apply Hwf' || done). rewrite Hst.
      replace (start_ sv + i - start_ sv) with i by lia.
      unfold acts. rewrite effective_unchecked. rewrite Hempty by done.
      by destruct (stored (cv_elements u) i).
    + intros g Hg. rewrite Hst. unfold acts. rewrite effective_unchecked.
      rewrite Hfresh; [done|]. unfold in_range in Hg. lia.
Qed.

End AssignFacts.

Section RoundTripFacts.
Context {ET : Type} `{!Numeric ET}.
Variable cfg : Assertions.
Implicit Types (sv : SparseSubvector) (v : CompressedVector ET) (m : memory ET).

Lemma at_const_run sv m v i :
  m !! vector_ sv = Some v -> CV.wf v -> view_invariant sv v -> 0 <= i < size_ sv ->
  SV.at_const cfg sv i m = (Ok (CV.at_const v (start_ sv + i)), m).
Proof.
  intros Hm Hwf Hinv Hi. unfold SV.at_const, SV.size.
  rewrite (bool_decide_eq_true_2 (i < size_ sv)) by lia. rewrite andb_false_r.
  unfold bind at 1. unfold ret at 1. rewrite (run_load m _ v) by done.
  by rewrite (view_index_no_wrap sv v i).
Qed.

(** The evaluation of a right-hand side, in every memory that agrees with
    [m] on the vector the right-hand side reads. *)
Lemma evaluate_run m (rhs : Vector ET) n :
  vector_wf m rhs n ->
  exists x,
    operand_wf x n /\
    forall m2,
      (forall a, vector_address rhs = Some a -> m2 !! a = m !! a) ->
      SV.evaluate cfg rhs m2 = (Ok x, m2) /\
      SV.vector_size rhs m2 = (Ok n, m2) /\
      forall i, 0 <= i < n -> SV.vector_at cfg rhs i m2 = (Ok (SV.operand_at x i), m2).
Proof.
  destruct rhs as [xs|a|w]; simpl.
  - intros Hlen. exists (DenseOperand xs). split; [done|]. intros m2 _.
    split; [done|]. split; [by rewrite Hlen|]. intros i Hi. unfold SV.operand_at.
    destruct (xs !! Z.to_nat i) eqn:Hxi; [done|].
    apply lookup_ge_None_1 in Hxi. lia.
  - intros (u & Hu & Hwfu & Hsize). exists (SparseOperand u). split; [done|].
    intros m2 Hagree. rewrite <- (Hagree a eq_refl) in Hu.
    rewrite !(run_load m2 _ u) by done. unfold CV.size. rewrite Hsize.
    split; [done|]. split; [done|]. intros i Hi. by rewrite (run_load m2 _ u).
  - intros (u & Hu & Hwfu & Hinvw & Hsize).
    pose proof Hinvw as (H0 & Hn & Hle). pose proof Hwfu as (Hsz & Hidx & Hasc).
    set (es := (fun e => (e.1 - start_ w, e.2)) <$>
                 filter (fun e => in_range w e.1) (cv_elements u)).
    exists (SparseOperand {| cv_size := size_ w; cv_elements := es |}).
    assert (Hasces : CV.ascending es) by (by apply ascending_shift, ascending_filter).
    split.
    { simpl. split; [|done]. split; [simpl; lia|]. split; [|done]. simpl.
      apply Forall_fmap, Forall_forall. intros e He.
      apply list_elem_of_filter in He as [Hr _]. unfold in_range in Hr. simpl. lia. }
    intros m2 Hagree. rewrite <- (Hagree _ eq_refl) in Hu.
    unfold bind. rewrite (elements_run cfg w m2 u) by done. fold es.
    unfold SV.size. rewrite Hsize. split; [done|]. split; [done|].
    intros i Hi. rewrite (at_const_run w m2 u i) by (done || lia).
    do 2 f_equal. unfold SV.operand_at. rewrite !at_const_stored by done.
    cbn [cv_elements]. unfold es. rewrite stored_shift.
    rewrite (stored_filter _ (in_range w)) by done.
    rewrite decide_True by (unfold in_range; lia).
    by replace (i + start_ w) with (start_ w + i) by lia.
Qed.

(** The two orders of [operator=]: the right-hand side evaluated before
    the reset, and after it when it does not read the vector of the view. *)
Lemma reset_assign_run sv (x : Operand ET) m v :
  m !! vector_ sv = Some v -> CV.wf v -> view_invariant sv v ->
  operand_wf x (size_ sv) ->
  exists v',
    (SV.reset sv;; SV.assign cfg sv x) m = (Ok tt, <[vector_ sv := v']> m) /\
    CV.wf v' /\ cv_size v' = cv_size v /\
    (forall i, 0 <= i < size_ sv -> CV.at_const v' (start_ sv + i) = SV.operand_at x i) /\
    (forall g, ~ in_range sv g -> stored (cv_elements v') g = stored (cv_elements v) g).
Proof.
  intros Hm Hwf Hinv Hx.
  set (v0 := {| cv_size := cv_size v;
                cv_elements := filter (fun e => ~ in_range sv e.1) (cv_elements v) |}).
  destruct (assign_run cfg sv x (<[vector_ sv := v0]> m) v0)
    as (v' & Hrun & Hwf' & Hsize & Hval & Hout).
  - by rewrite lookup_insert_eq.
  - by apply wf_filter.
  - done.
  - done.
  - intros i Hi. simpl. rewrite (stored_filter _ (fun g => ~ in_range sv g)) by done.
    rewrite decide_False; [done|]. unfold in_range. lia.
  - exists v'. split; [|split; [done|split; [done|split; [done|]]]].
    + unfold bind. rewrite (reset_run sv m v) by done. fold v0.
      rewrite Hrun. by rewrite insert_insert_eq.
    + intros g Hg. rewrite Hout by done. simpl.
      rewrite (stored_filter _ (fun g => ~ in_range sv g)) by done. by rewrite decide_True.
Qed.

End RoundTripFacts.

Section FrameFacts.
Context {ET : Type} `{!Numeric ET}.
Variable cfg : Assertions.
Implicit Types (sv : SparseSubvector) (v : CompressedVector ET) (m : memory ET).

Lemma framed_ret {A} a (x : A) : framed (ET := ET) a (ret x).
Proof. by intros m a' u _. Qed.

Lemma framed_throw {A} a what : framed (ET := ET) (A := A) a (throw_invalid_argument what).
Proof. by intros m a' u _. Qed.

Lemma framed_assertion_failed {A} a what :
  framed (ET := ET) (A := A) a (assertion_failed what).
Proof. by intros m a' u _. Qed.

Lemma framed_undefined {A} a : framed (ET := ET) (A := A) a undefined.
Proof. by intros m a' u _. Qed.

Lemma framed_load a : framed (ET := ET) a (load a).
Proof.
  intros m a' u Hne. unfold load. rewrite lookup_insert_ne by done.
  by destruct (m !! a).
Qed.

Lemma framed_store a v : framed a (store a v).
Proof. intros m a' u Hne. unfold store. simpl. f_equal. by apply insert_insert_ne. Qed.

Lemma framed_bind {A B} a (c : M ET A) (k : A -> M ET B) :
  framed a c -> (forall x, framed a (k x)) -> framed a (bind c k).
Proof.
  intros Hc Hk m a' u Hne. unfold bind. rewrite (Hc m a' u Hne).
  destruct (c m) as [[x| | |] m1]; simpl; try done. by rewrite (Hk x m1 a' u Hne).
Qed.

Lemma framed_for_each {A} a (l : list A) (body : A -> M ET unit) :
  (forall x, framed a (body x)) -> framed a (for_each l body).
Proof.
  intros Hbody. induction l as [|x l IH]; simpl; [apply framed_ret|].
  apply framed_bind; [apply Hbody|]. by intros _.
Qed.

Lemma framed_reset sv : framed (ET := ET) (vector_ sv) (SV.reset sv).
Proof.
  apply framed_bind; [apply framed_load|]. intros v. apply framed_store.
Qed.

Lemma framed_append sv i x check : framed (vector_ sv) (SV.append sv i x check).
Proof.
  unfold SV.append. destruct (negb check || negb (isDefault x)); [|apply framed_ret].
  apply framed_bind; [apply framed_load|]. intros v.
  destruct (CV.insert _ _ _) as [[? ?]|]; [apply framed_store|apply framed_throw].
Qed.

Lemma framed_assign sv (x : Operand ET) : framed (vector_ sv) (SV.assign cfg sv x).
Proof.
  destruct x as [xs|u]; simpl.
  - apply framed_bind.
    + destruct (_ && _); [apply framed_assertion_failed|apply framed_ret].
    + intros _. apply framed_for_each. intros i.
      destruct (xs !! Z.to_nat i); [apply framed_append|apply framed_undefined].
  - apply framed_bind.
    + destruct (_ && _); [apply framed_assertion_failed|apply framed_ret].
    + intros _. apply framed_for_each. intros e. apply framed_append.
Qed.

(** The assignment from a copy of the right-hand side that was made
    beforehand, at a fresh address, runs as the assignment that evaluates
    the right-hand side into a temporary and assigns the temporary. *)
Lemma assign_vector_from_copy sv m v (tmp : CompressedVector ET) a' :
  m !! vector_ sv = Some v -> m !! a' = None -> cv_size tmp = size_ sv ->
  SV.assign_vector cfg sv (SparseVector a') (<[a' := tmp]> m)
  = (((SV.reset sv;; SV.assign cfg sv (SparseOperand tmp)) m).1,
     <[a' := tmp]> ((SV.reset sv;; SV.assign cfg sv (SparseOperand tmp)) m).2).
Proof.
  intros Hm Ha' Hsize.
  assert (Hne : a' <> vector_ sv) by (intros ->; congruence).
  unfold SV.assign_vector, SV.vector_size.
  unfold bind at 1. rewrite (run_load _ _ tmp) by (by rewrite lookup_insert_eq).
  unfold ret at 1. unfold SV.size, CV.size.
  rewrite (bool_decide_eq_true_2 (size_ sv = cv_size tmp)) by done.
  cbn [negb SV.vector_canAlias].
  rewrite (bool_decide_eq_false_2 (a' = vector_ sv)) by done.
  unfold bind at 1 3 4. rewrite (framed_reset sv m a' tmp Hne).
  destruct (SV.reset sv m) as [[[]| | |] m1]; cbn [fst snd]; try done.
  unfold SV.evaluate. unfold bind at 1.
  rewrite (run_load _ _ tmp) by (by rewrite lookup_insert_eq).
  unfold ret. by rewrite (framed_assign sv (SparseOperand tmp) m1 a' tmp Hne).
Qed.

End FrameFacts.

Section AssignmentFacts.
Context {ET : Type} `{!Numeric ET}.
Variable cfg : Assertions.
Implicit Types (sv : SparseSubvector) (v : CompressedVector ET) (m : memory ET).

Lemma canAlias_false_address (rhs : Vector ET) a a2 :
  SV.vector_canAlias rhs a = false -> vector_address rhs = Some a2 -> a2 <> a.
Proof.
  destruct rhs as [xs|a3|w]; simpl; [done| |].
  - intros Hb [= ->]. by apply bool_decide_eq_false_1 in Hb.
  - unfold SV.canAlias. intros Hb [= <-]. by apply bool_decide_eq_false_1 in Hb.
Qed.

Lemma assign_vector_run sv m v (rhs : Vector ET) :
  m !! vector_ sv = Some v -> CV.wf v -> view_invariant sv v ->
  vector_wf m rhs (size_ sv) ->
  exists v',
    SV.assign_vector cfg sv rhs m = (Ok tt, <[vector_ sv := v']> m) /\
    CV.wf v' /\ cv_size v' = cv_size v /\
    (forall g, ~ in_range sv g -> stored (cv_elements v') g = stored (cv_elements v) g) /\
    forall i, 0 <= i < size_ sv ->
      exists y,
        SV.vector_at cfg rhs i m = (Ok y, m) /\
        SV.at_const cfg sv i (<[vector_ sv := v']> m) = (Ok y, <[vector_ sv := v']> m).
Proof.
  intros Hm Hwf Hinv Hrhs.
  destruct (evaluate_run cfg m rhs (size_ sv) Hrhs) as (x & Hx & Hall).
  destruct (Hall m) as (Heval & Hsize & Hat); [done|].
  destruct (reset_assign_run cfg sv x m v Hm Hwf Hinv Hx)
    as (v' & Hrun & Hwf' & Hsz & Hval & Hout).
  exists v'. split; [|split; [done|split; [done|split; [done|]]]].
  - unfold SV.assign_vector. unfold bind at 1. rewrite Hsize. unfold SV.size.
    rewrite bool_decide_eq_true_2 by done. cbn [negb].
    destruct (SV.vector_canAlias rhs (vector_ sv)) eqn:Halias.
    + unfold bind at 1. rewrite Heval. exact Hrun.
    + rewrite <- Hrun. unfold bind at 1 3. rewrite (reset_run sv m v) by done.
      unfold bind at 1.
      destruct (Hall (<[vector_ sv :=
                  {| cv_size := cv_size v;
                     cv_elements := filter (fun e => ~ in_range sv e.1) (cv_elements v) |}]> m))
        as (Heval1 & _).
      { intros a2 Ha2. apply lookup_insert_ne. intros Heq.
        by apply (canAlias_false_address rhs (vector_ sv) a2 Halias Ha2). }
      by rewrite Heval1.
  - intros i Hi. exists (SV.operand_at x i). split; [by apply Hat|].
    rewrite (at_const_run cfg sv _ v' i); [by rewrite Hval| |done| |done].
    + by rewrite lookup_insert_eq.
    + unfold view_invariant in *. by rewrite Hsz.
Qed.

Lemma copy_assign_other sv (w : SparseSubvector) :
  ~ (vector_ sv = vector_ w /\ start_ sv = start_ w) ->
  SV.copy_assign cfg sv w = SV.assign_vector (ET := ET) cfg sv (Subvector w).
Proof.
  intros Hother. unfold SV.copy_assign, SV.assign_vector.
  destruct (decide (vector_ sv = vector_ w)) as [Hv|Hv].
  - rewrite (bool_decide_eq_true_2 _ Hv).
    rewrite (bool_decide_eq_false_2 (start_ sv = start_ w)) by tauto. done.
  - by rewrite (bool_decide_eq_false_2 _ Hv).
Qed.

Lemma copy_assign_run sv m v (w : SparseSubvector) :
  m !! vector_ sv = Some v -> CV.wf v -> view_invariant sv v ->
  vector_wf m (Subvector w) (size_ sv) ->
  exists v',
    SV.copy_assign cfg sv w m = (Ok tt, <[vector_ sv := v']> m) /\
    CV.wf v' /\ cv_size v' = cv_size v /\
    (forall g, ~ in_range sv g -> stored (cv_elements v') g = stored (cv_elements v) g) /\
    forall i, 0 <= i < size_ sv ->
      exists y,
        SV.vector_at cfg (Subvector w) i m = (Ok y, m) /\
        SV.at_const cfg sv i (<[vector_ sv := v']> m) = (Ok y, <[vector_ sv := v']> m).
Proof.
  intros Hm Hwf Hinv Hrhs.
  destruct (decide (vector_ sv = vector_ w /\ start_ sv = start_ w)) as [[Hv Hs]|Hother].
  - exists v. assert (w = sv) as ->.
    { destruct Hrhs as (u & _ & _ & _ & Hn). destruct w, sv; simpl in *; by subst. }
    rewrite (insert_id m _ v) by done.
    split; [|split; [done|split; [done|split; [done|]]]].
    + unfold SV.copy_assign. by rewrite !bool_decide_eq_true_2.
    + intros i Hi. exists (CV.at_const v (start_ sv + i)).
      split; by apply at_const_run.
  - rewrite copy_assign_other by done. by apply assign_vector_run.
Qed.

End AssignmentFacts.

(** * Properties of the subvectors of expressions *)

Section ExpressionFacts.
Context {ET Other : Type} `{!Numeric ET} `{!Scalar ET Other}.
Implicit Types (e : Expr ET Other).

Lemma expression_size_bound e :
  Expression.wf e -> 0 <= Expression.size e < size_t_modulus.
Proof.
  induction e; simpl; try tauto.
  - intros (Hsz & _). exact Hsz.
  - intros (Hop & H0 & Hn & Hle). specialize (IHe Hop). lia.
Qed.

(** The pushed-down subvector of a well-formed expression exists, and its
    value at a local index is the value of the expression at the global
    index. *)
Lemma sub_run e (start n : Z) :
  Expression.wf e -> 0 <= start -> 0 < n -> start + n <= Expression.size e ->
  exists e',
    Expression.sub e start n = Ok e' /\
    Expression.wf e' /\ Expression.size e' = n /\
    forall i, 0 <= i < n -> Expression.at_ e' i = Expression.at_ e (start + i).
Proof.
  intros Hwf H0 Hn. induction e as
    [v|op IH s' n'|l IHl r IHr|l IHl r IHr|l IHl r IHr|l IHl c|l IHl c|op IH|op IH|op IH];
    intros Hle.
  1,2: pose proof (expression_size_bound _ Hwf) as Hb;
    eexists; split;
    [ cbn [Expression.sub]; rewrite size_t_add_small by lia;
      rewrite (bool_decide_eq_false_2 (n = 0)) by lia;
      rewrite bool_decide_eq_false_2 by lia; reflexivity
    | split; [exact (conj Hwf (conj H0 (conj Hn Hle)))|]; split; [done|];
      intros i Hi; cbn [Expression.at_]; by rewrite (size_t_add_small start i) by lia ].
  1,2,3: destruct Hwf as (Hl & Hr & Hsize); cbn [Expression.size] in Hle;
    destruct (IHl Hl Hle) as (l' & Hsl & Hwl & Hnl & Hatl);
    destruct (IHr Hr) as (r' & Hsr & Hwr & Hnr & Hatr); [lia|];
    eexists; split;
    [ cbn [Expression.sub]; rewrite Hsl, Hsr; unfold Expression.binary;
      rewrite bool_decide_eq_true_2 by congruence; reflexivity
    | split; [cbn [Expression.wf]; split; [done|split; [done|congruence]]|];
      split; [done|];
      intros i Hi; cbn [Expression.at_]; by rewrite Hatl, Hatr ].
  all: cbn [Expression.wf Expression.size] in *;
    destruct (IHl Hwf Hle) as (l' & Hsl & Hwl & Hnl & Hatl) ||
    destruct (IH Hwf Hle) as (l' & Hsl & Hwl & Hnl & Hatl);
    eexists; split;
    [ cbn [Expression.sub]; rewrite Hsl; reflexivity
    | split; [done|]; split; [done|];
      intros i Hi; cbn [Expression.at_]; by rewrite Hatl ].
Qed.

Lemma stored_tabulated (value : Z -> ET) (P : Z -> Prop) `{!forall j, Decision (P j)}
  (l : list Z) (i : Z) :
  stored ((fun j => (j, value j)) <$> filter P l) i
  = if decide (i ∈ l /\ P i) then Some (value i) else None.
Proof.
  induction l as [|j l IH].
  - cbn [filter list_filter fmap list_fmap stored].
    destruct (decide (i ∈ [] /\ P i)) as [[Hin _]|]; [|done]. by apply elem_of_nil in Hin.
  - destruct (decide (P j)) as [Hj|Hj].
    + rewrite filter_cons_True by done. rewrite fmap_cons. cbn [stored fst snd].
      destruct (decide (j = i)) as [->|Hne].
      * rewrite decide_True; [done|]. split; [|done]. apply elem_of_cons. by left.
      * rewrite IH.
        destruct (decide (i ∈ l /\ P i)) as [[Hil Hd]|Hno].
        -- rewrite decide_True; [done|]. split; [|done]. apply elem_of_cons. by right.
        -- rewrite decide_False; [done|]. intros [Hin Hd]. apply Hno. split; [|done].
           apply elem_of_cons in Hin as [?|?]; [congruence|done].
    + rewrite filter_cons_False by done. rewrite IH.
      destruct (decide (i ∈ l /\ P i)) as [[Hil Hd]|Hno].
      * rewrite decide_True; [done|]. split; [|done]. apply elem_of_cons. by right.
      * rewrite decide_False; [done|]. intros [Hin Hd]. apply Hno. split; [|done].
        apply elem_of_cons in Hin as [?|?]; [congruence|done].
Qed.

Lemma stored_evaluated (value : Z -> ET) (n i : Z) :
  stored ((fun j => (j, value j)) <$>
            filter (fun j => isDefault (value j) = false) (seqZ 0 n)) i
  = if decide (0 <= i < n /\ isDefault (value i) = false) then Some (value i) else None.
Proof.
  rewrite stored_tabulated.
  destruct (decide (i ∈ seqZ 0 n /\ _)) as [[Hin Hd]|Hno].
  - rewrite decide_True; [done|]. split; [|done]. apply elem_of_seqZ in Hin. lia.
  - rewrite decide_False; [done|]. intros [Hin Hd]. apply Hno. split; [|done].
    apply elem_of_seqZ. lia.
Qed.

Lemma ascending_evaluated (value : Z -> ET) (P : Z -> Prop) `{!forall j, Decision (P j)}
  (k n : Z) :
  CV.ascending ((fun j => (j, value j)) <$> filter P (seqZ k n)).
Proof.
  destruct (decide (0 <= n)) as [Hn|Hn].
  2: { unfold seqZ. replace (Z.to_nat n) with 0%nat by lia. done. }
  revert k. pattern n. apply natlike_ind; [done| |done].
  clear n Hn. intros n Hn IH k.
  rewrite seqZ_cons by lia. replace (Z.pred (Z.succ n)) with n by lia.
  assert (Hrest : Forall (fun p : Z * ET => k < p.1)
            ((fun j => (j, value j)) <$> filter P (seqZ (Z.succ k) n))).
  { apply Forall_fmap, Forall_forall. intros j Hj. simpl.
    apply list_elem_of_filter in Hj as [_ Hj]. apply elem_of_seqZ in Hj. lia. }
  destruct (decide (P k)).
  - rewrite filter_cons_True by done. rewrite fmap_cons. simpl. split; [done|apply IH].
  - rewrite filter_cons_False by done. apply IH.
Qed.

Lemma evaluate_wf e : Expression.wf e -> CV.wf (Expression.evaluate e).
Proof.
  intros Hwf. pose proof (expression_size_bound e Hwf) as Hb.
  split; [exact Hb|]. split; [|apply ascending_evaluated].
  cbn [cv_elements cv_size Expression.evaluate].
  apply Forall_fmap, Forall_forall. intros j Hj. simpl.
  apply list_elem_of_filter in Hj as [_ Hj]. apply elem_of_seqZ in Hj. lia.
Qed.

Lemma evaluate_at e i :
  0 <= i < Expression.size e ->
  CV.at_const (Expression.evaluate e) i = Expression.at_ e i.
Proof.
  intros Hi. rewrite at_const_stored by apply ascending_evaluated.
  cbn [cv_elements Expression.evaluate]. rewrite stored_evaluated.
  destruct (isDefault (Expression.at_ e i)) eqn:Hdef.
  - rewrite decide_False by (by intros [_ ?]). simpl. symmetry. by apply isDefault_spec.
  - by rewrite decide_True.
Qed.

(** The pushed-down subvector and the subvector of the evaluated
    expression have the same values. *)
Lemma sub_refines_eager_sub e (start n : Z) :
  Expression.wf e -> 0 <= start -> 0 < n -> start + n <= Expression.size e ->
  exists pushed sliced,
    Expression.sub e start n = Ok pushed /\
    Expression.eager_sub e start n = Ok sliced /\
    Expression.size pushed = n /\ Expression.size sliced = n /\
    forall i, 0 <= i < n -> Expression.at_ pushed i = Expression.at_ sliced i.
Proof.
  intros Hwf H0 Hn Hle.
  destruct (sub_run e start n Hwf H0 Hn Hle) as (pushed & Hp & _ & Hsp & Hatp).
  destruct (sub_run (Concrete (Expression.evaluate e)) start n)
    as (sliced & Hs & _ & Hss & Hats); [by apply evaluate_wf|done|done|done|].
  exists pushed, sliced. split; [done|]. split; [done|]. split; [done|]. split; [done|].
  intros i Hi. rewrite Hatp, Hats by done. cbn [Expression.at_].
  rewrite evaluate_at by lia. done.
Qed.

End ExpressionFacts.

(** * The claims *)

(** The side conditions of the examples: the class invariant of a concrete
    vector and the invariant of a concrete view, by evaluation. *)
Ltac concrete_wf :=
  unfold CV.wf, size_t_modulus; simpl;
  split; [lia|]; split; repeat constructor; simpl; lia.

Ltac concrete_view := unfold view_invariant, size_t_modulus; simpl; lia.

Lemma example_vector_wf : CV.wf example_vector.
Proof. concrete_wf. Qed.

Lemma example_view_invariant : view_invariant example_view example_vector.
Proof. concrete_view. Qed.

Lemma example_vector_b_wf : CV.wf example_vector_b.
Proof. concrete_wf. Qed.

(** C1: iterating a view from [begin()] to [end()] enumerates exactly the
    stored elements of the backing vector whose global index g satisfies
    start <= g < start+n, in strictly ascending order of the local index,
    and each enumerated element reports the local index g - start. *)
Theorem iteration_enumerates_range {ET} cfg (sv : SparseSubvector)
  (m : memory ET) (v : CompressedVector ET) :
  m !! vector_ sv = Some v -> CV.wf v -> view_invariant sv v ->
  exists out,
    SV.elements cfg sv m = (Ok out, m) /\
    out = ((fun e => (e.1 - start_ sv, e.2)) <$>
             filter (fun e => in_range sv e.1) (cv_elements v)) /\
    CV.ascending out.
Proof.
  intros Hm Hwf Hinv. eexists. split; [by apply elements_run|]. split; [done|].
  apply ascending_shift, ascending_filter. apply Hwf.
Qed.

Lemma iteration_enumerates_range_witness :
  exists out,
    SV.elements all_assertions example_view example_memory = (Ok out, example_memory) /\
    out = ((fun e => (e.1 - 3, e.2)) <$>
             filter (fun e => in_range example_view e.1) (cv_elements example_vector)) /\
    CV.ascending out.
Proof.
  apply (iteration_enumerates_range all_assertions example_view example_memory example_vector).
  - reflexivity.
  - concrete_wf.
  - concrete_view.
Defined.

Example iteration_example :
  SV.elements all_assertions example_view example_memory = (Ok [(2, -1)], example_memory).
Proof. vm_compute. reflexivity. Qed.

(** The same for the view the constructor returns, when the sum of start
    and size does not wrap around. *)
Lemma iteration_of_constructed_view {ET} cfg (m : memory ET) (v : CompressedVector ET)
  (vector : nat) (start n : Z) sv :
  m !! vector = Some v -> CV.wf v ->
  0 <= start -> 0 <= n -> start + n < size_t_modulus ->
  SV.new vector start n m = (Ok sv, m) ->
  SV.elements cfg sv m
  = (Ok ((fun e => (e.1 - start, e.2)) <$>
           filter (fun e => start <= e.1 < start + n) (cv_elements v)), m).
Proof.
  intros Hm Hwf H0 Hn Hsum Hnew.
  destruct (constructor_establishes_invariant m m v vector start n sv Hm H0 Hn Hsum Hnew)
    as (_ & -> & Hinv).
  by rewrite (elements_run cfg _ m v).
Qed.

(** C2: assigning a dense or sparse vector x of the size of the view into
    the view and reading the view elementwise yields the values of x, for
    the assignment operator of vectors and for the copy assignment of
    subvectors; when x can alias the backing vector of the view, the
    assignment evaluates x into a temporary before it resets the range,
    and its result is that of assigning a copy of x made beforehand. *)
Theorem assignment_round_trip {ET} `{!Numeric ET} cfg (sv : SparseSubvector)
  (m : memory ET) (v : CompressedVector ET) (x : Vector ET) :
  m !! vector_ sv = Some v -> CV.wf v -> view_invariant sv v ->
  vector_wf m x (size_ sv) ->
  (exists m',
     SV.assign_vector cfg sv x m = (Ok tt, m') /\
     forall i, 0 <= i < size_ sv ->
       exists y, SV.vector_at cfg x i m = (Ok y, m) /\
                 SV.at_const cfg sv i m' = (Ok y, m')) /\
  (forall w, x = Subvector w ->
     exists m',
       SV.copy_assign cfg sv w m = (Ok tt, m') /\
       forall i, 0 <= i < size_ sv ->
         exists y, SV.vector_at cfg x i m = (Ok y, m) /\
                   SV.at_const cfg sv i m' = (Ok y, m')) /\
  (SV.vector_canAlias x (vector_ sv) = true ->
   SV.assign_vector cfg sv x m
   = (let* tmp := SV.evaluate cfg x in SV.reset sv;; SV.assign cfg sv tmp) m /\
   forall copy a',
     SV.evaluate cfg x m = (Ok (SparseOperand copy), m) -> m !! a' = None ->
     SV.assign_vector cfg sv (SparseVector a') (<[a' := copy]> m)
     = ((SV.assign_vector cfg sv x m).1,
        <[a' := copy]> (SV.assign_vector cfg sv x m).2)).
Proof.
  intros Hm Hwf Hinv Hx. split; [|split].
  - destruct (assign_vector_run cfg sv m v x Hm Hwf Hinv Hx)
      as (v' & Hrun & _ & _ & _ & Hread). eauto.
  - intros w ->.
    destruct (copy_assign_run cfg sv m v w Hm Hwf Hinv Hx)
      as (v' & Hrun & _ & _ & _ & Hread). eauto.
  - intros Halias.
    destruct (evaluate_run cfg m x (size_ sv) Hx) as (t & Ht & Hall).
    destruct (Hall m) as (Heval & Hsize & _); [done|].
    assert (Hshape : SV.assign_vector cfg sv x m
              = (let* tmp := SV.evaluate cfg x in SV.reset sv;; SV.assign cfg sv tmp) m).
    { unfold SV.assign_vector. unfold bind at 1. rewrite Hsize. unfold SV.size.
      rewrite bool_decide_eq_true_2 by done. cbn [negb]. by rewrite Halias. }
    split; [done|]. intros copy a' Hcopy Ha'.
    rewrite Heval in Hcopy. injection Hcopy as ->.
    rewrite (assign_vector_from_copy cfg sv m v copy a') by (done || apply Ht).
    rewrite Hshape. unfold bind at 3 5. by rewrite Heval.
Qed.

Lemma assignment_round_trip_witness :
  (exists m',
     SV.assign_vector all_assertions example_view (Subvector example_overlap) example_memory
     = (Ok tt, m') /\
     forall i, 0 <= i < size_ example_view ->
       exists y,
         SV.vector_at all_assertions (Subvector example_overlap) i example_memory
         = (Ok y, example_memory) /\
         SV.at_const all_assertions example_view i m' = (Ok y, m')) /\
  (forall w, Subvector (ET := Z) example_overlap = Subvector w ->
     exists m',
       SV.copy_assign all_assertions example_view w example_memory = (Ok tt, m') /\
       forall i, 0 <= i < size_ example_view ->
         exists y,
           SV.vector_at all_assertions (Subvector example_overlap) i example_memory
           = (Ok y, example_memory) /\
           SV.at_const all_assertions example_view i m' = (Ok y, m')) /\
  (SV.vector_canAlias (ET := Z) (Subvector example_overlap) (vector_ example_view) = true ->
   SV.assign_vector all_assertions example_view (Subvector example_overlap) example_memory
   = (let* tmp := SV.evaluate all_assertions (Subvector example_overlap) in
      SV.reset example_view;; SV.assign all_assertions example_view tmp) example_memory /\
   forall copy a',
     SV.evaluate all_assertions (Subvector example_overlap) example_memory
     = (Ok (SparseOperand copy), example_memory) ->
     example_memory !! a' = None ->
     SV.assign_vector all_assertions example_view (SparseVector a')
       (<[a' := copy]> example_memory)
     = ((SV.assign_vector all_assertions example_view (Subvector example_overlap)
           example_memory).1,
        <[a' := copy]>
          (SV.assign_vector all_assertions example_view (Subvector example_overlap)
             example_memory).2)).
Proof.
  apply (assignment_round_trip all_assertions example_view example_memory example_vector
           (Subvector example_overlap)).
  - reflexivity.
  - concrete_wf.
  - concrete_view.
  - exists example_vector. split; [reflexivity|]. split; [concrete_wf|].
    unfold view_invariant. simpl. lia.
Defined.

(** The overlapping view reads 0, -1, 0, 3; assigned into the example view
    these are the values at the indices 3..6 of the vector. *)
Example assignment_of_overlapping_view :
  SV.assign_vector all_assertions example_view (Subvector example_overlap) example_memory
  = (Ok tt, {[ 0%nat := {| cv_size := 10;
                           cv_elements := [(2, 5); (4, -1); (6, 3); (7, 3)] |} ]}) /\
  SV.copy_assign all_assertions example_view example_overlap example_memory
  = (Ok tt, {[ 0%nat := {| cv_size := 10;
                           cv_elements := [(2, 5); (4, -1); (6, 3); (7, 3)] |} ]}).
Proof. split; vm_compute; reflexivity. Qed.

(** Without the temporary the reset of the range would erase the element
    (5,-1) of the right-hand side before it is read. *)
Example assignment_without_temporary :
  (SV.reset example_view;;
   let* x := SV.evaluate all_assertions (Subvector example_overlap) in
   SV.assign all_assertions example_view x) example_memory
  = (Ok tt, {[ 0%nat := {| cv_size := 10; cv_elements := [(2, 5); (6, 3); (7, 3)] |} ]}).
Proof. vm_compute. reflexivity. Qed.

Example assignment_of_dense_vector :
  SV.assign_vector all_assertions example_view (DenseVector [1; 0; 2; 0]) example_memory
  = (Ok tt, {[ 0%nat := {| cv_size := 10;
                           cv_elements := [(2, 5); (3, 1); (5, 2); (7, 3)] |} ]}).
Proof. vm_compute. reflexivity. Qed.

(** C3: for concrete vectors A and B of one size and a valid range, the
    subvector of the unevaluated A+B is rewritten to the sum of the
    subvectors, and the rewritten expression has elementwise the values of
    the subvector of the evaluated A+B; in the same way for the difference,
    the componentwise product, the product with and the quotient by a
    scalar, the absolute value, the evaluation and the transposition. *)
Theorem sub_pushes_down_and_agrees {ET Other} `{!Numeric ET} `{!Scalar ET Other}
  (A B : CompressedVector ET) (scalar : Other) (start n : Z) :
  CV.wf A -> CV.wf B -> cv_size A = cv_size B ->
  0 <= start -> 0 < n -> start + n <= cv_size A ->
  let a : Expr ET Other := Concrete A in
  let b : Expr ET Other := Concrete B in
  let sa := SubvectorOf a start n in
  let sb := SubvectorOf b start n in
  (Expression.sub (VecVecAddExpr a b) start n = Ok (VecVecAddExpr sa sb) /\
   Expression.sub (VecVecSubExpr a b) start n = Ok (VecVecSubExpr sa sb) /\
   Expression.sub (VecVecMultExpr a b) start n = Ok (VecVecMultExpr sa sb) /\
   Expression.sub (VecScalarMultExpr a scalar) start n = Ok (VecScalarMultExpr sa scalar) /\
   Expression.sub (VecScalarDivExpr a scalar) start n = Ok (VecScalarDivExpr sa scalar) /\
   Expression.sub (VecAbsExpr a) start n = Ok (VecAbsExpr sa) /\
   Expression.sub (VecEvalExpr a) start n = Ok (VecEvalExpr sa) /\
   Expression.sub (VecTransExpr a) start n = Ok (VecTransExpr sa)) /\
  (agrees_with_eager (VecVecAddExpr a b) start n /\
   agrees_with_eager (VecVecSubExpr a b) start n /\
   agrees_with_eager (VecVecMultExpr a b) start n /\
   agrees_with_eager (VecScalarMultExpr a scalar) start n /\
   agrees_with_eager (VecScalarDivExpr a scalar) start n /\
   agrees_with_eager (VecAbsExpr a) start n /\
   agrees_with_eager (VecEvalExpr a) start n /\
   agrees_with_eager (VecTransExpr a) start n).
Proof.
  intros HA HB Hsize H0 Hn Hle a b sa sb.
  assert (Hsa : Expression.sub a start n = Ok sa).
  { cbn [Expression.sub a]. unfold Expression.size, CV.size.
    rewrite size_t_add_small by (destruct HA as [? _]; lia).
    rewrite (bool_decide_eq_false_2 (n = 0)) by lia.
    by rewrite bool_decide_eq_false_2 by lia. }
  assert (Hsb : Expression.sub b start n = Ok sb).
  { cbn [Expression.sub b]. unfold Expression.size, CV.size.
    rewrite size_t_add_small by (destruct HA as [? _]; lia).
    rewrite (bool_decide_eq_false_2 (n = 0)) by lia.
    by rewrite bool_decide_eq_false_2 by lia. }
  split.
  - cbn [Expression.sub]. fold a b. rewrite Hsa, Hsb. unfold Expression.binary.
    by rewrite bool_decide_eq_true_2.
  - assert (Hagree : forall e : Expr ET Other,
              Expression.wf e -> Expression.size e = cv_size A ->
              agrees_with_eager e start n).
    { intros e Hwf He.
      destruct (sub_refines_eager_sub e start n Hwf H0 Hn) as (p & s & Hp & Hs & _ & _ & Hat);
        [lia|]. by exists p, s. }
    repeat split; apply Hagree; done.
Qed.

Lemma sub_pushes_down_and_agrees_witness :
  (Expression.sub (Other := Z) (VecVecAddExpr (Concrete example_vector) (Concrete example_vector_b)) 3 4
   = Ok (VecVecAddExpr (SubvectorOf (Concrete example_vector) 3 4)
                       (SubvectorOf (Concrete example_vector_b) 3 4)) /\
   Expression.sub (Other := Z) (VecVecSubExpr (Concrete example_vector) (Concrete example_vector_b)) 3 4
   = Ok (VecVecSubExpr (SubvectorOf (Concrete example_vector) 3 4)
                       (SubvectorOf (Concrete example_vector_b) 3 4)) /\
   Expression.sub (Other := Z) (VecVecMultExpr (Concrete example_vector) (Concrete example_vector_b)) 3 4
   = Ok (VecVecMultExpr (SubvectorOf (Concrete example_vector) 3 4)
                        (SubvectorOf (Concrete example_vector_b) 3 4)) /\
   Expression.sub (Other := Z) (VecScalarMultExpr (Concrete example_vector) 2) 3 4
   = Ok (VecScalarMultExpr (SubvectorOf (Concrete example_vector) 3 4) 2) /\
   Expression.sub (Other := Z) (VecScalarDivExpr (Concrete example_vector) 2) 3 4
   = Ok (VecScalarDivExpr (SubvectorOf (Concrete example_vector) 3 4) 2) /\
   Expression.sub (Other := Z) (VecAbsExpr (Concrete example_vector)) 3 4
   = Ok (VecAbsExpr (SubvectorOf (Concrete example_vector) 3 4)) /\
   Expression.sub (Other := Z) (VecEvalExpr (Concrete example_vector)) 3 4
   = Ok (VecEvalExpr (SubvectorOf (Concrete example_vector) 3 4)) /\
   Expression.sub (Other := Z) (VecTransExpr (Concrete example_vector)) 3 4
   = Ok (VecTransExpr (SubvectorOf (Concrete example_vector) 3 4))) /\
  (agrees_with_eager (Other := Z)
     (VecVecAddExpr (Concrete example_vector) (Concrete example_vector_b)) 3 4 /\
   agrees_with_eager (Other := Z)
     (VecVecSubExpr (Concrete example_vector) (Concrete example_vector_b)) 3 4 /\
   agrees_with_eager (Other := Z)
     (VecVecMultExpr (Concrete example_vector) (Concrete example_vector_b)) 3 4 /\
   agrees_with_eager (VecScalarMultExpr (Concrete example_vector) 2) 3 4 /\
   agrees_with_eager (VecScalarDivExpr (Concrete example_vector) 2) 3 4 /\
   agrees_with_eager (VecAbsExpr (Other := Z) (Concrete example_vector)) 3 4 /\
   agrees_with_eager (VecEvalExpr (Other := Z) (Concrete example_vector)) 3 4 /\
   agrees_with_eager (VecTransExpr (Other := Z) (Concrete example_vector)) 3 4).
Proof.
  apply (sub_pushes_down_and_agrees example_vector example_vector_b 2 3 4).
  - concrete_wf.
  - concrete_wf.
  - reflexivity.
  - lia.
  - lia.
  - simpl. lia.
Defined.

(** The sum of the two example vectors has the elements (0,1), (2,5),
    (5,3), (6,-2), (7,3); the view of size 4 from index 3 of the pushed-down
    and of the evaluated sum both read 0, 0, 3, -2. *)
Example sub_of_sum_example :
  match Expression.sub (Other := Z)
          (VecVecAddExpr (Concrete example_vector) (Concrete example_vector_b)) 3 4,
        Expression.eager_sub (Other := Z)
          (VecVecAddExpr (Concrete example_vector) (Concrete example_vector_b)) 3 4
  with
  | Ok pushed, Ok sliced =>
      Expression.at_ pushed <$> [0; 1; 2; 3] = [0; 0; 3; -2] /\
      Expression.at_ sliced <$> [0; 1; 2; 3] = [0; 0; 3; -2]
  | _, _ => False
  end.
Proof. vm_compute. split; reflexivity. Qed.

(** C4, at an input where the code departs from the claim: the copy
    assignment from a view of the same vector with the same start returns
    before it compares the sizes. The right-hand side has the size 5, the
    view the size 4, and nothing is thrown. *)
Theorem copy_assign_skips_size_check :
  SV.size example_view <> SV.size {| vector_ := 0; start_ := 3; size_ := 5 |} /\
  SV.copy_assign all_assertions example_view {| vector_ := 0; start_ := 3; size_ := 5 |}
    example_memory
  = (Ok tt, example_memory).
Proof. split; [by compute|reflexivity]. Qed.

(** The assignments throw before they change anything when the size of
    the right-hand side differs from the size of the view: the assignment
    operator of vectors, the compound assignments, and the copy assignment
    of a subvector of another vector or with another start. *)
Lemma size_mismatch_throws {ET} `{!Numeric ET} cfg (sv : SparseSubvector)
  (rhs : Vector ET) (m : memory ET) (n : Z) :
  SV.vector_size rhs m = (Ok n, m) -> n <> size_ sv ->
  let failure := (InvalidArgument "Vector sizes do not match", m) in
  SV.assign_vector cfg sv rhs m = failure /\
  SV.add_assign cfg sv rhs m = failure /\
  SV.sub_assign cfg sv rhs m = failure /\
  SV.mul_assign_vector cfg sv rhs m = failure /\
  forall w, rhs = Subvector w ->
            ~ (vector_ sv = vector_ w /\ start_ sv = start_ w) ->
            SV.copy_assign cfg sv w m = failure.
Proof.
  intros Hsize Hne failure.
  assert (Hassign : SV.assign_vector cfg sv rhs m = failure).
  { unfold SV.assign_vector, bind. rewrite Hsize. unfold SV.size.
    by rewrite bool_decide_eq_false_2 by congruence. }
  split; [done|].
  unfold SV.add_assign, SV.sub_assign, SV.mul_assign_vector, bind. rewrite Hsize.
  unfold SV.size. rewrite bool_decide_eq_false_2 by done.
  repeat split. intros w -> Hother. by rewrite copy_assign_other.
Qed.

Lemma size_mismatch_throws_witness :
  let failure := (InvalidArgument "Vector sizes do not match", example_memory) in
  SV.assign_vector all_assertions example_view (DenseVector [1; 2; 3]) example_memory
  = failure /\
  SV.add_assign all_assertions example_view (DenseVector [1; 2; 3]) example_memory
  = failure /\
  SV.sub_assign all_assertions example_view (DenseVector [1; 2; 3]) example_memory
  = failure /\
  SV.mul_assign_vector all_assertions example_view (DenseVector [1; 2; 3]) example_memory
  = failure /\
  forall w, DenseVector [1; 2; 3] = Subvector w ->
            ~ (vector_ example_view = vector_ w /\ start_ example_view = start_ w) ->
            SV.copy_assign all_assertions example_view w example_memory = failure.
Proof.
  apply (size_mismatch_throws all_assertions example_view (DenseVector [1; 2; 3])
           example_memory 3).
  - reflexivity.
  - simpl. lia.
Defined.

(** The compound assignments at a right-hand side of the right size. *)
Example compound_assignments :
  SV.add_assign all_assertions example_view (DenseVector [1; 0; 2; 0]) example_memory
  = (Ok tt, {[ 0%nat := {| cv_size := 10;
                           cv_elements := [(2, 5); (3, 1); (5, 1); (7, 3)] |} ]}) /\
  SV.sub_assign all_assertions example_view (Subvector example_overlap) example_memory
  = (Ok tt, {[ 0%nat := {| cv_size := 10;
                           cv_elements := [(2, 5); (4, 1); (5, -1); (6, -3); (7, 3)] |} ]}) /\
  SV.mul_assign_vector all_assertions example_view (DenseVector [1; 0; 2; 0]) example_memory
  = (Ok tt, {[ 0%nat := {| cv_size := 10;
                           cv_elements := [(2, 5); (5, -2); (7, 3)] |} ]}).
Proof. repeat split; vm_compute; reflexivity. Qed.

(** C5: for a local index i of the view, [find(i)], [lowerBound(i)] and
    [upperBound(i)] search the backing vector at the global index start+i,
    and they return the [end()] of the view whenever that search returns
    the end of the backing vector or a position whose global index lies
    outside [start, start+size); in particular when the upper bound is
    the element with the global index start+size. *)
Theorem lookups_delegate_and_clamp {ET} (sv : SparseSubvector) (m : memory ET)
  (v : CompressedVector ET) (i : Z) :
  m !! vector_ sv = Some v -> CV.wf v -> view_invariant sv v ->
  0 <= i < size_ sv ->
  let g := start_ sv + i in
  let last := {| pos_ := CV.lowerBound v (start_ sv + size_ sv); offset_ := start_ sv |} in
  let found := {| pos_ := CV.find v g; offset_ := start_ sv |} in
  let lower := {| pos_ := CV.lowerBound v g; offset_ := start_ sv |} in
  let upper := {| pos_ := CV.upperBound v g; offset_ := start_ sv |} in
  SV.end_ sv m = (Ok last, m) /\
  SV.find sv i m = (Ok (if decide (CV.find v g = CV.end_ v) then last else found), m) /\
  SV.lowerBound sv i m = (Ok lower, m) /\
  SV.upperBound sv i m = (Ok upper, m) /\
  (outside_view sv v (CV.find v g) -> CV.find v g = CV.end_ v) /\
  (outside_view sv v (CV.lowerBound v g) -> lower = last) /\
  (outside_view sv v (CV.upperBound v g) -> upper = last) /\
  (forall e, cv_elements v !! CV.upperBound v g = Some e ->
             e.1 = start_ sv + size_ sv -> upper = last).
Proof.
  intros Hm Hwf Hinv Hi g last found lower upper.
  pose proof Hinv as (H0 & Hn & Hle). pose proof Hwf as (Hsz & Hidx & Hasc).
  assert (Hlower : outside_view sv v (CV.lowerBound v g) -> lower = last).
  { intros Hout. unfold lower, last. f_equal.
    apply (lower_pos_clamp (cv_elements v) (start_ sv) (start_ sv + size_ sv) g);
      [done|unfold g; lia|exact Hout]. }
  assert (Hupper : outside_view sv v (CV.upperBound v g) -> upper = last).
  { intros Hout. unfold upper, last, CV.upperBound. f_equal.
    rewrite upper_pos_lower_pos.
    apply (lower_pos_clamp (cv_elements v) (start_ sv) (start_ sv + size_ sv) (g + 1));
      [done|unfold g; lia|].
    rewrite <- upper_pos_lower_pos. exact Hout. }
  repeat split.
  - rewrite (end_run sv m v) by done. by rewrite (view_end_no_wrap sv v).
  - unfold SV.find. rewrite (run_load m _ v) by done.
    rewrite (view_index_no_wrap sv v i) by done. fold g.
    destruct (decide (CV.find v g = CV.end_ v)) as [Heq|Hne].
    + rewrite bool_decide_eq_true_2 by done. simpl.
      rewrite (end_run sv m v) by done. by rewrite (view_end_no_wrap sv v).
    + rewrite bool_decide_eq_false_2 by done. done.
  - unfold SV.lowerBound. rewrite (run_load m _ v) by done.
    by rewrite (view_index_no_wrap sv v i).
  - unfold SV.upperBound. rewrite (run_load m _ v) by done.
    by rewrite (view_index_no_wrap sv v i).
  - intros [Hend | (e & He & Hr)]; [done|].
    destruct (find_cases v g) as [Hend | (_ & e' & He' & Hg)]; [done|].
    assert (e' = e) as -> by congruence.
    exfalso. apply Hr. unfold in_range. unfold g in Hg. lia.
  - exact Hlower.
  - exact Hupper.
  - intros e He Hidx'. apply Hupper. right. exists e. split; [done|].
    unfold in_range. lia.
Qed.

Lemma lookups_delegate_and_clamp_witness :
  let sv := example_view in
  let v := example_vector in
  let m := example_memory in
  let g := start_ sv + 3 in
  let last := {| pos_ := CV.lowerBound v (start_ sv + size_ sv); offset_ := start_ sv |} in
  let found := {| pos_ := CV.find v g; offset_ := start_ sv |} in
  let lower := {| pos_ := CV.lowerBound v g; offset_ := start_ sv |} in
  let upper := {| pos_ := CV.upperBound v g; offset_ := start_ sv |} in
  SV.end_ sv m = (Ok last, m) /\
  SV.find sv 3 m = (Ok (if decide (CV.find v g = CV.end_ v) then last else found), m) /\
  SV.lowerBound sv 3 m = (Ok lower, m) /\
  SV.upperBound sv 3 m = (Ok upper, m) /\
  (outside_view sv v (CV.find v g) -> CV.find v g = CV.end_ v) /\
  (outside_view sv v (CV.lowerBound v g) -> lower = last) /\
  (outside_view sv v (CV.upperBound v g) -> upper = last) /\
  (forall e, cv_elements v !! CV.upperBound v g = Some e ->
             e.1 = start_ sv + size_ sv -> upper = last).
Proof.
  apply (lookups_delegate_and_clamp example_view example_memory example_vector 3).
  - reflexivity.
  - concrete_wf.
  - concrete_view.
  - simpl. lia.
Defined.

(** In the scenario of the specification the upper bound of the local
    index 3 is the element with the global index 7 = start + size, and it
    is the [end()] of the view. *)
Example upper_bound_example :
  SV.upperBound example_view 3 example_memory = SV.end_ example_view example_memory /\
  cv_elements example_vector !! CV.upperBound example_vector 6 = Some (7, 3).
Proof. split; reflexivity. Qed.

(** The example of the specification: start 8 and size 5 on a vector of
    size 10. *)
Example constructor_rejects_8_5 :
  SV.new 0 8 5 example_memory
  = (InvalidArgument "Invalid subvector specification", example_memory).
Proof. reflexivity. Qed.

(** C6, at an input where the code departs from the claim: on the vector
    of size 10, start = 2^64 - 1 and size 2 give start + size > 10, but the
    sum of the two [size_t] values wraps around to 1 and the constructor
    returns a view. *)
Theorem constructor_accepts_wrapped_range :
  (2 ^ 64 - 1) + 2 > cv_size example_vector /\
  SV.new 0 (2 ^ 64 - 1) 2 example_memory
  = (Ok {| vector_ := 0; start_ := 2 ^ 64 - 1; size_ := 2 |}, example_memory).
Proof. split; [by compute|reflexivity]. Qed.

(** The view so constructed breaks the invariant of a view: its [begin()]
    is the end of the element array and lies behind its [end()], and the
    traversal runs past the end of the array. *)
Example traversal_of_wrapped_view :
  let sv := {| vector_ := 0; start_ := 2 ^ 64 - 1; size_ := 2 |} in
  SV.begin sv example_memory = (Ok {| pos_ := 3; offset_ := 2 ^ 64 - 1 |}, example_memory) /\
  SV.end_ sv example_memory = (Ok {| pos_ := 0; offset_ := 2 ^ 64 - 1 |}, example_memory) /\
  SV.elements all_assertions sv example_memory = (Undefined, example_memory).
Proof. repeat split; vm_compute; reflexivity. Qed.

(** The constructor on a range that does not wrap around: it throws if and
    only if the range is empty or exceeds the vector, and otherwise yields
    the view of that range and leaves the memory as it is. *)
Lemma constructor_checks_range {ET} (m : memory ET) (v : CompressedVector ET)
  (vector : nat) (start n : Z) :
  m !! vector = Some v -> 0 <= start -> 0 <= n -> start + n < size_t_modulus ->
  (n = 0 \/ start + n > cv_size v ->
   SV.new vector start n m = (InvalidArgument "Invalid subvector specification", m)) /\
  (~ (n = 0 \/ start + n > cv_size v) ->
   SV.new vector start n m = (Ok {| vector_ := vector; start_ := start; size_ := n |}, m) /\
   SV.size {| vector_ := vector; start_ := start; size_ := n |} = n).
Proof.
  intros Hm H0 Hn Hsum. split.
  - intros Hbad. rewrite (new_run m v) by done. by rewrite decide_True.
  - intros Hok. rewrite (new_run m v) by done. by rewrite decide_False.
Qed.

Lemma constructor_checks_range_witness :
  (4 = 0 \/ 3 + 4 > cv_size example_vector ->
   SV.new 0 3 4 example_memory
   = (InvalidArgument "Invalid subvector specification", example_memory)) /\
  (~ (4 = 0 \/ 3 + 4 > cv_size example_vector) ->
   SV.new 0 3 4 example_memory
   = (Ok {| vector_ := 0; start_ := 3; size_ := 4 |}, example_memory) /\
   SV.size {| vector_ := 0; start_ := 3; size_ := 4 |} = 4).
Proof.
  apply (constructor_checks_range example_memory example_vector 0 3 4).
  - reflexivity.
  - lia.
  - lia.
  - unfold size_t_modulus. lia.
Defined.

(** C7: [reset()] erases exactly the stored elements of the backing vector
    whose global index lies in [start, start+size): afterwards the
    traversal of the view yields no element, and the stored elements
    outside the range are the same as before. *)
Theorem reset_erases_exactly_the_range {ET} cfg (sv : SparseSubvector)
  (m : memory ET) (v : CompressedVector ET) :
  m !! vector_ sv = Some v -> CV.wf v -> view_invariant sv v ->
  exists v',
    SV.reset sv m = (Ok tt, <[vector_ sv := v']> m) /\
    cv_size v' = cv_size v /\
    cv_elements v' = filter (fun e => ~ in_range sv e.1) (cv_elements v) /\
    SV.elements cfg sv (<[vector_ sv := v']> m) = (Ok [], <[vector_ sv := v']> m).
Proof.
  intros Hm Hwf Hinv. eexists. split; [by apply reset_run|].
  split; [done|]. split; [done|].
  rewrite (elements_run cfg sv _ _ (lookup_insert_eq _ _ _)).
  - simpl. rewrite filter_none; [done|].
    apply Forall_forall. intros e He. by apply list_elem_of_filter in He as [? _].
  - by apply wf_filter.
  - done.
Qed.

Lemma reset_erases_exactly_the_range_witness :
  exists v',
    SV.reset example_view example_memory
    = (Ok tt, <[vector_ example_view := v']> example_memory) /\
    cv_size v' = cv_size example_vector /\
    cv_elements v'
    = filter (fun e => ~ in_range example_view e.1) (cv_elements example_vector) /\
    SV.elements all_assertions example_view (<[vector_ example_view := v']> example_memory)
    = (Ok [], <[vector_ example_view := v']> example_memory).
Proof.
  apply (reset_erases_exactly_the_range all_assertions example_view example_memory
           example_vector).
  - reflexivity.
  - concrete_wf.
  - concrete_view.
Defined.

Example reset_example :
  SV.reset example_view example_memory
  = (Ok tt, {[ 0%nat := {| cv_size := 10; cv_elements := [(2, 5); (7, 3)] |} ]}).
Proof. vm_compute. reflexivity. Qed.

(** C8: [view *= s] multiplies in place the value of each stored element
    of the range of the view by s and inserts no element: the stored
    indices of the backing vector are the same before and after, and every
    element outside [start, start+size) keeps its value. *)
Theorem scalar_multiplication_in_place {ET Other} `{!Scalar ET Other} cfg
  (sv : SparseSubvector) (s : Other) (m : memory ET) (v : CompressedVector ET) :
  m !! vector_ sv = Some v -> CV.wf v -> view_invariant sv v ->
  exists v',
    SV.mul_assign_scalar cfg sv s m = (Ok tt, <[vector_ sv := v']> m) /\
    cv_size v' = cv_size v /\
    (cv_elements v').*1 = (cv_elements v).*1 /\
    forall pos g x,
      cv_elements v !! pos = Some (g, x) ->
      cv_elements v' !! pos
      = Some (g, if decide (in_range sv g) then mul_assign x s else x).
Proof.
  intros Hm Hwf Hinv. eexists. split; [by apply update_values_run|].
  split; [done|]. simpl. split.
  - rewrite <- list_fmap_compose. apply list_fmap_ext. intros i e _. simpl.
    by destruct (decide (in_range sv e.1)).
  - intros pos g x He. rewrite list_lookup_fmap, He. simpl.
    by destruct (decide (in_range sv g)).
Qed.

Lemma scalar_multiplication_in_place_witness :
  exists v',
    SV.mul_assign_scalar all_assertions example_view 2 example_memory
    = (Ok tt, <[vector_ example_view := v']> example_memory) /\
    cv_size v' = cv_size example_vector /\
    (cv_elements v').*1 = (cv_elements example_vector).*1 /\
    forall pos g x,
      cv_elements example_vector !! pos = Some (g, x) ->
      cv_elements v' !! pos
      = Some (g, if decide (in_range example_view g) then mul_assign x 2 else x).
Proof.
  apply (scalar_multiplication_in_place all_assertions example_view 2 example_memory
           example_vector).
  - reflexivity.
  - concrete_wf.
  - concrete_view.
Defined.

Example scalar_multiplication_example :
  SV.mul_assign_scalar all_assertions example_view 2 example_memory
  = (Ok tt, {[ 0%nat := {| cv_size := 10; cv_elements := [(2, 5); (5, -2); (7, 3)] |} ]}).
Proof. vm_compute. reflexivity. Qed.

(** C9: [view /= s] updates each stored element of the range in place: by
    the multiplication with the reciprocal 1/s when the result type of the
    division is a floating point type, and by the division by s otherwise.
    A zero divisor is caught by a user assertion only: with the assertions
    compiled in the operation stops there; without them the elements are
    updated all the same where the division is defined, and where the
    division of a stored value of the range is not defined (an integer by
    zero) the behaviour is undefined. In no case is an exception thrown. *)
Theorem scalar_division_in_place {ET Other} `{!Scalar ET Other} cfg
  (sv : SparseSubvector) (s : Other) (m : memory ET) (v : CompressedVector ET) :
  m !! vector_ sv = Some v -> CV.wf v -> view_invariant sv v ->
  (BLAZE_USER_ASSERTION cfg && is_zero s = true ->
   SV.div_assign_scalar cfg sv s m = (AssertionFailed "Division by zero detected", m)) /\
  (BLAZE_USER_ASSERTION cfg && is_zero s = false ->
   (floating_division ET Other = false ->
    forall pos g x, cv_elements v !! pos = Some (g, x) -> in_range sv g ->
                    div_defined x s = true) ->
   exists v',
     SV.div_assign_scalar cfg sv s m = (Ok tt, <[vector_ sv := v']> m) /\
     cv_size v' = cv_size v /\
     forall pos g x,
       cv_elements v !! pos = Some (g, x) ->
       cv_elements v' !! pos
       = Some (g, if decide (in_range sv g)
                  then if floating_division ET Other
                       then mul_assign_tmp x (reciprocal s)
                       else div_assign x s
                  else x)) /\
  (BLAZE_USER_ASSERTION cfg && is_zero s = false ->
   floating_division ET Other = false ->
   (exists pos g x, cv_elements v !! pos = Some (g, x) /\ in_range sv g /\
                    div_defined x s = false) ->
   exists m', SV.div_assign_scalar cfg sv s m = (Undefined, m')) /\
  (forall what m', SV.div_assign_scalar cfg sv s m <> (InvalidArgument what, m')).
Proof.
  intros Hm Hwf Hinv.
  assert (Hok : BLAZE_USER_ASSERTION cfg && is_zero s = false ->
    (floating_division ET Other = false ->
     forall pos g x, cv_elements v !! pos = Some (g, x) -> in_range sv g ->
                     div_defined x s = true) ->
    exists v',
      SV.div_assign_scalar cfg sv s m = (Ok tt, <[vector_ sv := v']> m) /\
      cv_size v' = cv_size v /\
      forall pos g x,
        cv_elements v !! pos = Some (g, x) ->
        cv_elements v' !! pos
        = Some (g, if decide (in_range sv g)
                   then if floating_division ET Other
                        then mul_assign_tmp x (reciprocal s)
                        else div_assign x s
                   else x)).
  { intros Hassert Hdef. unfold SV.div_assign_scalar. rewrite Hassert.
    unfold bind at 1. unfold ret at 1.
    destruct (floating_division ET Other) eqn:Hfd.
    - eexists. split; [by apply update_values_run|]. split; [done|].
      intros pos g x He. simpl. rewrite list_lookup_fmap, He. simpl.
      by destruct (decide (in_range sv g)).
    - eexists. split; [apply divide_values_run; [done|done|done|by apply Hdef]|].
      split; [done|].
      intros pos g x He. simpl. rewrite list_lookup_fmap, He. simpl.
      by destruct (decide (in_range sv g)). }
  assert (Hundef : BLAZE_USER_ASSERTION cfg && is_zero s = false ->
    floating_division ET Other = false ->
    (exists pos g x, cv_elements v !! pos = Some (g, x) /\ in_range sv g /\
                     div_defined x s = false) ->
    exists m', SV.div_assign_scalar cfg sv s m = (Undefined, m')).
  { intros Hassert Hfd Hex. unfold SV.div_assign_scalar. rewrite Hassert, Hfd.
    unfold bind at 1. unfold ret at 1. by apply (divide_values_undefined cfg sv s m v). }
  split; [|split; [exact Hok|split; [exact Hundef|]]].
  - intros Hassert. unfold SV.div_assign_scalar. by rewrite Hassert.
  - intros what m' Hthrow.
    destruct (BLAZE_USER_ASSERTION cfg && is_zero s) eqn:Hassert.
    { unfold SV.div_assign_scalar in Hthrow. by rewrite Hassert in Hthrow. }
    destruct (floating_division ET Other) eqn:Hfd.
    { destruct (Hok eq_refl) as (v' & Hrun & _); [done|]. congruence. }
    destruct (decide (Forall (fun e : Z * ET => in_range sv e.1 -> div_defined e.2 s = true)
                        (cv_elements v))) as [Hall|Hnot].
    + destruct (Hok eq_refl) as (v' & Hrun & _); [|congruence].
      intros _ pos g x He Hr. rewrite Forall_forall in Hall.
      apply (Hall (g, x)); [by eapply list_elem_of_lookup_2|done].
    + apply not_Forall_Exists in Hnot; [|apply _].
      apply Exists_exists in Hnot as ([g x] & He & Hbad). simpl in Hbad.
      apply list_elem_of_lookup in He as [pos He].
      destruct (Hundef eq_refl eq_refl) as (m1 & Hrun); [|congruence].
      exists pos, g, x. split; [done|].
      destruct (decide (in_range sv g)) as [Hr|Hr]; [|tauto]. split; [done|].
      destruct (div_defined x s); [tauto|done].
Qed.

Lemma scalar_division_in_place_witness :
  (BLAZE_USER_ASSERTION all_assertions && is_zero 2 = true ->
   SV.div_assign_scalar all_assertions example_view 2 example_memory
   = (AssertionFailed "Division by zero detected", example_memory)) /\
  (BLAZE_USER_ASSERTION all_assertions && is_zero 2 = false ->
   (floating_division Z Z = false ->
    forall pos g x, cv_elements example_vector !! pos = Some (g, x) ->
                    in_range example_view g -> div_defined x 2 = true) ->
   exists v',
     SV.div_assign_scalar all_assertions example_view 2 example_memory
     = (Ok tt, <[vector_ example_view := v']> example_memory) /\
     cv_size v' = cv_size example_vector /\
     forall pos g x,
       cv_elements example_vector !! pos = Some (g, x) ->
       cv_elements v' !! pos
       = Some (g, if decide (in_range example_view g)
                  then if floating_division Z Z
                       then mul_assign_tmp x (reciprocal 2)
                       else div_assign x 2
                  else x)) /\
  (BLAZE_USER_ASSERTION all_assertions && is_zero 2 = false ->
   floating_division Z Z = false ->
   (exists pos g x, cv_elements example_vector !! pos = Some (g, x) /\
                    in_range example_view g /\ div_defined x 2 = false) ->
   exists m', SV.div_assign_scalar all_assertions example_view 2 example_memory
              = (Undefined, m')) /\
  (forall what m', SV.div_assign_scalar all_assertions example_view 2 example_memory
                   <> (InvalidArgument what, m')).
Proof.
  apply (scalar_division_in_place all_assertions example_view 2 example_memory
           example_vector).
  - reflexivity.
  - concrete_wf.
  - concrete_view.
Defined.

(** The integral division truncates: -1 / 2 = 0. *)
Example scalar_division_example :
  SV.div_assign_scalar all_assertions example_view 2 example_memory
  = (Ok tt, {[ 0%nat := {| cv_size := 10; cv_elements := [(2, 5); (5, 0); (7, 3)] |} ]}).
Proof. vm_compute. reflexivity. Qed.

Example scalar_division_by_zero_asserted :
  SV.div_assign_scalar all_assertions example_view 0 example_memory
  = (AssertionFailed "Division by zero detected", example_memory).
Proof. reflexivity. Qed.

(** With elements and a scalar of type [double] the division multiplies
    by the reciprocal: the scenario of the specification, divided by 2. *)
Example scalar_division_double :
  SV.div_assign_scalar all_assertions example_view 2%float
    ({[ 0%nat := {| cv_size := 10;
                    cv_elements := [(2, 5%float); (5, (-1)%float); (7, 3%float)] |} ]}
       : memory float)
  = (Ok tt,
     {[ 0%nat := {| cv_size := 10;
                    cv_elements := [(2, 5%float); (5, (-0.5)%float); (7, 3%float)] |} ]}).
Proof. vm_compute. reflexivity. Qed.

(** For integral elements and an integral scalar every divisor that is not
    zero divides the stored values of the range, truncating, whether or
    not the assertions are compiled in. *)
Lemma scalar_division_of_integers cfg (sv : SparseSubvector) (s : Z) (m : memory Z)
  (v : CompressedVector Z) :
  m !! vector_ sv = Some v -> CV.wf v -> view_invariant sv v -> s <> 0 ->
  SV.div_assign_scalar cfg sv s m
  = (Ok tt, <[vector_ sv :=
       {| cv_size := cv_size v;
          cv_elements :=
            (fun e => if decide (in_range sv e.1) then (e.1, Z.quot e.2 s) else e)
              <$> cv_elements v |}]> m).
Proof.
  intros Hm Hwf Hinv Hs. unfold SV.div_assign_scalar.
  assert (Hz : (s =? 0) = false) by (by apply Z.eqb_neq).
  cbn [is_zero floating_division Scalar_Z]. rewrite Hz, andb_false_r.
  unfold bind at 1. unfold ret at 1.
  rewrite (divide_values_run cfg sv s m v Hm Hwf Hinv); [done|].
  intros pos g x _ _. cbn [div_defined Scalar_Z]. by rewrite Hz.
Qed.

(** Without the user assertions the division of the integral values by
    zero is undefined behaviour, at the first stored element of the range. *)
Example scalar_division_by_zero_undefined :
  SV.div_assign_scalar no_assertions example_view 0 example_memory
  = (Undefined, example_memory).
Proof. vm_compute. reflexivity. Qed.

(** Without the user assertions a zero divisor is no error for values of
    type [double]: they are multiplied by the reciprocal of zero. *)
Example scalar_division_by_zero_unasserted :
  SV.div_assign_scalar no_assertions example_view 0%float
    ({[ 0%nat := {| cv_size := 10;
                    cv_elements := [(2, 5%float); (5, (-1)%float); (7, 3%float)] |} ]}
       : memory float)
  = (Ok tt,
     {[ 0%nat := {| cv_size := 10;
                    cv_elements := [(2, 5%float); (5, neg_infinity); (7, 3%float)] |} ]}).
Proof. vm_compute. reflexivity. Qed.

(** C10: [reserve(n)] changes neither the view nor the memory, for every
    n, and [capacity()] is the size of the view. *)
Theorem reserve_is_noop_and_capacity_is_size {ET} (sv : SparseSubvector) (n : Z)
  (m : memory ET) :
  SV.reserve sv n m = (Ok tt, m) /\ SV.capacity sv = SV.size sv.
Proof. split; reflexivity. Qed.

(** * Further properties *)

(** The subscript operator of a constant view reads the element of the
    backing vector at the global index start+i. *)
Lemma subscript_reads_backing_element {ET} `{!Numeric ET} cfg (sv : SparseSubvector)
  (m : memory ET) (v : CompressedVector ET) (i : Z) :
  m !! vector_ sv = Some v -> CV.wf v -> view_invariant sv v -> 0 <= i < size_ sv ->
  SV.at_const cfg sv i m = (Ok (CV.at_const v (start_ sv + i)), m).
Proof. apply at_const_run. Qed.

Lemma subscript_reads_backing_element_witness :
  SV.at_const all_assertions example_view 2 example_memory
  = (Ok (CV.at_const example_vector (start_ example_view + 2)), example_memory).
Proof.
  apply (subscript_reads_backing_element all_assertions example_view example_memory
           example_vector 2).
  - reflexivity.
  - concrete_wf.
  - concrete_view.
  - simpl. lia.
Defined.

(** [insert] throws when the backing vector stores an element at the
    global index already, and leaves the memory as it is; otherwise the
    element is stored and read back. *)
Lemma insert_rejects_duplicate {ET} `{!Numeric ET} (sv : SparseSubvector)
  (m : memory ET) (v : CompressedVector ET) (i : Z) (x : ET) :
  m !! vector_ sv = Some v -> CV.wf v -> view_invariant sv v -> 0 <= i < size_ sv ->
  (is_Some (stored (cv_elements v) (start_ sv + i)) ->
   SV.insert sv i x m = (InvalidArgument "Invalid sparse subvector access index", m)) /\
  (stored (cv_elements v) (start_ sv + i) = None ->
   exists pos v',
     SV.insert sv i x m = (Ok pos, <[vector_ sv := v']> m) /\
     CV.wf v' /\ CV.at_const v' (start_ sv + i) = x).
Proof.
  intros Hm Hwf Hinv Hi. pose proof Hinv as (H0 & Hn & Hle).
  unfold SV.insert. rewrite (run_load m _ v) by done.
  rewrite (view_index_no_wrap sv v i) by done. split.
  - intros [y Hy]. unfold CV.insert. rewrite bool_decide_eq_false_2; [done|].
    rewrite find_end_stored by apply Hwf. by rewrite Hy.
  - intros Hnone.
    destruct (insert_fresh v (start_ sv + i) x) as (v' & Hins & Hsize & Hasc & Hsub & Hst);
      [apply Hwf|done|].
    rewrite Hins. exists (CV.lowerBound v (start_ sv + i)), v'.
    split; [done|]. split.
    + apply (wf_insert_fresh v v' (start_ sv + i)); try done; [lia|].
      intros e He. destruct (Hsub e He) as [->|?]; [by left|by right].
    + rewrite at_const_stored by done. rewrite Hst. by rewrite decide_True.
Qed.

Lemma insert_rejects_duplicate_witness :
  (is_Some (stored (cv_elements example_vector) (start_ example_view + 2)) ->
   SV.insert example_view 2 9 example_memory
   = (InvalidArgument "Invalid sparse subvector access index", example_memory)) /\
  (stored (cv_elements example_vector) (start_ example_view + 2) = None ->
   exists pos v',
     SV.insert example_view 2 9 example_memory
     = (Ok pos, <[vector_ example_view := v']> example_memory) /\
     CV.wf v' /\ CV.at_const v' (start_ example_view + 2) = 9).
Proof.
  apply (insert_rejects_duplicate example_view example_memory example_vector 2 9).
  - reflexivity.
  - concrete_wf.
  - concrete_view.
  - simpl. lia.
Defined.

Example insert_examples :
  SV.insert example_view 2 9 example_memory
  = (InvalidArgument "Invalid sparse subvector access index", example_memory) /\
  SV.insert example_view 0 9 example_memory
  = (Ok 1%nat, {[ 0%nat := {| cv_size := 10;
                              cv_elements := [(2, 5); (3, 9); (5, -1); (7, 3)] |} ]}).
Proof. split; vm_compute; reflexivity. Qed.

(** ** Counting, erasing and inserting elements *)

Section CountingFacts.
Context {ET : Type}.
Implicit Types (l : list (Z * ET)).

(** Strictly ascending indices of a range of b - a indices: at most b - a
    elements. *)
Lemma ascending_range_length l (a b : Z) :
  CV.ascending l -> Forall (fun e => a <= e.1 < b) l ->
  Z.of_nat (length l) <= Z.max 0 (b - a).
Proof.
  revert a. induction l as [|e l IH]; intros a Hasc Hall; simpl length; [lia|].
  destruct Hasc as [Hhd Htl]. apply Forall_cons in Hall as [He Hall].
  assert (Hl : Forall (fun e' => e.1 + 1 <= e'.1 < b) l).
  { apply Forall_forall. intros e' He'.
    rewrite Forall_forall in Hhd, Hall. specialize (Hhd e' He'). specialize (Hall e' He'). lia. }
  specialize (IH (e.1 + 1) Htl Hl). lia.
Qed.

Lemma lower_pos_succ l (g : Z) e :
  CV.ascending l -> l !! CV.lower_pos l g = Some e -> e.1 = g ->
  CV.lower_pos l (g + 1) = S (CV.lower_pos l g).
Proof.
  induction l as [|e0 l IH]; simpl; [done|]. intros [Hhd Htl].
  case_bool_decide as Hlt; simpl.
  - intros He Hg. rewrite bool_decide_eq_true_2 by lia. f_equal. by apply IH.
  - intros [= <-] Hg. rewrite bool_decide_eq_true_2 by lia. f_equal.
    destruct l as [|e1 l]; [done|]. simpl.
    apply Forall_cons in Hhd as [H1 _]. by rewrite bool_decide_eq_false_2 by lia.
Qed.

(** Erasing the element with the index [g] keeps the elements with another
    index. *)
Lemma erase_index_filter (v : CompressedVector ET) (g : Z) :
  CV.ascending (cv_elements v) ->
  CV.erase_index v g
  = {| cv_size := cv_size v;
       cv_elements := filter (fun e => e.1 <> g) (cv_elements v) |}.
Proof.
  intros Hasc. unfold CV.erase_index.
  destruct (find_cases v g) as [Hend | (Hpos & e & He & Hg)].
  - rewrite bool_decide_eq_true_2 by done.
    rewrite filter_all; [by destruct v|].
    apply find_end_stored in Hend; [|done]. by apply stored_None.
  - assert (Hne : CV.find v g <> CV.end_ v).
    { apply lookup_lt_Some in He. unfold CV.end_. lia. }
    rewrite bool_decide_eq_false_2 by done. unfold CV.erase. f_equal.
    rewrite Hpos in *. unfold CV.lowerBound in *.
    rewrite <- (lower_pos_succ (cv_elements v) g e) by done.
    rewrite (outside_filter (cv_elements v) g (g + 1)) by (done || lia).
    apply list_filter_iff. intros x. lia.
Qed.

End CountingFacts.

Section ExtensionalityFacts.
Context {ET : Type}.
Implicit Types (l : list (Z * ET)).

Lemma stored_above l (g : Z) : Forall (fun e => g < e.1) l -> stored l g = None.
Proof.
  intros Hall. apply stored_None. eapply Forall_impl; [exact Hall|]. simpl. intros; lia.
Qed.

(** A sorted element array is determined by the values it stores. *)
Lemma ascending_ext l1 l2 :
  CV.ascending l1 -> CV.ascending l2 ->
  (forall g, stored l1 g = stored l2 g) -> l1 = l2.
Proof.
  revert l2. induction l1 as [|e1 l1 IH]; intros [|e2 l2] H1 H2 Heq; [done| | |].
  - specialize (Heq e2.1). simpl in Heq. by rewrite decide_True in Heq.
  - specialize (Heq e1.1). simpl in Heq. by rewrite decide_True in Heq.
  - destruct H1 as [Hhd1 Htl1], H2 as [Hhd2 Htl2].
    assert (Hidx : e1.1 = e2.1).
    { destruct (Z.lt_trichotomy e1.1 e2.1) as [Hlt|[?|Hgt]]; [exfalso|done|exfalso].
      - specialize (Heq e1.1). simpl in Heq. rewrite decide_True in Heq by done.
        rewrite decide_False in Heq by lia. rewrite stored_above in Heq; [done|].
        eapply Forall_impl; [exact Hhd2|]. simpl. intros; lia.
      - specialize (Heq e2.1). simpl in Heq. rewrite (decide_True (P := e2.1 = e2.1)) in Heq by done.
        rewrite decide_False in Heq by lia. rewrite stored_above in Heq; [done|].
        eapply Forall_impl; [exact Hhd1|]. simpl. intros; lia. }
    assert (Hval : e1.2 = e2.2).
    { specialize (Heq e1.1). simpl in Heq. rewrite !decide_True in Heq by done. congruence. }
    f_equal; [destruct e1, e2; simpl in *; congruence|].
    apply IH; [done|done|]. intros g. specialize (Heq g). simpl in Heq.
    destruct (decide (e1.1 = g)) as [<-|Hne].
    + rewrite (stored_above l1), (stored_above l2); [done| |done].
      eapply Forall_impl; [exact Hhd2|]. simpl. intros; lia.
    + by rewrite decide_False in Heq by congruence.
Qed.

Lemma stored_lookup l (pos : nat) (g : Z) (x : ET) :
  CV.ascending l -> l !! pos = Some (g, x) -> stored l g = Some x.
Proof.
  revert pos. induction l as [|e l IH]; intros [|pos] Hasc He; simplify_eq/=.
  - by rewrite decide_True.
  - destruct Hasc as [Hhd Htl]. rewrite decide_False; [by eapply IH|].
    rewrite Forall_forall in Hhd. apply list_elem_of_lookup_2 in He.
    specialize (Hhd _ He). simpl in Hhd. lia.
Qed.

Lemma stored_elem_of l (g : Z) (x : ET) :
  CV.ascending l -> stored l g = Some x <-> (g, x) ∈ l.
Proof.
  intros Hasc. split.
  - clear Hasc. induction l as [|e l IH]; simpl; [done|].
    destruct (decide (e.1 = g)) as [<-|].
    + intros [= <-]. destruct e. apply elem_of_cons. by left.
    + intros Hs. apply elem_of_cons. right. by apply IH.
  - intros Hin. apply list_elem_of_lookup in Hin as [pos Hpos]. by eapply stored_lookup.
Qed.

End ExtensionalityFacts.

Section ElementFacts.
Context {ET : Type} `{!Numeric ET}.
Variable cfg : Assertions.
Implicit Types (sv : SparseSubvector) (v : CompressedVector ET) (m : memory ET).

Lemma nonZeros_run sv m v :
  m !! vector_ sv = Some v -> CV.wf v -> view_invariant sv v ->
  SV.nonZeros sv m
  = (Ok (Z.of_nat (length (filter (fun e => in_range sv e.1) (cv_elements v)))), m) /\
  Z.of_nat (length (filter (fun e => in_range sv e.1) (cv_elements v))) <= size_ sv.
Proof.
  intros Hm Hwf Hinv. pose proof Hinv as (H0 & Hn & Hle).
  pose proof Hwf as (Hsz & Hidx & Hasc).
  assert (Hbound : Z.of_nat (length (filter (fun e => in_range sv e.1) (cv_elements v)))
                   <= size_ sv).
  { pose proof (ascending_range_length
                  (filter (fun e => in_range sv e.1) (cv_elements v))
                  (start_ sv) (start_ sv + size_ sv)) as Hlen.
    rewrite Z.max_r in Hlen by lia.
    replace (start_ sv + size_ sv - start_ sv) with (size_ sv) in Hlen by lia.
    apply Hlen; [by apply ascending_filter|].
    apply Forall_forall. intros e He. by apply list_elem_of_filter in He as [? _]. }
  split; [|done].
  unfold SV.nonZeros, bind. rewrite (end_run sv m v), (begin_run sv m v) by done.
  unfold ret, iterator_difference. simpl. do 2 f_equal.
  rewrite (view_end_no_wrap sv v) by done. unfold CV.lowerBound.
  unfold in_range in *.
  rewrite <- (range_filter (cv_elements v) (start_ sv) (start_ sv + size_ sv)) in *
    by (done || lia).
  pose proof (lower_pos_mono (cv_elements v) (start_ sv) (start_ sv + size_ sv)) as Hmono.
  pose proof (lower_pos_length (cv_elements v) (start_ sv + size_ sv)) as Hlen.
  rewrite length_take, length_drop in *.
  rewrite Z.mod_small; unfold size_t_modulus in *; lia.
Qed.

Lemma at_const_out_of_range sv m v i :
  m !! vector_ sv = Some v -> CV.wf v -> view_invariant sv v ->
  size_ sv <= i -> start_ sv + i < cv_size v ->
  SV.at_const cfg sv i m
  = if BLAZE_USER_ASSERTION cfg
    then (AssertionFailed "Invalid subvector access index", m)
    else (Ok (CV.at_const v (start_ sv + i)), m).
Proof.
  intros Hm (Hsz & _) (H0 & Hn & Hle) Hi Hin. unfold SV.at_const, SV.size.
  rewrite (bool_decide_eq_false_2 (i < size_ sv)) by lia.
  destruct (BLAZE_USER_ASSERTION cfg); [done|]. simpl.
  unfold bind at 1. unfold ret at 1. rewrite (run_load m _ v) by done.
  by rewrite size_t_add_small by lia.
Qed.

Lemma erase_run sv m v i :
  m !! vector_ sv = Some v -> CV.wf v ->
  0 <= start_ sv -> 0 <= i -> start_ sv + i < size_t_modulus ->
  SV.erase sv i m
  = (Ok tt, <[vector_ sv :=
       {| cv_size := cv_size v;
          cv_elements := filter (fun e => e.1 <> start_ sv + i) (cv_elements v) |}]> m).
Proof.
  intros Hm (Hsz & Hidx & Hasc) H0 Hi Hsum. unfold SV.erase.
  rewrite (run_load m _ v) by done. rewrite size_t_add_small by done.
  by rewrite erase_index_filter.
Qed.

End ElementFacts.

Section InsertEraseFacts.
Context {ET : Type} `{!Numeric ET}.
Implicit Types (sv : SparseSubvector) (v : CompressedVector ET) (m : memory ET).

Lemma stored_erased (l : list (Z * ET)) (g g' : Z) :
  stored (filter (fun e => e.1 <> g) l) g' = if decide (g' = g) then None else stored l g'.
Proof.
  rewrite (stored_filter _ (fun g' => g' <> g)) by done.
  destruct (decide (g' = g)) as [->|Hne].
  - by rewrite decide_False by (by intros ?).
  - by rewrite decide_True.
Qed.

Lemma insert_then_erase_run sv m v i x :
  m !! vector_ sv = Some v -> CV.wf v -> view_invariant sv v -> 0 <= i < size_ sv ->
  stored (cv_elements v) (start_ sv + i) = None ->
  (SV.insert sv i x;; SV.erase sv i) m = (Ok tt, m).
Proof.
  intros Hm Hwf Hinv Hi Hnone. pose proof Hinv as (H0 & Hn & Hle).
  pose proof Hwf as (Hsz & Hidx & Hasc).
  destruct (insert_fresh v (start_ sv + i) x) as (v' & Hins & Hsize & Hasc' & Hsub & Hst);
    [done|done|].
  assert (Hwf' : CV.wf v').
  { apply (wf_insert_fresh v v' (start_ sv + i)); try done; [lia|].
    intros e He. destruct (Hsub e He) as [->|?]; [by left|by right]. }
  unfold bind. unfold SV.insert at 1. rewrite (run_load m _ v) by done.
  rewrite (view_index_no_wrap sv v i) by done. rewrite Hins.
  unfold bind, store, ret.
  rewrite (erase_run sv _ v' i) by (rewrite ?lookup_insert_eq; done || lia).
  rewrite insert_insert_eq. f_equal. apply insert_id. rewrite Hm. f_equal.
  destruct v as [n l]. simpl in *. rewrite Hsize. f_equal.
  symmetry. apply ascending_ext; [by apply ascending_filter|done|].
  intros g. rewrite stored_erased, Hst.
  destruct (decide (g = start_ sv + i)) as [->|]; done.
Qed.

Lemma erase_then_insert_run sv m v i x :
  m !! vector_ sv = Some v -> CV.wf v -> view_invariant sv v -> 0 <= i < size_ sv ->
  stored (cv_elements v) (start_ sv + i) = Some x ->
  (SV.erase sv i;; SV.insert sv i x) m = (Ok (CV.find v (start_ sv + i)), m).
Proof.
  intros Hm Hwf Hinv Hi Hsome. pose proof Hinv as (H0 & Hn & Hle).
  pose proof Hwf as (Hsz & Hidx & Hasc).
  set (g := start_ sv + i) in *.
  set (v0 := {| cv_size := cv_size v;
                cv_elements := filter (fun e => e.1 <> g) (cv_elements v) |}).
  assert (Hasc0 : CV.ascending (cv_elements v0)) by (by apply ascending_filter).
  destruct (insert_fresh v0 g x) as (v' & Hins & Hsize & Hasc' & Hsub & Hst); [done| |].
  { simpl. rewrite stored_erased. by rewrite decide_True. }
  assert (Hv' : v' = v).
  { destruct v as [n l], v' as [n' l']. simpl in *. f_equal; [done|].
    apply ascending_ext; [done|done|]. intros g'. rewrite Hst, stored_erased.
    destruct (decide (g' = g)) as [->|]; done. }
  assert (Hpos : CV.lowerBound v0 g = CV.find v g).
  { destruct (find_cases v g) as [Hend | (Hpos & _)].
    - apply find_end_stored in Hend; [congruence|done].
    - rewrite Hpos. unfold CV.lowerBound. simpl.
      clear -Hasc. induction (cv_elements v) as [|e l IH]; [done|].
      destruct Hasc as [Hhd Htl]. simpl.
      destruct (decide (e.1 <> g)) as [Hne|Heq].
      + rewrite filter_cons_True by done. simpl. case_bool_decide; [by rewrite IH|done].
      + rewrite filter_cons_False by done.
        rewrite bool_decide_eq_false_2 by lia.
        destruct l as [|e1 l]; [done|]. apply Forall_cons in Hhd as [H1 _].
        rewrite filter_cons_True by lia. simpl. by rewrite bool_decide_eq_false_2 by lia. }
  unfold bind. rewrite (erase_run sv m v i) by (done || lia). fold g v0.
  unfold SV.insert. rewrite (run_load _ _ v0) by (by rewrite lookup_insert_eq).
  rewrite (view_index_no_wrap sv v i) by done. fold g. rewrite Hins.
  unfold bind, store, ret. rewrite insert_insert_eq, Hv', Hpos. f_equal.
  by apply insert_id.
Qed.

End InsertEraseFacts.

(** [nonZeros()] is the number of stored elements of the range, which is
    the number of elements the traversal of the view yields, and it is at
    most the size of the view. *)
Lemma nonZeros_counts_range {ET} cfg (sv : SparseSubvector) (m : memory ET)
  (v : CompressedVector ET) :
  m !! vector_ sv = Some v -> CV.wf v -> view_invariant sv v ->
  exists k out,
    SV.nonZeros sv m = (Ok k, m) /\
    SV.elements cfg sv m = (Ok out, m) /\
    k = Z.of_nat (length out) /\
    k = Z.of_nat (length (filter (fun e => in_range sv e.1) (cv_elements v))) /\
    0 <= k <= size_ sv.
Proof.
  intros Hm Hwf Hinv. destruct (nonZeros_run sv m v Hm Hwf Hinv) as [Hrun Hle].
  eexists _, _. split; [exact Hrun|]. split; [by apply elements_run|].
  split; [by rewrite length_fmap|]. split; [done|lia].
Qed.

Lemma nonZeros_counts_range_witness :
  exists k out,
    SV.nonZeros example_view example_memory = (Ok k, example_memory) /\
    SV.elements all_assertions example_view example_memory = (Ok out, example_memory) /\
    k = Z.of_nat (length out) /\
    k = Z.of_nat (length (filter (fun e => in_range example_view e.1)
                            (cv_elements example_vector))) /\
    0 <= k <= size_ example_view.
Proof.
  apply (nonZeros_counts_range all_assertions example_view example_memory example_vector).
  - reflexivity.
  - concrete_wf.
  - concrete_view.
Defined.

(** The subscript operator of a constant view checks its index by a user
    assertion only: at an index past the size of the view it stops at the
    assertion when user assertions are compiled in, and otherwise it reads
    the element of the backing vector behind the range of the view. *)
Lemma subscript_checks_bounds_by_assertion {ET} `{!Numeric ET} cfg (sv : SparseSubvector)
  (m : memory ET) (v : CompressedVector ET) (i : Z) :
  m !! vector_ sv = Some v -> CV.wf v -> view_invariant sv v ->
  size_ sv <= i -> start_ sv + i < cv_size v ->
  SV.at_const cfg sv i m
  = if BLAZE_USER_ASSERTION cfg
    then (AssertionFailed "Invalid subvector access index", m)
    else (Ok (CV.at_const v (start_ sv + i)), m).
Proof. apply at_const_out_of_range. Qed.

Lemma subscript_checks_bounds_by_assertion_witness :
  SV.at_const no_assertions example_view 4 example_memory
  = if BLAZE_USER_ASSERTION no_assertions
    then (AssertionFailed "Invalid subvector access index", example_memory)
    else (Ok (CV.at_const example_vector (start_ example_view + 4)), example_memory).
Proof.
  apply (subscript_checks_bounds_by_assertion no_assertions example_view example_memory
           example_vector 4).
  - reflexivity.
  - concrete_wf.
  - concrete_view.
  - simpl. lia.
  - simpl. lia.
Defined.

(** In the scenario of the specification the view covers the indices 3..6;
    its index 4 is the index 7 of the vector, whose value 3 is read when
    the assertions are compiled out. *)
Example subscript_past_the_view :
  SV.at_const no_assertions example_view 4 example_memory = (Ok 3, example_memory) /\
  SV.at_const all_assertions example_view 4 example_memory
  = (AssertionFailed "Invalid subvector access index", example_memory).
Proof. split; reflexivity. Qed.

(** [erase( index )] removes the element of the backing vector with the
    global index start+index and no other element, and the index reads as
    the default value afterwards; an index that is not stored changes
    nothing. The index is not compared with the size of the view. *)
Lemma erase_removes_element {ET} `{!Numeric ET} (sv : SparseSubvector) (m : memory ET)
  (v : CompressedVector ET) (i : Z) :
  m !! vector_ sv = Some v -> CV.wf v ->
  0 <= start_ sv -> 0 <= i -> start_ sv + i < size_t_modulus ->
  exists v',
    SV.erase sv i m = (Ok tt, <[vector_ sv := v']> m) /\
    CV.wf v' /\ cv_size v' = cv_size v /\
    cv_elements v' = filter (fun e => e.1 <> start_ sv + i) (cv_elements v) /\
    CV.at_const v' (start_ sv + i) = zero /\
    (stored (cv_elements v) (start_ sv + i) = None -> v' = v).
Proof.
  intros Hm Hwf H0 Hi Hsum. eexists. split; [by apply erase_run|].
  split; [by apply wf_filter|]. split; [done|]. split; [done|]. split.
  - rewrite at_const_stored by (by apply ascending_filter, Hwf).
    simpl. rewrite stored_erased. by rewrite decide_True.
  - intros Hnone. destruct v as [n l]. simpl in *. f_equal.
    apply filter_all. by apply stored_None.
Qed.

Lemma erase_removes_element_witness :
  exists v',
    SV.erase example_view 4 example_memory
    = (Ok tt, <[vector_ example_view := v']> example_memory) /\
    CV.wf v' /\ cv_size v' = cv_size example_vector /\
    cv_elements v'
    = filter (fun e => e.1 <> start_ example_view + 4) (cv_elements example_vector) /\
    CV.at_const v' (start_ example_view + 4) = zero /\
    (stored (cv_elements example_vector) (start_ example_view + 4) = None ->
     v' = example_vector).
Proof.
  apply (erase_removes_element example_view example_memory example_vector 4).
  - reflexivity.
  - concrete_wf.
  - simpl. lia.
  - lia.
  - unfold size_t_modulus. simpl. lia.
Defined.

(** The view of the indices 3..6 erases the element (5,-1) by its index 2,
    and by the index 4 the element (7,3), which lies behind its range. *)
Example erase_examples :
  SV.erase example_view 2 example_memory
  = (Ok tt, {[ 0%nat := {| cv_size := 10; cv_elements := [(2, 5); (7, 3)] |} ]}) /\
  SV.erase example_view 4 example_memory
  = (Ok tt, {[ 0%nat := {| cv_size := 10; cv_elements := [(2, 5); (5, -1)] |} ]}).
Proof. split; vm_compute; reflexivity. Qed.

(** [insert] and [erase] at one index undo each other: erasing an element
    that was just inserted, and inserting again the value of an element
    that was just erased, give back the memory as it was. *)
Lemma insert_and_erase_undo_each_other {ET} `{!Numeric ET} (sv : SparseSubvector)
  (m : memory ET) (v : CompressedVector ET) (i : Z) :
  m !! vector_ sv = Some v -> CV.wf v -> view_invariant sv v -> 0 <= i < size_ sv ->
  (stored (cv_elements v) (start_ sv + i) = None ->
   forall x, (SV.insert sv i x;; SV.erase sv i) m = (Ok tt, m)) /\
  (forall x, stored (cv_elements v) (start_ sv + i) = Some x ->
   (SV.erase sv i;; SV.insert sv i x) m = (Ok (CV.find v (start_ sv + i)), m)).
Proof.
  intros Hm Hwf Hinv Hi. split.
  - intros Hnone x. by apply (insert_then_erase_run sv m v).
  - intros x Hsome. by apply (erase_then_insert_run sv m v).
Qed.

Lemma insert_and_erase_undo_each_other_witness :
  (stored (cv_elements example_vector) (start_ example_view + 2) = None ->
   forall x, (SV.insert example_view 2 x;; SV.erase example_view 2) example_memory
             = (Ok tt, example_memory)) /\
  (forall x, stored (cv_elements example_vector) (start_ example_view + 2) = Some x ->
   (SV.erase example_view 2;; SV.insert example_view 2 x) example_memory
   = (Ok (CV.find example_vector (start_ example_view + 2)), example_memory)).
Proof.
  apply (insert_and_erase_undo_each_other example_view example_memory example_vector 2).
  - reflexivity.
  - concrete_wf.
  - concrete_view.
  - simpl. lia.
Defined.

Example insert_and_erase_examples :
  (SV.insert example_view 0 9;; SV.erase example_view 0) example_memory
  = (Ok tt, example_memory) /\
  (SV.erase example_view 2;; SV.insert example_view 2 (-1)) example_memory
  = (Ok 1%nat, example_memory).
Proof. split; vm_compute; reflexivity. Qed.

(** ** Iterators, elements and the subscript operator *)

Section IteratorFacts.
Context {ET : Type} `{!Numeric ET}.
Variable cfg : Assertions.
Implicit Types (sv : SparseSubvector) (v : CompressedVector ET) (m : memory ET).

Lemma stored_find v (g : Z) (x : ET) :
  CV.ascending (cv_elements v) -> stored (cv_elements v) g = Some x ->
  cv_elements v !! CV.find v g = Some (g, x) /\
  CV.find v g = CV.lowerBound v g /\ CV.find v g <> CV.end_ v.
Proof.
  intros Hasc Hst. pose proof (find_stored v g Hasc) as Hf. rewrite Hst in Hf. simpl in Hf.
  split; [done|]. destruct (find_cases v g) as [Hend | (Hpos & _)].
  - apply find_end_stored in Hend; [congruence|done].
  - split; [done|]. apply lookup_lt_Some in Hf. unfold CV.end_. lia.
Qed.

(** The position of a stored element of the range lies before the end of
    the view. *)
Lemma stored_before_end sv v (g : Z) (x : ET) :
  CV.ascending (cv_elements v) -> g < start_ sv + size_ sv ->
  stored (cv_elements v) g = Some x ->
  (CV.find v g < CV.lowerBound v (start_ sv + size_ sv))%nat.
Proof.
  intros Hasc Hg Hst. destruct (stored_find v g x Hasc Hst) as (He & Hpos & _).
  rewrite Hpos in *. unfold CV.lowerBound in *.
  pose proof (lower_pos_mono (cv_elements v) g (start_ sv + size_ sv)) as Hmono.
  destruct (decide (CV.lower_pos (cv_elements v) g
                    = CV.lower_pos (cv_elements v) (start_ sv + size_ sv))) as [Heq|]; [|lia].
  exfalso. pose proof (lower_pos_drop (cv_elements v) (start_ sv + size_ sv) Hasc) as Hd.
  rewrite <- Heq in Hd. rewrite (drop_S _ _ _ He) in Hd.
  apply Forall_cons in Hd as [Hd _]. simpl in Hd. lia.
Qed.

Lemma find_run sv m v i :
  m !! vector_ sv = Some v -> CV.wf v -> view_invariant sv v -> 0 <= i < size_ sv ->
  SV.find sv i m
  = (Ok (if decide (stored (cv_elements v) (start_ sv + i) = None)
         then {| pos_ := CV.lowerBound v (start_ sv + size_ sv); offset_ := start_ sv |}
         else {| pos_ := CV.find v (start_ sv + i); offset_ := start_ sv |}), m).
Proof.
  intros Hm Hwf Hinv Hi. pose proof Hwf as (Hsz & Hidx & Hasc).
  unfold SV.find. rewrite (run_load m _ v) by done.
  rewrite (view_index_no_wrap sv v i) by done.
  destruct (decide (stored (cv_elements v) (start_ sv + i) = None)) as [Hnone|Hsome].
  - rewrite bool_decide_eq_true_2 by (by apply find_end_stored). simpl.
    rewrite (end_run sv m v) by done. by rewrite (view_end_no_wrap sv v).
  - rewrite bool_decide_eq_false_2; [done|]. by rewrite find_end_stored.
Qed.

Lemma index_run sv m v pos e :
  m !! vector_ sv = Some v -> cv_elements v !! pos = Some e ->
  0 <= start_ sv <= e.1 -> e.1 < size_t_modulus ->
  SV.index sv {| element_pos_ := pos; element_offset_ := start_ sv |} m
  = (Ok (e.1 - start_ sv), m).
Proof.
  intros Hm He Hle Hlt. unfold SV.index. simpl.
  unfold bind. rewrite (pointee_run sv m v pos e) by done.
  unfold ret. by rewrite size_t_sub_small by lia.
Qed.

Lemma value_run sv m v pos e offset :
  m !! vector_ sv = Some v -> cv_elements v !! pos = Some e ->
  SV.value sv {| element_pos_ := pos; element_offset_ := offset |} m = (Ok e.2, m).
Proof.
  intros Hm He. unfold SV.value. simpl.
  unfold bind. by rewrite (pointee_run sv m v pos e).
Qed.

Lemma update_value_run sv m v pos e offset (f : ET -> ET) :
  m !! vector_ sv = Some v -> cv_elements v !! pos = Some e ->
  SV.update_value sv {| element_pos_ := pos; element_offset_ := offset |} f m
  = (Ok tt, <[vector_ sv :=
       {| cv_size := cv_size v;
          cv_elements := <[pos := (e.1, f e.2)]> (cv_elements v) |}]> m).
Proof.
  intros Hm He. unfold SV.update_value. simpl.
  rewrite (run_load m _ v) by done. by rewrite He.
Qed.

Lemma indices_updated (l : list (Z * ET)) (pos : nat) e (y : ET) :
  l !! pos = Some e -> (<[pos := (e.1, y)]> l).*1 = l.*1.
Proof.
  intros He. rewrite list_fmap_insert. simpl.
  apply list_insert_id. by rewrite list_lookup_fmap, He.
Qed.

Lemma ascending_indices (l l' : list (Z * ET)) :
  l.*1 = l'.*1 -> CV.ascending l -> CV.ascending l'.
Proof.
  revert l'. induction l as [|e l IH]; intros [|e' l'] Heq; try done.
  rewrite !fmap_cons in Heq. injection Heq as He Hl.
  intros [Hhd Htl]. split; [|by apply IH].
  rewrite Forall_forall in Hhd. apply Forall_forall. intros x Hx.
  assert (Hin : x.1 ∈ l.*1).
  { rewrite Hl. apply list_elem_of_fmap. by exists x. }
  apply list_elem_of_fmap in Hin as (x0 & Hx0 & Hin). specialize (Hhd x0 Hin). lia.
Qed.

Lemma stored_updated (l : list (Z * ET)) (pos : nat) (g : Z) (x y : ET) (g' : Z) :
  CV.ascending l -> l !! pos = Some (g, x) ->
  stored (<[pos := (g, y)]> l) g' = if decide (g' = g) then Some y else stored l g'.
Proof.
  intros Hasc He.
  assert (Hasc' : CV.ascending (<[pos := (g, y)]> l)).
  { eapply ascending_indices; [|exact Hasc]. symmetry.
    by apply (indices_updated l pos (g, x) y). }
  assert (Hlen : (pos < length l)%nat) by (by eapply lookup_lt_Some).
  destruct (decide (g' = g)) as [->|Hne].
  - apply (stored_lookup _ pos); [done|]. by rewrite list_lookup_insert_eq.
  - destruct (stored l g') as [z|] eqn:Hz.
    + apply stored_elem_of in Hz; [|done]. apply stored_elem_of; [done|].
      apply list_elem_of_lookup in Hz as [k Hk]. apply list_elem_of_lookup. exists k.
      rewrite list_lookup_insert_ne; [done|]. intros ->. congruence.
    + destruct (stored (<[pos := (g, y)]> l) g') as [z|] eqn:Hz'; [exfalso|done].
      apply stored_elem_of in Hz'; [|done].
      apply list_elem_of_lookup in Hz' as [k Hk].
      destruct (decide (k = pos)) as [->|Hk'].
      * rewrite list_lookup_insert_eq in Hk by done. congruence.
      * rewrite list_lookup_insert_ne in Hk by done.
        assert (Hin : stored l g' = Some z).
        { apply stored_elem_of; [done|]. by eapply list_elem_of_lookup_2. }
        congruence.
Qed.

Lemma wf_indices v v' :
  cv_size v' = cv_size v -> (cv_elements v').*1 = (cv_elements v).*1 -> CV.wf v -> CV.wf v'.
Proof.
  intros Hsize Hidx (Hsz & Hall & Hasc). split; [lia|]. split.
  - rewrite Hsize. apply Forall_forall. intros e He.
    assert (Hin : e.1 ∈ (cv_elements v).*1).
    { rewrite <- Hidx. apply list_elem_of_fmap. by exists e. }
    apply list_elem_of_fmap in Hin as (e0 & -> & Hin).
    rewrite Forall_forall in Hall. by apply Hall.
  - by eapply ascending_indices.
Qed.

Lemma at_run sv m v i :
  m !! vector_ sv = Some v -> CV.wf v -> view_invariant sv v -> 0 <= i < size_ sv ->
  let g := start_ sv + i in
  exists pos v',
    SV.at_ cfg sv i m = (Ok pos, <[vector_ sv := v']> m) /\
    CV.wf v' /\ cv_size v' = cv_size v /\
    cv_elements v' !! pos = Some (g, CV.at_const v g) /\
    (forall g', stored (cv_elements v') g'
                = if decide (g' = g) then Some (CV.at_const v g)
                  else stored (cv_elements v) g') /\
    (is_Some (stored (cv_elements v) g) -> v' = v) /\
    (stored (cv_elements v) g = None ->
     length (cv_elements v') = S (length (cv_elements v))).
Proof.
  intros Hm Hwf Hinv Hi g. pose proof Hinv as (H0 & Hn & Hle).
  pose proof Hwf as (Hsz & Hidx & Hasc).
  unfold SV.at_, SV.size. rewrite (bool_decide_eq_true_2 (i < size_ sv)) by lia.
  rewrite andb_false_r. unfold bind at 1. unfold ret at 1.
  rewrite (run_load m _ v) by done. rewrite (view_index_no_wrap sv v i) by done. fold g.
  unfold CV.at_. rewrite (at_const_stored v g Hasc).
  destruct (stored (cv_elements v) g) as [x|] eqn:Hst.
  - destruct (stored_find v g x Hasc Hst) as (He & _ & Hne).
    assert (CV.insert v g zero = None) as ->.
    { unfold CV.insert. by rewrite bool_decide_eq_false_2. }
    exists (CV.find v g), v. simpl. split; [done|]. split; [done|]. split; [done|].
    split; [done|]. split; [|split; [done|done]].
    intros g'. destruct (decide (g' = g)) as [->|]; done.
  - destruct (insert_fresh v g zero Hasc Hst) as (v' & Hins & Hsize & Hasc' & Hsub & Hst').
    rewrite Hins. exists (CV.lowerBound v g), v'. simpl.
    split; [done|]. split.
    { apply (wf_insert_fresh v v' g); try done; [unfold g; lia|].
      intros e He. destruct (Hsub e He) as [->|?]; [by left|by right]. }
    split; [done|].
    assert (Hv' : cv_elements v'
                  = take (CV.lowerBound v g) (cv_elements v)
                    ++ (g, zero) :: drop (CV.lowerBound v g) (cv_elements v)).
    { unfold CV.insert in Hins.
      rewrite bool_decide_eq_true_2 in Hins by (by apply find_end_stored).
      by injection Hins as <-. }
    pose proof (lower_pos_length (cv_elements v) g) as Hlen.
    split; [|split; [done|split; [by intros [? ?]|]]].
    + rewrite Hv'. rewrite lookup_app_r by (rewrite length_take; unfold CV.lowerBound; lia).
      rewrite length_take. unfold CV.lowerBound.
      by replace (_ - _)%nat with 0%nat by lia.
    + intros _. rewrite Hv'. rewrite length_app. simpl.
      rewrite length_take, length_drop. unfold CV.lowerBound. lia.
Qed.

End IteratorFacts.

(** [find(i)] and the element it leads to: when no element is stored at
    the global index start+i, [find(i)] is the [end()] of the view;
    otherwise it differs from [end()], and the element it dereferences to
    reports the local index i and the stored value. *)
Lemma find_dereference_round_trip {ET} cfg (sv : SparseSubvector) (m : memory ET)
  (v : CompressedVector ET) (i : Z) :
  m !! vector_ sv = Some v -> CV.wf v -> view_invariant sv v -> 0 <= i < size_ sv ->
  exists it last,
    SV.find sv i m = (Ok it, m) /\ SV.end_ sv m = (Ok last, m) /\
    (stored (cv_elements v) (start_ sv + i) = None -> it = last) /\
    (forall x, stored (cv_elements v) (start_ sv + i) = Some x ->
       iterator_neqb it last = true /\
       exists el,
         SV.dereference cfg sv it m = (Ok el, m) /\
         SV.index sv el m = (Ok i, m) /\
         SV.value sv el m = (Ok x, m)).
Proof.
  intros Hm Hwf Hinv Hi. pose proof Hinv as (H0 & Hn & Hle).
  pose proof Hwf as (Hsz & Hidx & Hasc).
  eexists _, _. split; [by apply find_run|].
  split; [rewrite (end_run sv m v) by done; by rewrite (view_end_no_wrap sv v)|].
  split.
  - intros Hnone. by rewrite decide_True.
  - intros x Hsome. rewrite decide_False by congruence.
    destruct (stored_find v _ x Hasc Hsome) as (He & _ & _).
    assert (Hlt : (CV.find v (start_ sv + i) < CV.lowerBound v (start_ sv + size_ sv))%nat).
    { apply (stored_before_end sv v (start_ sv + i) x); [done|lia|done]. }
    split.
    + unfold iterator_neqb, iterator_eqb. simpl. by rewrite bool_decide_eq_false_2 by lia.
    + eexists. split; [by apply (dereference_run cfg sv m v _ _ Hm He); simpl; lia|].
      split.
      * rewrite (index_run sv m v _ _ Hm He); simpl; [do 2 f_equal; lia|lia|].
        rewrite Forall_forall in Hidx. apply list_elem_of_lookup_2 in He.
        specialize (Hidx _ He). simpl in Hidx. lia.
      * by rewrite (value_run sv m v _ _ _ Hm He).
Qed.

Lemma find_dereference_round_trip_witness :
  exists it last,
    SV.find example_view 2 example_memory = (Ok it, example_memory) /\
    SV.end_ example_view example_memory = (Ok last, example_memory) /\
    (stored (cv_elements example_vector) (start_ example_view + 2) = None -> it = last) /\
    (forall x, stored (cv_elements example_vector) (start_ example_view + 2) = Some x ->
       iterator_neqb it last = true /\
       exists el,
         SV.dereference all_assertions example_view it example_memory
         = (Ok el, example_memory) /\
         SV.index example_view el example_memory = (Ok 2, example_memory) /\
         SV.value example_view el example_memory = (Ok x, example_memory)).
Proof.
  apply (find_dereference_round_trip all_assertions example_view example_memory
           example_vector 2).
  - reflexivity.
  - concrete_wf.
  - concrete_view.
  - simpl. lia.
Defined.

(** The assignment operators of the element an iterator dereferences to
    write the one value of the backing vector the iterator points to: the
    stored indices stay as they are, the element at start+i takes the new
    value, which the view reads back, and every other element keeps its
    value. The division assignment does so where the division of the
    stored value is defined, and is undefined behaviour where it is not
    (an integer divided by zero). *)
Lemma element_assignment_writes_one_value {ET Other} `{!Numeric ET} `{!Scalar ET Other}
  cfg (sv : SparseSubvector) (m : memory ET) (v : CompressedVector ET) (i : Z)
  (x y : ET) (s : Other) :
  m !! vector_ sv = Some v -> CV.wf v -> view_invariant sv v -> 0 <= i < size_ sv ->
  stored (cv_elements v) (start_ sv + i) = Some x ->
  exists it el,
    SV.find sv i m = (Ok it, m) /\
    SV.dereference cfg sv it m = (Ok el, m) /\
    let written (c : M ET unit) (z : ET) :=
      exists v',
        c m = (Ok tt, <[vector_ sv := v']> m) /\
        cv_size v' = cv_size v /\
        (cv_elements v').*1 = (cv_elements v).*1 /\
        (forall g, stored (cv_elements v') g
                   = if decide (g = start_ sv + i) then Some z
                     else stored (cv_elements v) g) /\
        SV.at_const cfg sv i (<[vector_ sv := v']> m) = (Ok z, <[vector_ sv := v']> m) in
    written (SV.element_assign sv el y) y /\
    written (SV.element_add_assign sv el y) (plus x y) /\
    written (SV.element_sub_assign sv el y) (minus x y) /\
    written (SV.element_mul_assign sv el s) (mul_assign x s) /\
    (div_defined x s = true ->
     written (SV.element_div_assign sv el s) (div_assign x s)) /\
    (div_defined x s = false -> SV.element_div_assign sv el s m = (Undefined, m)).
Proof.
  intros Hm Hwf Hinv Hi Hsome. pose proof Hinv as (H0 & Hn & Hle).
  pose proof Hwf as (Hsz & Hidx & Hasc).
  destruct (stored_find v _ x Hasc Hsome) as (He & _ & _).
  eexists _, _. split; [by apply find_run|]. rewrite decide_False by congruence.
  split; [by apply (dereference_run cfg sv m v _ _ Hm He); simpl; lia|].
  assert (Hupd : forall f : ET -> ET,
    exists v',
      SV.update_value sv
        {| element_pos_ := CV.find v (start_ sv + i); element_offset_ := start_ sv |} f m
      = (Ok tt, <[vector_ sv := v']> m) /\
      cv_size v' = cv_size v /\
      (cv_elements v').*1 = (cv_elements v).*1 /\
      (forall g, stored (cv_elements v') g
                 = if decide (g = start_ sv + i) then Some (f x)
                   else stored (cv_elements v) g) /\
      SV.at_const cfg sv i (<[vector_ sv := v']> m) = (Ok (f x), <[vector_ sv := v']> m)).
  { intros f. eexists. split; [by apply (update_value_run sv m v _ _ _ f Hm He)|].
    simpl. split; [done|].
    assert (Hind : (<[CV.find v (start_ sv + i) := (start_ sv + i, f x)]> (cv_elements v)).*1
                   = (cv_elements v).*1).
    { by apply (indices_updated _ _ (start_ sv + i, x)). }
    split; [done|].
    assert (Hst : forall g,
              stored (<[CV.find v (start_ sv + i) := (start_ sv + i, f x)]> (cv_elements v)) g
              = if decide (g = start_ sv + i) then Some (f x) else stored (cv_elements v) g).
    { intros g. by apply (stored_updated _ _ _ x). }
    split; [done|].
    rewrite (at_const_run cfg sv _ _ i (lookup_insert_eq _ _ _)); [|
      by apply (wf_indices v)|done|done].
    rewrite at_const_stored by (by eapply ascending_indices).
    cbn [cv_elements]. rewrite Hst. by rewrite decide_True. }
  assert (Hdiv : SV.element_div_assign sv
            {| element_pos_ := CV.find v (start_ sv + i); element_offset_ := start_ sv |} s m
          = if div_defined x s
            then SV.update_value sv
                   {| element_pos_ := CV.find v (start_ sv + i); element_offset_ := start_ sv |}
                   (fun x => div_assign x s) m
            else (Undefined, m)).
  { unfold SV.element_div_assign, SV.divide_value. unfold bind.
    rewrite (value_run sv m v _ _ _ Hm He). simpl. by destruct (div_defined x s). }
  split; [apply Hupd|]. split; [apply Hupd|]. split; [apply Hupd|]. split; [apply Hupd|].
  split.
  - intros Hdef. rewrite Hdef in Hdiv. cbv zeta. rewrite Hdiv. apply Hupd.
  - intros Hdef. by rewrite Hdef in Hdiv.
Qed.

Lemma element_assignment_writes_one_value_witness :
  exists it el,
    SV.find example_view 2 example_memory = (Ok it, example_memory) /\
    SV.dereference all_assertions example_view it example_memory
    = (Ok el, example_memory) /\
    let written (c : M Z unit) (z : Z) :=
      exists v',
        c example_memory = (Ok tt, <[vector_ example_view := v']> example_memory) /\
        cv_size v' = cv_size example_vector /\
        (cv_elements v').*1 = (cv_elements example_vector).*1 /\
        (forall g, stored (cv_elements v') g
                   = if decide (g = start_ example_view + 2) then Some z
                     else stored (cv_elements example_vector) g) /\
        SV.at_const all_assertions example_view 2
          (<[vector_ example_view := v']> example_memory)
        = (Ok z, <[vector_ example_view := v']> example_memory) in
    written (SV.element_assign example_view el 4) 4 /\
    written (SV.element_add_assign example_view el 4) (plus (-1) 4) /\
    written (SV.element_sub_assign example_view el 4) (minus (-1) 4) /\
    written (SV.element_mul_assign example_view el 6) (mul_assign (-1) 6) /\
    (div_defined (-1) 6 = true ->
     written (SV.element_div_assign example_view el 6) (div_assign (-1) 6)) /\
    (div_defined (-1) 6 = false ->
     SV.element_div_assign example_view el 6 example_memory = (Undefined, example_memory)).
Proof.
  apply (element_assignment_writes_one_value (Other := Z) all_assertions example_view
           example_memory example_vector 2 (-1) 4 6).
  - reflexivity.
  - concrete_wf.
  - concrete_view.
  - simpl. lia.
  - reflexivity.
Defined.

(** The subscript operator of a view that is not constant returns the
    reference to the element of the backing vector at start+i and inserts
    an element with the default value when none is stored there: every
    index reads as before, a stored element leaves the vector as it is,
    and otherwise the vector stores one element more. *)
Lemma subscript_inserts_default {ET} `{!Numeric ET} cfg (sv : SparseSubvector)
  (m : memory ET) (v : CompressedVector ET) (i : Z) :
  m !! vector_ sv = Some v -> CV.wf v -> view_invariant sv v -> 0 <= i < size_ sv ->
  exists pos v',
    SV.at_ cfg sv i m = (Ok pos, <[vector_ sv := v']> m) /\
    CV.wf v' /\ cv_size v' = cv_size v /\
    cv_elements v' !! pos = Some (start_ sv + i, CV.at_const v (start_ sv + i)) /\
    (forall g, CV.at_const v' g = CV.at_const v g) /\
    (is_Some (stored (cv_elements v) (start_ sv + i)) -> v' = v) /\
    (stored (cv_elements v) (start_ sv + i) = None ->
     stored (cv_elements v') (start_ sv + i) = Some zero /\
     length (cv_elements v') = S (length (cv_elements v))).
Proof.
  intros Hm Hwf Hinv Hi.
  destruct (at_run cfg sv m v i Hm Hwf Hinv Hi)
    as (pos & v' & Hrun & Hwf' & Hsize & Hpos & Hst & Hsame & Hlen).
  exists pos, v'. split; [done|]. split; [done|]. split; [done|]. split; [done|].
  split; [|split; [done|]].
  - intros g. rewrite !at_const_stored by (apply Hwf || apply Hwf'). rewrite Hst.
    destruct (decide (g = start_ sv + i)) as [->|]; [|done].
    by rewrite at_const_stored by apply Hwf.
  - intros Hnone. split; [|by apply Hlen]. rewrite Hst, decide_True by done.
    rewrite at_const_stored by apply Hwf. by rewrite Hnone.
Qed.

Lemma subscript_inserts_default_witness :
  exists pos v',
    SV.at_ all_assertions example_view 0 example_memory
    = (Ok pos, <[vector_ example_view := v']> example_memory) /\
    CV.wf v' /\ cv_size v' = cv_size example_vector /\
    cv_elements v' !! pos
    = Some (start_ example_view + 0, CV.at_const example_vector (start_ example_view + 0)) /\
    (forall g, CV.at_const v' g = CV.at_const example_vector g) /\
    (is_Some (stored (cv_elements example_vector) (start_ example_view + 0)) ->
     v' = example_vector) /\
    (stored (cv_elements example_vector) (start_ example_view + 0) = None ->
     stored (cv_elements v') (start_ example_view + 0) = Some zero /\
     length (cv_elements v') = S (length (cv_elements example_vector))).
Proof.
  apply (subscript_inserts_default all_assertions example_view example_memory
           example_vector 0).
  - reflexivity.
  - concrete_wf.
  - concrete_view.
  - simpl. lia.
Defined.

(** Reading the index 0 of the example view through the subscript operator
    of the view that is not constant stores the element (3,0). *)
Example subscript_example :
  SV.at_ all_assertions example_view 0 example_memory
  = (Ok 1%nat, {[ 0%nat := {| cv_size := 10;
                              cv_elements := [(2, 5); (3, 0); (5, -1); (7, 3)] |} ]}).
Proof. vm_compute. reflexivity. Qed.

(** The statement [sv[i] = y] and the read access: afterwards the view
    reads y at i and the values it read before at every other index, and
    the elements of the backing vector with another index than start+i are
    the same as before. *)
Lemma subscript_assignment_round_trip {ET} `{!Numeric ET} cfg (sv : SparseSubvector)
  (m : memory ET) (v : CompressedVector ET) (i : Z) (y : ET) :
  m !! vector_ sv = Some v -> CV.wf v -> view_invariant sv v -> 0 <= i < size_ sv ->
  exists v',
    SV.subscript_assign cfg sv i y m = (Ok tt, <[vector_ sv := v']> m) /\
    CV.wf v' /\ cv_size v' = cv_size v /\
    (forall g, stored (cv_elements v') g
               = if decide (g = start_ sv + i) then Some y else stored (cv_elements v) g) /\
    forall j, 0 <= j < size_ sv ->
      SV.at_const cfg sv j (<[vector_ sv := v']> m)
      = (Ok (if decide (j = i) then y else CV.at_const v (start_ sv + j)),
         <[vector_ sv := v']> m).
Proof.
  intros Hm Hwf Hinv Hi.
  destruct (at_run cfg sv m v i Hm Hwf Hinv Hi)
    as (pos & v1 & Hrun & Hwf1 & Hsize1 & Hpos & Hst1 & _ & _).
  pose proof Hwf1 as (_ & _ & Hasc1).
  set (v' := {| cv_size := cv_size v1;
                cv_elements := <[pos := (start_ sv + i, y)]> (cv_elements v1) |}).
  assert (Hind : (cv_elements v').*1 = (cv_elements v1).*1).
  { by apply (indices_updated _ _ (start_ sv + i, CV.at_const v (start_ sv + i))). }
  assert (Hwf' : CV.wf v') by (by apply (wf_indices v1)).
  assert (Hst : forall g, stored (cv_elements v') g
                          = if decide (g = start_ sv + i) then Some y
                            else stored (cv_elements v) g).
  { intros g. unfold v'. cbn [cv_elements].
    rewrite (stored_updated _ _ _ (CV.at_const v (start_ sv + i))) by done.
    rewrite Hst1. by destruct (decide (g = start_ sv + i)). }
  exists v'. split; [|split; [done|split; [by rewrite <- Hsize1|split; [done|]]]].
  - unfold SV.subscript_assign. unfold bind. rewrite Hrun.
    rewrite (update_value_run sv _ v1 pos _ _ _ (lookup_insert_eq _ _ _) Hpos).
    by rewrite insert_insert_eq.
  - intros j Hj.
    rewrite (at_const_run cfg sv _ v' j (lookup_insert_eq _ _ _)); [|done| |done].
    + do 2 f_equal. rewrite !at_const_stored by (apply Hwf || apply Hwf'). rewrite Hst.
      destruct (decide (j = i)) as [->|Hne].
      * by rewrite decide_True.
      * by rewrite decide_False by lia.
    + unfold view_invariant in *. simpl. rewrite Hsize1. done.
Qed.

Lemma subscript_assignment_round_trip_witness :
  exists v',
    SV.subscript_assign all_assertions example_view 0 8 example_memory
    = (Ok tt, <[vector_ example_view := v']> example_memory) /\
    CV.wf v' /\ cv_size v' = cv_size example_vector /\
    (forall g, stored (cv_elements v') g
               = if decide (g = start_ example_view + 0) then Some 8
                 else stored (cv_elements example_vector) g) /\
    forall j, 0 <= j < size_ example_view ->
      SV.at_const all_assertions example_view j (<[vector_ example_view := v']> example_memory)
      = (Ok (if decide (j = 0) then 8
             else CV.at_const example_vector (start_ example_view + j)),
         <[vector_ example_view := v']> example_memory).
Proof.
  apply (subscript_assignment_round_trip all_assertions example_view example_memory
           example_vector 0 8).
  - reflexivity.
  - concrete_wf.
  - concrete_view.
  - simpl. lia.
Defined.

(** ** Erasing by iterators *)

Section ErasePositionFacts.
Context {ET : Type}.
Implicit Types (l : list (Z * ET)).

(** Erasing the element at a position of a sorted element array removes
    the element with its index. *)
Lemma erase_position_filter l (p : nat) e :
  CV.ascending l -> l !! p = Some e ->
  take p l ++ drop (S p) l = filter (fun e' => e'.1 <> e.1) l.
Proof.
  intros Hasc He. rewrite <- (take_drop_middle l p e He) in Hasc.
  apply ascending_app in Hasc as (_ & [Hhd _] & Hbefore).
  rewrite <- (take_drop_middle l p e He) at 3.
  rewrite filter_app, filter_cons_False by (by intros ?).
  rewrite !filter_all; [done| |].
  - eapply Forall_impl; [exact Hhd|]. simpl. intros; lia.
  - eapply Forall_impl; [exact Hbefore|]. simpl. intros e1 H1.
    apply Forall_cons in H1 as [H1 _]. lia.
Qed.

End ErasePositionFacts.

(** [erase( Iterator pos )] at the iterator [find(i)] returns: for a stored
    element it does what [erase(i)] does, and the iterator it returns is at
    the position of the erased element. When no element is stored at i,
    [find(i)] is the [end()] of the view, which is the position of the
    first element behind the range, and it is this element that is
    erased. *)
Lemma erase_of_found_iterator {ET} (sv : SparseSubvector) (m : memory ET)
  (v : CompressedVector ET) (i : Z) :
  m !! vector_ sv = Some v -> CV.wf v -> view_invariant sv v -> 0 <= i < size_ sv ->
  let erase_found := let* it := SV.find sv i in SV.erase_pos sv it in
  (forall x, stored (cv_elements v) (start_ sv + i) = Some x ->
     erase_found m
     = (Ok {| pos_ := CV.find v (start_ sv + i); offset_ := start_ sv |},
        (SV.erase sv i m).2)) /\
  (stored (cv_elements v) (start_ sv + i) = None ->
   forall e, cv_elements v !! CV.lowerBound v (start_ sv + size_ sv) = Some e ->
     start_ sv + size_ sv <= e.1 /\
     erase_found m
     = (Ok {| pos_ := CV.lowerBound v (start_ sv + size_ sv); offset_ := start_ sv |},
        <[vector_ sv :=
            {| cv_size := cv_size v;
               cv_elements := filter (fun e' => e'.1 <> e.1) (cv_elements v) |}]> m)).
Proof.
  intros Hm Hwf Hinv Hi erase_found. pose proof Hinv as (H0 & Hn & Hle).
  pose proof Hwf as (Hsz & Hidx & Hasc). unfold erase_found. split.
  - intros x Hsome. destruct (stored_find v _ x Hasc Hsome) as (He & _ & _).
    unfold bind at 1. rewrite (find_run sv m v i) by done.
    rewrite decide_False by congruence.
    unfold SV.erase_pos. rewrite (run_load m _ v) by done.
    rewrite (erase_run sv m v i) by (done || lia).
    unfold bind, store, ret, CV.erase_pos, CV.erase. simpl. do 4 f_equal.
    by rewrite (erase_position_filter _ _ _ Hasc He).
  - intros Hnone e He. split.
    + pose proof (lower_pos_drop (cv_elements v) (start_ sv + size_ sv) Hasc) as Hd.
      unfold CV.lowerBound in He. rewrite (drop_S _ _ _ He) in Hd.
      by apply Forall_cons in Hd as [Hd _].
    + unfold bind at 1. rewrite (find_run sv m v i) by done.
      rewrite decide_True by done.
      unfold SV.erase_pos. rewrite (run_load m _ v) by done.
      unfold bind, store, ret, CV.erase_pos, CV.erase. simpl. do 4 f_equal.
      by rewrite (erase_position_filter _ _ _ Hasc He).
Qed.

Lemma erase_of_found_iterator_witness :
  let erase_found := let* it := SV.find example_view 2 in SV.erase_pos example_view it in
  (forall x, stored (cv_elements example_vector) (start_ example_view + 2) = Some x ->
     erase_found example_memory
     = (Ok {| pos_ := CV.find example_vector (start_ example_view + 2);
              offset_ := start_ example_view |},
        (SV.erase example_view 2 example_memory).2)) /\
  (stored (cv_elements example_vector) (start_ example_view + 2) = None ->
   forall e,
     cv_elements example_vector
       !! CV.lowerBound example_vector (start_ example_view + size_ example_view) = Some e ->
     start_ example_view + size_ example_view <= e.1 /\
     erase_found example_memory
     = (Ok {| pos_ := CV.lowerBound example_vector (start_ example_view + size_ example_view);
              offset_ := start_ example_view |},
        <[vector_ example_view :=
            {| cv_size := cv_size example_vector;
               cv_elements := filter (fun e' => e'.1 <> e.1) (cv_elements example_vector) |}]>
          example_memory)).
Proof.
  apply (erase_of_found_iterator example_view example_memory example_vector 2).
  - reflexivity.
  - concrete_wf.
  - concrete_view.
  - simpl. lia.
Defined.

(** In the scenario of the specification no element is stored at the index
    0 of the view; [erase( find(0) )] erases the element (7,3), which is
    not in the range 3..6. *)
Example erase_of_end_example :
  (let* it := SV.find example_view 0 in SV.erase_pos example_view it) example_memory
  = (Ok {| pos_ := 2; offset_ := 3 |},
     {[ 0%nat := {| cv_size := 10; cv_elements := [(2, 5); (5, -1)] |} ]}).
Proof. vm_compute. reflexivity. Qed.

(** [erase( first, last )] between the lower bounds of two local indices
    i <= j removes exactly the elements with a local index in [i, j) and
    returns the iterator at the position of the first of them; between
    [begin()] and [end()] it changes the memory as [reset()] does. *)
Lemma erase_of_iterator_range {ET} (sv : SparseSubvector) (m : memory ET)
  (v : CompressedVector ET) (i j : Z) :
  m !! vector_ sv = Some v -> CV.wf v -> view_invariant sv v ->
  0 <= i <= j -> j <= size_ sv ->
  (let* first := SV.lowerBound sv i in
   let* last := SV.lowerBound sv j in
   SV.erase_range sv first last) m
  = (Ok {| pos_ := CV.lowerBound v (start_ sv + i); offset_ := start_ sv |},
     <[vector_ sv :=
         {| cv_size := cv_size v;
            cv_elements :=
              filter (fun e => ~ (start_ sv + i <= e.1 < start_ sv + j)) (cv_elements v) |}]> m) /\
  (let* first := SV.begin sv in
   let* last := SV.end_ sv in
   SV.erase_range sv first last) m
  = (Ok {| pos_ := CV.lowerBound v (start_ sv); offset_ := start_ sv |},
     (SV.reset sv m).2).
Proof.
  intros Hm Hwf Hinv Hij Hj. pose proof Hinv as (H0 & Hn & Hle).
  pose proof Hwf as (Hsz & Hidx & Hasc). split.
  - assert (Hlower : forall k, 0 <= k <= size_ sv ->
              SV.lowerBound sv k m
              = (Ok {| pos_ := CV.lowerBound v (start_ sv + k); offset_ := start_ sv |}, m)).
    { intros k Hk. unfold SV.lowerBound. rewrite (run_load m _ v) by done.
      by rewrite size_t_add_small by lia. }
    unfold bind at 1. rewrite Hlower by lia.
    unfold bind at 1. rewrite Hlower by lia.
    unfold SV.erase_range. rewrite (run_load m _ v) by done.
    unfold bind, store, ret, CV.erase, CV.lowerBound. simpl. do 4 f_equal.
    apply outside_filter; [done|lia].
  - unfold bind at 1. rewrite (begin_run sv m v) by done.
    unfold bind at 1. rewrite (end_run sv m v) by done.
    unfold SV.erase_range, SV.reset. rewrite !(run_load m _ v) by done.
    by unfold bind, store, ret.
Qed.

Lemma erase_of_iterator_range_witness :
  (let* first := SV.lowerBound example_view 1 in
   let* last := SV.lowerBound example_view 3 in
   SV.erase_range example_view first last) example_memory
  = (Ok {| pos_ := CV.lowerBound example_vector (start_ example_view + 1);
           offset_ := start_ example_view |},
     <[vector_ example_view :=
         {| cv_size := cv_size example_vector;
            cv_elements :=
              filter (fun e => ~ (start_ example_view + 1 <= e.1 < start_ example_view + 3))
                (cv_elements example_vector) |}]> example_memory) /\
  (let* first := SV.begin example_view in
   let* last := SV.end_ example_view in
   SV.erase_range example_view first last) example_memory
  = (Ok {| pos_ := CV.lowerBound example_vector (start_ example_view);
           offset_ := start_ example_view |},
     (SV.reset example_view example_memory).2).
Proof.
  apply (erase_of_iterator_range example_view example_memory example_vector 1 3).
  - reflexivity.
  - concrete_wf.
  - concrete_view.
  - lia.
  - simpl. lia.
Defined.

(** ** Adjacent views and bounds *)

Section SplitFacts.
Context {ET : Type}.
Implicit Types (l : list (Z * ET)).

(** The elements of a range are those of its lower part followed by those
    of its upper part. *)
Lemma filter_range_split l (a b c : Z) :
  CV.ascending l -> a <= b <= c ->
  filter (fun e => a <= e.1 < c) l
  = filter (fun e => a <= e.1 < b) l ++ filter (fun e => b <= e.1 < c) l.
Proof.
  intros Hasc Habc. induction l as [|e l IH]; [done|].
  destruct Hasc as [Hhd Htl]. specialize (IH Htl).
  destruct (decide (a <= e.1 < b)) as [Hlow|Hlow].
  - rewrite (filter_cons_True (fun e => a <= e.1 < c)) by lia.
    rewrite (filter_cons_True (fun e => a <= e.1 < b)) by lia.
    rewrite (filter_cons_False (fun e => b <= e.1 < c)) by lia.
    by rewrite IH.
  - rewrite (filter_cons_False (fun e => a <= e.1 < b)) by lia.
    destruct (decide (b <= e.1 < c)) as [Hup|Hup].
    + rewrite (filter_cons_True (fun e => a <= e.1 < c)) by lia.
      rewrite (filter_cons_True (fun e => b <= e.1 < c)) by lia.
      rewrite IH. rewrite (filter_none (fun e => a <= e.1 < b) l); [done|].
      eapply Forall_impl; [exact Hhd|]. simpl. intros; lia.
    + rewrite (filter_cons_False (fun e => a <= e.1 < c)) by lia.
      by rewrite (filter_cons_False (fun e => b <= e.1 < c)) by lia.
Qed.

Lemma stored_from_lower_bound l (a g : Z) :
  CV.ascending l -> a <= g ->
  stored l g = stored (drop (CV.lower_pos l a) l) g.
Proof.
  intros Hasc Hg. rewrite <- (take_drop (CV.lower_pos l a) l) at 1.
  rewrite stored_app. rewrite (proj2 (stored_None _ g)); [done|].
  eapply Forall_impl; [apply lower_pos_take|]. simpl. intros; lia.
Qed.

End SplitFacts.

(** Two adjacent views of one vector and the view of their union: the
    [end()] of the first view and the [begin()] of the second compare
    equal, and the traversal of the union yields the elements of the first
    view followed by the elements of the second, whose local indices are
    shifted by the size of the first. *)
Lemma adjacent_views_partition {ET} cfg (m : memory ET) (v : CompressedVector ET)
  (a : nat) (s n k : Z) :
  m !! a = Some v -> CV.wf v ->
  0 <= s -> 0 < n -> 0 < k -> s + n + k <= cv_size v ->
  let lower := {| vector_ := a; start_ := s; size_ := n |} in
  let upper := {| vector_ := a; start_ := s + n; size_ := k |} in
  let union := {| vector_ := a; start_ := s; size_ := n + k |} in
  exists last first ls us,
    SV.end_ lower m = (Ok last, m) /\ SV.begin upper m = (Ok first, m) /\
    iterator_eqb last first = true /\
    SV.elements cfg lower m = (Ok ls, m) /\
    SV.elements cfg upper m = (Ok us, m) /\
    SV.elements cfg union m = (Ok (ls ++ ((fun e => (e.1 + n, e.2)) <$> us)), m).
Proof.
  intros Hm Hwf Hs Hn Hk Hle lower upper union. pose proof Hwf as (Hsz & Hidx & Hasc).
  assert (Hl : view_invariant lower v) by (unfold view_invariant; simpl; lia).
  assert (Hu : view_invariant upper v) by (unfold view_invariant; simpl; lia).
  assert (Hw : view_invariant union v) by (unfold view_invariant; simpl; lia).
  eexists _, _, _, _.
  split; [by apply (end_run lower m v)|]. split; [by apply (begin_run upper m v)|].
  split.
  { unfold iterator_eqb. simpl. apply bool_decide_eq_true_2.
    by rewrite size_t_add_small by lia. }
  split; [by apply elements_run|]. split; [by apply elements_run|].
  rewrite (elements_run cfg union m v) by done. do 2 f_equal.
  unfold in_range. simpl.
  rewrite (filter_range_split (cv_elements v) s (s + n) (s + (n + k))) by (done || lia).
  rewrite fmap_app. f_equal.
  rewrite <- list_fmap_compose.
  replace (s + (n + k)) with (s + n + k) by lia.
  apply list_fmap_ext. intros _ e _. simpl. f_equal. lia.
Qed.

Lemma adjacent_views_partition_witness :
  let lower := {| vector_ := 0%nat; start_ := 1; size_ := 3 |} in
  let upper := {| vector_ := 0%nat; start_ := 1 + 3; size_ := 5 |} in
  let union := {| vector_ := 0%nat; start_ := 1; size_ := 3 + 5 |} in
  exists last first ls us,
    SV.end_ lower example_memory = (Ok last, example_memory) /\
    SV.begin upper example_memory = (Ok first, example_memory) /\
    iterator_eqb last first = true /\
    SV.elements all_assertions lower example_memory = (Ok ls, example_memory) /\
    SV.elements all_assertions upper example_memory = (Ok us, example_memory) /\
    SV.elements all_assertions union example_memory
    = (Ok (ls ++ ((fun e => (e.1 + 3, e.2)) <$> us)), example_memory).
Proof.
  apply (adjacent_views_partition all_assertions example_memory example_vector 0 1 3 5).
  - reflexivity.
  - concrete_wf.
  - lia.
  - lia.
  - lia.
  - simpl. lia.
Defined.

(** [lowerBound(i)] leads to the first stored element of the view whose
    local index is not less than i: either it is the [end()] of the view
    and no element is stored from i on, or the element it dereferences to
    has a local index j with i <= j below the size, and no element is
    stored from i up to j. [upperBound(i)] is [lowerBound(i+1)]. *)
Lemma lower_bound_finds_first_element {ET} cfg (sv : SparseSubvector) (m : memory ET)
  (v : CompressedVector ET) (i : Z) :
  m !! vector_ sv = Some v -> CV.wf v -> view_invariant sv v -> 0 <= i < size_ sv ->
  exists it last,
    SV.lowerBound sv i m = (Ok it, m) /\ SV.end_ sv m = (Ok last, m) /\
    SV.upperBound sv i m = SV.lowerBound sv (i + 1) m /\
    (iterator_eqb it last = true ->
     forall j, i <= j < size_ sv -> stored (cv_elements v) (start_ sv + j) = None) /\
    (iterator_eqb it last = false ->
     exists el j x,
       SV.dereference cfg sv it m = (Ok el, m) /\
       SV.index sv el m = (Ok j, m) /\ SV.value sv el m = (Ok x, m) /\
       i <= j < size_ sv /\
       stored (cv_elements v) (start_ sv + j) = Some x /\
       forall j', i <= j' < j -> stored (cv_elements v) (start_ sv + j') = None).
Proof.
  intros Hm Hwf Hinv Hi. pose proof Hinv as (H0 & Hn & Hle).
  pose proof Hwf as (Hsz & Hidx & Hasc).
  set (l := cv_elements v). set (p := CV.lower_pos l (start_ sv + i)).
  set (q := CV.lower_pos l (start_ sv + size_ sv)).
  assert (Hpq : (p <= q)%nat) by (apply lower_pos_mono; lia).
  assert (Hq : (q <= length l)%nat) by apply lower_pos_length.
  exists {| pos_ := p; offset_ := start_ sv |}, {| pos_ := q; offset_ := start_ sv |}.
  split.
  { unfold SV.lowerBound. rewrite (run_load m _ v) by done.
    by rewrite (view_index_no_wrap sv v i). }
  split; [rewrite (end_run sv m v) by done; by rewrite (view_end_no_wrap sv v)|].
  split.
  { unfold SV.upperBound, SV.lowerBound. rewrite !(run_load m _ v) by done.
    rewrite (size_t_add_small (start_ sv) i), (size_t_add_small (start_ sv) (i + 1)) by lia.
    unfold CV.upperBound, CV.lowerBound.
    rewrite upper_pos_lower_pos.
    by replace (start_ sv + (i + 1)) with (start_ sv + i + 1) by lia. }
  unfold iterator_eqb. simpl. split.
  - intros Heq%bool_decide_eq_true_1 j Hj.
    rewrite (stored_from_lower_bound l (start_ sv + i)) by (done || lia). fold p.
    rewrite Heq. apply stored_None.
    eapply Forall_impl; [by apply lower_pos_drop|]. simpl. intros; lia.
  - intros Hne%bool_decide_eq_false_1.
    assert (Hlt : (p < length l)%nat) by lia.
    destruct (lookup_lt_is_Some_2 l p Hlt) as [[g x] He].
    assert (Hge : start_ sv + i <= g).
    { pose proof (lower_pos_drop l (start_ sv + i) Hasc) as Hd. fold p in Hd.
      rewrite (drop_S l _ p He) in Hd. by apply Forall_cons in Hd as [Hd _]. }
    assert (Hgb : g < start_ sv + size_ sv).
    { pose proof (lower_pos_take l (start_ sv + size_ sv)) as Ht. fold q in Ht.
      rewrite Forall_forall in Ht.
      apply (Ht (g, x)). apply list_elem_of_lookup. exists p.
      rewrite lookup_take_lt by lia. done. }
    exists {| element_pos_ := p; element_offset_ := start_ sv |}, (g - start_ sv), x.
    split; [by apply (dereference_run cfg sv m v p (g, x) Hm He); simpl; lia|].
    split; [apply (index_run sv m v p (g, x) Hm He); simpl; unfold size_t_modulus in *; lia|].
    split; [by apply (value_run sv m v p (g, x))|].
    split; [lia|]. split.
    + replace (start_ sv + (g - start_ sv)) with g by lia.
      by apply (stored_lookup l p).
    + intros j' Hj'.
      rewrite (stored_from_lower_bound l (start_ sv + i)) by (done || lia). fold p.
      rewrite (drop_S l _ p He). simpl. rewrite decide_False by lia.
      apply stored_above.
      assert (Hasc' : CV.ascending (take p l ++ drop p l)) by (by rewrite take_drop).
      apply ascending_app in Hasc' as (_ & Hd & _).
      rewrite (drop_S l _ p He) in Hd. destruct Hd as [Hhd _].
      eapply Forall_impl; [exact Hhd|]. simpl. intros; lia.
Qed.

Lemma lower_bound_finds_first_element_witness :
  exists it last,
    SV.lowerBound example_view 1 example_memory = (Ok it, example_memory) /\
    SV.end_ example_view example_memory = (Ok last, example_memory) /\
    SV.upperBound example_view 1 example_memory
    = SV.lowerBound example_view (1 + 1) example_memory /\
    (iterator_eqb it last = true ->
     forall j, 1 <= j < size_ example_view ->
               stored (cv_elements example_vector) (start_ example_view + j) = None) /\
    (iterator_eqb it last = false ->
     exists el j x,
       SV.dereference all_assertions example_view it example_memory
       = (Ok el, example_memory) /\
       SV.index example_view el example_memory = (Ok j, example_memory) /\
       SV.value example_view el example_memory = (Ok x, example_memory) /\
       1 <= j < size_ example_view /\
       stored (cv_elements example_vector) (start_ example_view + j) = Some x /\
       forall j', 1 <= j' < j ->
                  stored (cv_elements example_vector) (start_ example_view + j') = None).
Proof.
  apply (lower_bound_finds_first_element all_assertions example_view example_memory
           example_vector 1).
  - reflexivity.
  - concrete_wf.
  - concrete_view.
  - simpl. lia.
Defined.

(** ** What the assignments store *)

Section StorageFacts.
Context {ET : Type} `{!Numeric ET}.
Variable cfg : Assertions.
Implicit Types (sv : SparseSubvector) (v : CompressedVector ET) (m : memory ET).

Lemma operand_elements_ascending (x : Operand ET) n :
  operand_wf x n -> CV.ascending (operand_elements x).
Proof.
  destruct x as [xs|u]; simpl; [intros _; apply ascending_evaluated|].
  intros [Hwf _]. apply Hwf.
Qed.

Lemma operand_elements_outside (x : Operand ET) n (j : Z) :
  operand_wf x n -> ~ 0 <= j < n -> stored (operand_elements x) j = None.
Proof.
  destruct x as [xs|u]; simpl.
  - intros Hlen Hj. rewrite stored_tabulated. rewrite decide_False; [done|].
    intros [Hin _]. apply elem_of_seqZ in Hin. lia.
  - intros [(_ & Hidx & _) Hsize] Hj. apply stored_None.
    eapply Forall_impl; [exact Hidx|]. simpl. intros; lia.
Qed.

Lemma operand_elements_at (x : Operand ET) n (j : Z) :
  operand_wf x n -> 0 <= j < n ->
  default zero (stored (operand_elements x) j) = SV.operand_at x j.
Proof.
  destruct x as [xs|u]; simpl.
  - intros Hlen Hj. rewrite stored_tabulated.
    destruct (isDefault (default zero (xs !! Z.to_nat j))) eqn:Hdef.
    + rewrite decide_False by (by intros [_ ?]). simpl. symmetry. by apply isDefault_spec.
    + rewrite decide_True; [done|]. split; [|done]. apply elem_of_seqZ. lia.
  - intros [Hwf _] _. symmetry. apply at_const_stored, Hwf.
Qed.

(** [assign] into a view whose range holds no element stores the elements
    of the operand, shifted to the range, and keeps every other element. *)
Lemma assign_elements_run sv (x : Operand ET) m v :
  m !! vector_ sv = Some v -> CV.wf v -> view_invariant sv v ->
  operand_wf x (size_ sv) ->
  (forall i, 0 <= i < size_ sv -> stored (cv_elements v) (start_ sv + i) = None) ->
  exists v',
    SV.assign cfg sv x m = (Ok tt, <[vector_ sv := v']> m) /\
    CV.wf v' /\ cv_size v' = cv_size v /\
    forall g, stored (cv_elements v') g
              = match stored (operand_elements x) (g - start_ sv) with
                | Some y => Some y
                | None => stored (cv_elements v) g
                end.
Proof.
  intros Hm Hwf Hinv Hx Hempty. destruct x as [xs|u]; simpl in Hx.
  - set (value := fun i : Z => default zero (xs !! Z.to_nat i)).
    set (acts := (fun i => (i, value i, true)) <$> seqZ 0 (size_ sv)).
    destruct (appends_run sv acts m v Hm Hwf Hinv) as (v' & Hrun & Hwf' & Hsize & Hst).
    { unfold acts. rewrite <- !list_fmap_compose.
      rewrite (list_fmap_ext _ id (seqZ 0 (size_ sv))) by done.
      rewrite list_fmap_id. apply NoDup_seqZ. }
    { apply Forall_forall. intros act Hact. unfold acts in Hact.
      apply list_elem_of_fmap in Hact as (i & -> & Hi). simpl.
      apply elem_of_seqZ in Hi. split; [lia|]. apply Hempty. lia. }
    exists v'. split; [|split; [done|split; [done|]]].
    + unfold SV.assign, SV.assign_dense, SV.size.
      rewrite (bool_decide_eq_true_2 (size_ sv = _)) by done.
      rewrite andb_false_r. unfold bind at 1. unfold ret at 1.
      rewrite <- Hrun. unfold acts. rewrite for_each_fmap.
      match goal with
      | |- for_each ?l ?f ?m = for_each ?l ?g ?m =>
          rewrite (for_each_ext l f g); [done|]
      end.
      intros i Hi. simpl. apply elem_of_seqZ in Hi.
      unfold value. destruct (xs !! Z.to_nat i) eqn:Hxi; [done|].
      apply lookup_ge_None_1 in Hxi. lia.
    + intros g. rewrite Hst. unfold acts. rewrite stored_effective_checked.
      cbn [operand_elements]. rewrite stored_tabulated. unfold value. rewrite Hx.
      destruct (decide (g - start_ sv ∈ seqZ 0 (size_ sv))) as [Hin|Hin].
      * destruct (isDefault (default zero (xs !! Z.to_nat (g - start_ sv)))) eqn:Hdef.
        -- by rewrite decide_False by (by intros [_ ?]).
        -- by rewrite decide_True.
      * by rewrite decide_False by (by intros [? _]).
  - destruct Hx as [Hwfu Hsizeu]. pose proof Hwfu as (Hszu & Hidxu & Hascu).
    set (acts := (fun e : Z * ET => (e, false)) <$> cv_elements u).
    destruct (appends_run sv acts m v Hm Hwf Hinv) as (v' & Hrun & Hwf' & Hsize & Hst).
    { unfold acts. rewrite <- !list_fmap_compose.
      rewrite (list_fmap_ext _ fst (cv_elements u)) by done.
      clear -Hascu. induction (cv_elements u) as [|e l IH]; [constructor|].
      destruct Hascu as [Hhd Htl]. rewrite fmap_cons. apply NoDup_cons. split; [|by apply IH].
      intros Hin. apply list_elem_of_fmap in Hin as (e' & Heq & He').
      rewrite Forall_forall in Hhd. specialize (Hhd e' He'). lia. }
    { apply Forall_forall. intros act Hact. unfold acts in Hact.
      apply list_elem_of_fmap in Hact as (e & -> & He). simpl.
      rewrite Forall_forall in Hidxu. specialize (Hidxu e He).
      split; [lia|]. apply Hempty. lia. }
    exists v'. split; [|split; [done|split; [done|]]].
    + unfold SV.assign, SV.assign_sparse, SV.size, CV.size.
      rewrite (bool_decide_eq_true_2 (size_ sv = _)) by done.
      rewrite andb_false_r. unfold bind at 1. unfold ret at 1.
      rewrite <- Hrun. unfold acts. by rewrite for_each_fmap.
    + intros g. rewrite Hst. unfold acts. by rewrite effective_unchecked.
Qed.

Lemma reset_assign_elements_run sv (x : Operand ET) m v :
  m !! vector_ sv = Some v -> CV.wf v -> view_invariant sv v ->
  operand_wf x (size_ sv) ->
  exists v',
    (SV.reset sv;; SV.assign cfg sv x) m = (Ok tt, <[vector_ sv := v']> m) /\
    CV.wf v' /\ cv_size v' = cv_size v /\
    forall g, stored (cv_elements v') g
              = if decide (in_range sv g)
                then stored (operand_elements x) (g - start_ sv)
                else stored (cv_elements v) g.
Proof.
  intros Hm Hwf Hinv Hx.
  set (v0 := {| cv_size := cv_size v;
                cv_elements := filter (fun e => ~ in_range sv e.1) (cv_elements v) |}).
  assert (Hst0 : forall g, stored (cv_elements v0) g
                           = if decide (in_range sv g) then None else stored (cv_elements v) g).
  { intros g. simpl. rewrite (stored_filter _ (fun g => ~ in_range sv g)) by done.
    destruct (decide (in_range sv g)).
    - by rewrite decide_False by tauto.
    - by rewrite decide_True. }
  destruct (assign_elements_run sv x (<[vector_ sv := v0]> m) v0)
    as (v' & Hrun & Hwf' & Hsize & Hst).
  - by rewrite lookup_insert_eq.
  - by apply wf_filter.
  - done.
  - done.
  - intros i Hi. rewrite Hst0. rewrite decide_True; [done|]. unfold in_range. lia.
  - exists v'. split; [|split; [done|split; [done|]]].
    + unfold bind. rewrite (reset_run sv m v) by done. fold v0.
      rewrite Hrun. by rewrite insert_insert_eq.
    + intros g. rewrite Hst, Hst0. destruct (decide (in_range sv g)) as [Hin|Hout].
      * by destruct (stored (operand_elements x) (g - start_ sv)).
      * rewrite (operand_elements_outside x (size_ sv)); [done|done|].
        unfold in_range in Hout. lia.
Qed.

(** The assignment operator is the reset of the range followed by the
    assignment of the evaluated right-hand side. *)
Lemma assign_vector_shape sv m v (rhs : Vector ET) :
  m !! vector_ sv = Some v -> CV.wf v -> view_invariant sv v ->
  vector_wf m rhs (size_ sv) ->
  exists x,
    operand_wf x (size_ sv) /\
    SV.evaluate cfg rhs m = (Ok x, m) /\
    (forall i, 0 <= i < size_ sv -> SV.vector_at cfg rhs i m = (Ok (SV.operand_at x i), m)) /\
    SV.assign_vector cfg sv rhs m = (SV.reset sv;; SV.assign cfg sv x) m.
Proof.
  intros Hm Hwf Hinv Hrhs.
  destruct (evaluate_run cfg m rhs (size_ sv) Hrhs) as (x & Hx & Hall).
  destruct (Hall m) as (Heval & Hsize & Hat); [done|].
  exists x. split; [done|]. split; [done|]. split; [done|].
  unfold SV.assign_vector. unfold bind at 1. rewrite Hsize. unfold SV.size.
  rewrite bool_decide_eq_true_2 by done. cbn [negb].
  destruct (SV.vector_canAlias rhs (vector_ sv)) eqn:Halias.
  - unfold bind at 1. by rewrite Heval.
  - unfold bind at 1 3. rewrite (reset_run sv m v) by done.
    unfold bind at 1.
    destruct (Hall (<[vector_ sv :=
                {| cv_size := cv_size v;
                   cv_elements := filter (fun e => ~ in_range sv e.1) (cv_elements v) |}]> m))
      as (Heval1 & _).
    { intros a2 Ha2. apply lookup_insert_ne. intros Heq.
      by apply (canAlias_false_address rhs (vector_ sv) a2 Halias Ha2). }
    by rewrite Heval1.
Qed.

(** The elements of the range and the elements outside the range of a
    vector whose stored values are known. *)
Lemma elements_of_stored sv v (es : list (Z * ET)) :
  CV.wf v -> CV.ascending es ->
  (forall j, stored es j = if decide (0 <= j < size_ sv)
                           then stored (cv_elements v) (start_ sv + j) else None) ->
  (fun e => (e.1 - start_ sv, e.2)) <$> filter (fun e => in_range sv e.1) (cv_elements v) = es.
Proof.
  intros (_ & _ & Hasc) Hes Hst. apply ascending_ext; [|done|].
  - by apply ascending_shift, ascending_filter.
  - intros j. rewrite stored_shift, (stored_filter _ (in_range sv)) by done. rewrite Hst.
    unfold in_range.
    destruct (decide (0 <= j < size_ sv)).
    + rewrite decide_True by lia. f_equal. lia.
    + by rewrite decide_False by lia.
Qed.

Lemma outside_of_stored sv v v' :
  CV.wf v -> CV.wf v' ->
  (forall g, ~ in_range sv g -> stored (cv_elements v') g = stored (cv_elements v) g) ->
  filter (fun e => ~ in_range sv e.1) (cv_elements v')
  = filter (fun e => ~ in_range sv e.1) (cv_elements v).
Proof.
  intros (_ & _ & Hasc) (_ & _ & Hasc') Hst.
  apply ascending_ext; [by apply ascending_filter|by apply ascending_filter|].
  intros g. rewrite !(stored_filter _ (fun g => ~ in_range sv g)) by done.
  destruct (decide (~ in_range sv g)); [by apply Hst|done].
Qed.

End StorageFacts.

(** After the assignment of a vector of the size of the view, the
    traversal of the view yields the elements the right-hand side
    contributes: of a dense vector the values that are not the default
    value, of a sparse vector or subvector its stored elements, stored
    default values included. The vector keeps its size and its order, and
    its elements outside the range of the view are the same as before. *)
Lemma assignment_stores_the_elements {ET} `{!Numeric ET} cfg (sv : SparseSubvector)
  (m : memory ET) (v : CompressedVector ET) (rhs : Vector ET) :
  m !! vector_ sv = Some v -> CV.wf v -> view_invariant sv v ->
  vector_wf m rhs (size_ sv) ->
  exists x v',
    SV.evaluate cfg rhs m = (Ok x, m) /\
    SV.assign_vector cfg sv rhs m = (Ok tt, <[vector_ sv := v']> m) /\
    CV.wf v' /\ cv_size v' = cv_size v /\
    SV.elements cfg sv (<[vector_ sv := v']> m)
    = (Ok (operand_elements x), <[vector_ sv := v']> m) /\
    filter (fun e => ~ in_range sv e.1) (cv_elements v')
    = filter (fun e => ~ in_range sv e.1) (cv_elements v).
Proof.
  intros Hm Hwf Hinv Hrhs.
  destruct (assign_vector_shape cfg sv m v rhs Hm Hwf Hinv Hrhs)
    as (x & Hx & Heval & _ & Hshape).
  destruct (reset_assign_elements_run cfg sv x m v Hm Hwf Hinv Hx)
    as (v' & Hrun & Hwf' & Hsize & Hst).
  exists x, v'. split; [done|]. split; [by rewrite Hshape|].
  split; [done|]. split; [done|]. split.
  - rewrite (elements_run cfg sv _ v' (lookup_insert_eq _ _ _)); [|done|].
    + do 2 f_equal. apply elements_of_stored; [done|by eapply operand_elements_ascending|].
      intros j. rewrite Hst. unfold in_range.
      destruct (decide (0 <= j < size_ sv)).
      * rewrite decide_True by lia. f_equal. lia.
      * by apply (operand_elements_outside x (size_ sv)).
    + unfold view_invariant in *. by rewrite Hsize.
  - apply outside_of_stored; [done|done|].
    intros g Hg. rewrite Hst. by rewrite decide_False.
Qed.

Lemma assignment_stores_the_elements_witness :
  exists x v',
    SV.evaluate all_assertions (DenseVector [1; 0; 2; 0]) example_memory
    = (Ok x, example_memory) /\
    SV.assign_vector all_assertions example_view (DenseVector [1; 0; 2; 0]) example_memory
    = (Ok tt, <[vector_ example_view := v']> example_memory) /\
    CV.wf v' /\ cv_size v' = cv_size example_vector /\
    SV.elements all_assertions example_view (<[vector_ example_view := v']> example_memory)
    = (Ok (operand_elements x), <[vector_ example_view := v']> example_memory) /\
    filter (fun e => ~ in_range example_view e.1) (cv_elements v')
    = filter (fun e => ~ in_range example_view e.1) (cv_elements example_vector).
Proof.
  apply (assignment_stores_the_elements all_assertions example_view example_memory
           example_vector (DenseVector [1; 0; 2; 0])).
  - reflexivity.
  - concrete_wf.
  - concrete_view.
  - reflexivity.
Defined.

(** The dense vector (1,0,2,0) leaves two elements in the view; the sparse
    vector that stores a zero at its index 1 leaves the stored zero. *)
Example assignment_sparsity_examples :
  (SV.assign_vector all_assertions example_view (DenseVector [1; 0; 2; 0]);;
   SV.elements all_assertions example_view) example_memory
  = (Ok [(0, 1); (2, 2)],
     {[ 0%nat := {| cv_size := 10; cv_elements := [(2, 5); (3, 1); (5, 2); (7, 3)] |} ]}) /\
  (SV.assign_vector all_assertions example_view (SparseVector 1%nat);;
   SV.elements all_assertions example_view)
    (<[1%nat := {| cv_size := 4; cv_elements := [(1, 0); (3, 6)] |}]> example_memory)
  = (Ok [(1, 0); (3, 6)],
     {[ 0%nat := {| cv_size := 10; cv_elements := [(2, 5); (4, 0); (6, 6); (7, 3)] |};
        1%nat := {| cv_size := 4; cv_elements := [(1, 0); (3, 6)] |} ]}).
Proof. split; vm_compute; reflexivity. Qed.

(** ** The values of the compound assignments *)

Section CompoundFacts.
Context {ET : Type} `{!Numeric ET}.
Variable cfg : Assertions.
Implicit Types (sv : SparseSubvector) (v : CompressedVector ET) (m : memory ET).

Lemma stored_is_Some (l : list (Z * ET)) (i : Z) : i ∈ l.*1 <-> is_Some (stored l i).
Proof.
  induction l as [|e l IH].
  - split; [by intros ?%elem_of_nil|by intros [? ?]].
  - rewrite fmap_cons, elem_of_cons. cbn [stored].
    destruct (decide (e.1 = i)) as [<-|Hne].
    + split; [by eexists|by left].
    + rewrite <- IH. split; [intros [?|?]; [congruence|done]|by right].
Qed.

Lemma stored_revalued (value : Z -> ET) (l : list (Z * ET)) (i : Z) :
  stored ((fun e => (e.1, value e.1)) <$> l) i = (fun _ => value i) <$> stored l i.
Proof.
  induction l as [|e l IH]; [done|]. rewrite fmap_cons. cbn [stored fst snd].
  destruct (decide (e.1 = i)) as [<-|]; [done|]. apply IH.
Qed.

(** The values of the evaluated result of an operation of the view and a
    right-hand side. *)
Lemma evaluate_binary_run (op : ET -> ET -> ET) (both : bool) sv
  (lhs : CompressedVector ET) (x : Operand ET) :
  0 < size_ sv -> size_ sv < size_t_modulus ->
  CV.wf lhs -> cv_size lhs = size_ sv -> operand_wf x (size_ sv) ->
  (both = false -> op zero zero = zero) ->
  (both = true -> forall y, op zero y = zero /\ op y zero = zero) ->
  operand_wf (SV.evaluate_binary op both sv lhs x) (size_ sv) /\
  forall i, 0 <= i < size_ sv ->
    SV.operand_at (SV.evaluate_binary op both sv lhs x) i
    = op (CV.at_const lhs i) (SV.operand_at x i).
Proof.
  intros Hn Hmod Hwf Hsize Hx Hfalse Htrue. pose proof Hwf as (Hsz & Hidx & Hasc).
  destruct x as [xs|u]; [destruct both|]; cbn [SV.evaluate_binary].
  - (* the product with a dense vector *)
    set (value := fun i => op (CV.at_const lhs i) (SV.operand_at (DenseOperand xs) i)).
    assert (Hind : ((fun e : Z * ET => (e.1, value e.1)) <$> cv_elements lhs).*1
                   = (cv_elements lhs).*1).
    { rewrite <- list_fmap_compose. by apply list_fmap_ext. }
    assert (Hasc' : CV.ascending ((fun e : Z * ET => (e.1, value e.1)) <$> cv_elements lhs)).
    { eapply ascending_indices; [symmetry; exact Hind|done]. }
    split.
    + split; [|done]. unfold SV.size. split; [simpl; lia|]. split; [|done]. simpl.
      apply Forall_fmap. eapply Forall_impl; [exact Hidx|]. simpl. intros; lia.
    + intros i Hi. unfold SV.operand_at at 1. rewrite at_const_stored by done.
      cbn [cv_elements].
      change (default zero (stored ((fun e : Z * ET => (e.1, value e.1)) <$> cv_elements lhs) i)
              = value i).
      rewrite stored_revalued.
      destruct (stored (cv_elements lhs) i) as [y|] eqn:Hst; [done|]. simpl.
      unfold value. rewrite (at_const_stored lhs) by done. rewrite Hst. simpl.
      symmetry. by apply Htrue.
  - (* the sum and the difference with a dense vector *)
    split.
    + simpl. rewrite length_fmap, length_seqZ. unfold SV.size. lia.
    + intros i Hi. unfold SV.operand_at at 1. rewrite list_lookup_fmap.
      unfold SV.size. rewrite lookup_seqZ_lt by lia.
      rewrite Z.add_0_l, Z2Nat.id by lia. done.
  - (* a sparse right-hand side *)
    destruct Hx as [Hwfu Hsizeu]. pose proof Hwfu as (_ & _ & Hascu).
    split.
    + split; [|done]. unfold SV.size. split; [simpl; lia|].
      split; [|apply ascending_evaluated]. simpl.
      apply Forall_fmap, Forall_forall. intros j Hj. simpl.
      apply list_elem_of_filter in Hj as [_ Hj]. apply elem_of_seqZ in Hj. lia.
    + intros i Hi. unfold SV.operand_at at 1.
      rewrite at_const_stored by apply ascending_evaluated.
      cbn [cv_elements]. rewrite stored_tabulated. unfold SV.size.
      match goal with |- default zero (if decide (_ /\ ?b = true) then _ else _) = _ =>
        destruct b eqn:Hb end.
      * rewrite decide_True; [done|]. split; [|done]. apply elem_of_seqZ. lia.
      * rewrite decide_False by (by intros [_ ?]). simpl.
        unfold SV.operand_at. rewrite !at_const_stored by done.
        destruct both.
        -- apply andb_false_iff in Hb as [Hb|Hb]; apply bool_decide_eq_false_1 in Hb;
             rewrite stored_is_Some in Hb.
           ++ destruct (stored (cv_elements lhs) i); [by destruct Hb|]. simpl.
              symmetry. by apply Htrue.
           ++ destruct (stored (cv_elements u) i); [by destruct Hb|]. simpl.
              symmetry. by apply Htrue.
        -- apply orb_false_iff in Hb as [Hb1 Hb2].
           apply bool_decide_eq_false_1 in Hb1, Hb2. rewrite stored_is_Some in Hb1, Hb2.
           destruct (stored (cv_elements lhs) i); [by destruct Hb1|].
           destruct (stored (cv_elements u) i); [by destruct Hb2|]. simpl.
           symmetry. by apply Hfalse.
Qed.

Lemma evaluate_with_run (op : ET -> ET -> ET) (both : bool) sv m v (rhs : Vector ET) :
  m !! vector_ sv = Some v -> CV.wf v -> view_invariant sv v ->
  vector_wf m rhs (size_ sv) ->
  (both = false -> op zero zero = zero) ->
  (both = true -> forall y, op zero y = zero /\ op y zero = zero) ->
  exists tmp,
    SV.evaluate_with cfg op both sv rhs m = (Ok tmp, m) /\
    SV.vector_size rhs m = (Ok (size_ sv), m) /\
    operand_wf tmp (size_ sv) /\
    forall i, 0 <= i < size_ sv ->
      exists y,
        SV.vector_at cfg rhs i m = (Ok y, m) /\
        SV.operand_at tmp i = op (CV.at_const v (start_ sv + i)) y.
Proof.
  intros Hm Hwf Hinv Hrhs Hfalse Htrue. pose proof Hinv as (H0 & Hn & Hle).
  pose proof Hwf as (Hsz & Hidx & Hasc).
  destruct (evaluate_run cfg m rhs (size_ sv) Hrhs) as (x & Hx & Hall).
  destruct (Hall m) as (Heval & Hsize & Hat); [done|].
  set (es := (fun e => (e.1 - start_ sv, e.2)) <$>
               filter (fun e => in_range sv e.1) (cv_elements v)).
  set (lhs := {| cv_size := SV.size sv; cv_elements := es |}).
  assert (Hasces : CV.ascending es) by (by apply ascending_shift, ascending_filter).
  assert (Hlhs : CV.wf lhs).
  { split; [unfold lhs, SV.size; cbn [cv_size]; lia|]. split; [|done]. simpl.
    apply Forall_fmap, Forall_forall. intros e He.
    apply list_elem_of_filter in He as [Hr _]. unfold in_range, SV.size in *. simpl. lia. }
  assert (Hlhs_at : forall i, 0 <= i < size_ sv ->
                      CV.at_const lhs i = CV.at_const v (start_ sv + i)).
  { intros i Hi. rewrite !at_const_stored by done. cbn [cv_elements lhs]. unfold es.
    rewrite stored_shift. rewrite (stored_filter _ (in_range sv)) by done.
    rewrite decide_True by (unfold in_range; lia).
    by replace (i + start_ sv) with (start_ sv + i) by lia. }
  destruct (evaluate_binary_run op both sv lhs x) as [Hwft Hatt];
    [lia|lia|done|done|done|done|done|].
  exists (SV.evaluate_binary op both sv lhs x).
  split; [|split; [done|split; [done|]]].
  - unfold SV.evaluate_with, bind. rewrite (elements_run cfg sv m v) by done.
    by rewrite Heval.
  - intros i Hi. exists (SV.operand_at x i). split; [by apply Hat|].
    rewrite Hatt by done. by rewrite Hlhs_at.
Qed.

(** A compound assignment whose temporary is evaluated before the range is
    reset. *)
Lemma compound_run (op : ET -> ET -> ET) (both : bool) sv m v (rhs : Vector ET) :
  m !! vector_ sv = Some v -> CV.wf v -> view_invariant sv v ->
  vector_wf m rhs (size_ sv) ->
  (both = false -> op zero zero = zero) ->
  (both = true -> forall y, op zero y = zero /\ op y zero = zero) ->
  exists v',
    (let* tmp := SV.evaluate_with cfg op both sv rhs in
     SV.reset sv;; SV.assign cfg sv tmp) m = (Ok tt, <[vector_ sv := v']> m) /\
    SV.vector_size rhs m = (Ok (size_ sv), m) /\
    CV.wf v' /\ cv_size v' = cv_size v /\
    (forall g, ~ in_range sv g -> stored (cv_elements v') g = stored (cv_elements v) g) /\
    forall i, 0 <= i < size_ sv ->
      exists y,
        SV.vector_at cfg rhs i m = (Ok y, m) /\
        SV.at_const cfg sv i (<[vector_ sv := v']> m)
        = (Ok (op (CV.at_const v (start_ sv + i)) y), <[vector_ sv := v']> m).
Proof.
  intros Hm Hwf Hinv Hrhs Hfalse Htrue.
  destruct (evaluate_with_run op both sv m v rhs Hm Hwf Hinv Hrhs Hfalse Htrue)
    as (tmp & Heval & Hsize & Htmp & Hat).
  destruct (reset_assign_run cfg sv tmp m v Hm Hwf Hinv Htmp)
    as (v' & Hrun & Hwf' & Hsz & Hval & Hout).
  exists v'. split; [|split; [done|split; [done|split; [done|split; [done|]]]]].
  - unfold bind at 1. by rewrite Heval.
  - intros i Hi. destruct (Hat i Hi) as (y & Hy & Hop). exists y. split; [done|].
    rewrite (at_const_run cfg sv _ v' i (lookup_insert_eq _ _ _)); [|done| |done].
    + by rewrite Hval, Hop.
    + unfold view_invariant in *. by rewrite Hsz.
Qed.

End CompoundFacts.

(** The compound assignments with a vector of the size of the view, for an
    element type in which 0+0 = 0, 0-0 = 0 and 0*y = y*0 = 0: afterwards the
    view reads at every index the sum, the difference or the product of
    the value it read before and the value of the right-hand side; the
    backing vector keeps its size and its order, and its elements outside
    the range of the view are the same as before. *)
Lemma compound_assignment_values {ET} `{!Numeric ET} cfg (sv : SparseSubvector)
  (m : memory ET) (v : CompressedVector ET) (rhs : Vector ET) :
  m !! vector_ sv = Some v -> CV.wf v -> view_invariant sv v ->
  vector_wf m rhs (size_ sv) ->
  plus zero zero = zero -> minus zero zero = zero ->
  (forall y, times zero y = zero /\ times y zero = zero) ->
  let updated (c : M ET unit) (op : ET -> ET -> ET) :=
    exists v',
      c m = (Ok tt, <[vector_ sv := v']> m) /\
      CV.wf v' /\ cv_size v' = cv_size v /\
      (forall g, ~ in_range sv g -> stored (cv_elements v') g = stored (cv_elements v) g) /\
      forall i, 0 <= i < size_ sv ->
        exists y,
          SV.vector_at cfg rhs i m = (Ok y, m) /\
          SV.at_const cfg sv i (<[vector_ sv := v']> m)
          = (Ok (op (CV.at_const v (start_ sv + i)) y), <[vector_ sv := v']> m) in
  updated (SV.add_assign cfg sv rhs) plus /\
  updated (SV.sub_assign cfg sv rhs) minus /\
  updated (SV.mul_assign_vector cfg sv rhs) times.
Proof.
  intros Hm Hwf Hinv Hrhs Hplus Hminus Htimes updated.
  destruct (compound_run cfg plus false sv m v rhs Hm Hwf Hinv Hrhs)
    as (va & Hruna & Hsize & Hwfa & Hsza & Houta & Hata); [done|done|].
  destruct (compound_run cfg minus false sv m v rhs Hm Hwf Hinv Hrhs)
    as (vs & Hruns & _ & Hwfs & Hszs & Houts & Hats); [done|done|].
  destruct (compound_run cfg times true sv m v rhs Hm Hwf Hinv Hrhs)
    as (vm & Hrunm & _ & Hwfm & Hszm & Houtm & Hatm); [done|done|].
  assert (Hassert : forall c : M ET unit,
    (let* n := SV.vector_size rhs in
     (if BLAZE_INTERNAL_ASSERTION cfg && negb (bool_decide (SV.size sv = n))
      then assertion_failed "Invalid vector sizes" else ret tt);; c) m = c m).
  { intros c. unfold bind at 1. rewrite Hsize. unfold SV.size.
    rewrite bool_decide_eq_true_2 by done. by rewrite andb_false_r. }
  split; [|split].
  - exists va. split; [|done]. unfold SV.add_assign. unfold bind at 1. rewrite Hsize.
    unfold SV.size. rewrite bool_decide_eq_true_2 by done. cbn [negb].
    unfold SV.addAssign. by rewrite Hassert.
  - exists vs. split; [|done]. unfold SV.sub_assign. unfold bind at 1. rewrite Hsize.
    unfold SV.size. rewrite bool_decide_eq_true_2 by done. cbn [negb].
    unfold SV.subAssign. by rewrite Hassert.
  - exists vm. split; [|done]. unfold SV.mul_assign_vector. unfold bind at 1. rewrite Hsize.
    unfold SV.size. by rewrite bool_decide_eq_true_2 by done.
Qed.

Lemma compound_assignment_values_witness :
  let rhs : Vector Z := Subvector example_overlap in
  let updated (c : M Z unit) (op : Z -> Z -> Z) :=
    exists v',
      c example_memory = (Ok tt, <[vector_ example_view := v']> example_memory) /\
      CV.wf v' /\ cv_size v' = cv_size example_vector /\
      (forall g, ~ in_range example_view g ->
                 stored (cv_elements v') g = stored (cv_elements example_vector) g) /\
      forall i, 0 <= i < size_ example_view ->
        exists y,
          SV.vector_at all_assertions rhs i example_memory = (Ok y, example_memory) /\
          SV.at_const all_assertions example_view i
            (<[vector_ example_view := v']> example_memory)
          = (Ok (op (CV.at_const example_vector (start_ example_view + i)) y),
             <[vector_ example_view := v']> example_memory) in
  updated (SV.add_assign all_assertions example_view rhs) plus /\
  updated (SV.sub_assign all_assertions example_view rhs) minus /\
  updated (SV.mul_assign_vector all_assertions example_view rhs) times.
Proof.
  apply (compound_assignment_values all_assertions example_view example_memory
           example_vector (Subvector example_overlap)).
  - reflexivity.
  - concrete_wf.
  - concrete_view.
  - exists example_vector. split; [reflexivity|]. split; [concrete_wf|].
    unfold view_invariant. simpl. lia.
  - reflexivity.
  - reflexivity.
  - intros y. simpl. lia.
Defined.

(** ** Appending, and the ranges of expressions *)

(** [append] is an insertion into the backing vector: a default value that
    is to be checked is skipped; otherwise an index that is stored already
    makes it throw, as [insert] does, and an index that is not stored yet
    is inserted at its place in the order of the indices, wherever that
    is. *)
Lemma append_inserts_in_order {ET} `{!Numeric ET} (sv : SparseSubvector) (m : memory ET)
  (v : CompressedVector ET) (i : Z) (x : ET) (check : bool) :
  m !! vector_ sv = Some v -> CV.wf v -> view_invariant sv v -> 0 <= i < size_ sv ->
  (check = true -> isDefault x = true -> SV.append sv i x check m = (Ok tt, m)) /\
  (negb check || negb (isDefault x) = true ->
   (is_Some (stored (cv_elements v) (start_ sv + i)) ->
    SV.append sv i x check m
    = (InvalidArgument "Invalid sparse subvector access index", m)) /\
   (stored (cv_elements v) (start_ sv + i) = None ->
    exists v',
      SV.append sv i x check m = (Ok tt, <[vector_ sv := v']> m) /\
      CV.wf v' /\ cv_size v' = cv_size v /\
      forall g, stored (cv_elements v') g
                = if decide (g = start_ sv + i) then Some x else stored (cv_elements v) g)).
Proof.
  intros Hm Hwf Hinv Hi. pose proof Hwf as (Hsz & Hidx & Hasc). split.
  - intros -> Hdef. unfold SV.append. by rewrite Hdef.
  - intros Heff. split.
    + intros [y Hy]. unfold SV.append. rewrite Heff. rewrite (run_load m _ v) by done.
      rewrite (view_index_no_wrap sv v i) by done. unfold CV.insert.
      rewrite bool_decide_eq_false_2; [done|]. rewrite find_end_stored by done. by rewrite Hy.
    + intros Hnone.
      destruct (append_run sv m v i x check Hm Hwf Hinv Hi Hnone)
        as (v' & Hrun & Hwf' & Hsize & Hst).
      exists v'. split; [done|]. split; [done|]. split; [done|].
      intros g. rewrite Hst. destruct (decide (g = start_ sv + i)) as [->|Hne].
      * by rewrite decide_True.
      * rewrite decide_False; [done|]. by intros [? _].
Qed.

Lemma append_inserts_in_order_witness :
  (false = true -> isDefault 9 = true ->
   SV.append example_view 0 9 false example_memory = (Ok tt, example_memory)) /\
  (negb false || negb (isDefault 9) = true ->
   (is_Some (stored (cv_elements example_vector) (start_ example_view + 0)) ->
    SV.append example_view 0 9 false example_memory
    = (InvalidArgument "Invalid sparse subvector access index", example_memory)) /\
   (stored (cv_elements example_vector) (start_ example_view + 0) = None ->
    exists v',
      SV.append example_view 0 9 false example_memory
      = (Ok tt, <[vector_ example_view := v']> example_memory) /\
      CV.wf v' /\ cv_size v' = cv_size example_vector /\
      forall g, stored (cv_elements v') g
                = if decide (g = start_ example_view + 0) then Some 9
                  else stored (cv_elements example_vector) g)).
Proof.
  apply (append_inserts_in_order example_view example_memory example_vector 0 9 false).
  - reflexivity.
  - concrete_wf.
  - concrete_view.
  - simpl. lia.
Defined.

(** The example view stores the element (5,-1); appending at the index 0,
    which is below the stored index, puts the new element before it, and
    appending at the stored index 2 throws. *)
Example append_examples :
  SV.append example_view 0 9 false example_memory
  = (Ok tt, {[ 0%nat := {| cv_size := 10;
                           cv_elements := [(2, 5); (3, 9); (5, -1); (7, 3)] |} ]}) /\
  SV.append example_view 2 9 false example_memory
  = (InvalidArgument "Invalid sparse subvector access index", example_memory) /\
  SV.append example_view 2 0 true example_memory = (Ok tt, example_memory).
Proof. repeat split; vm_compute; reflexivity. Qed.

Section SubFacts.
Context {ET Other : Type} `{!Numeric ET} `{!Scalar ET Other}.
Implicit Types (e : Expr ET Other).

Lemma sub_invalid e (start n : Z) :
  Expression.wf e -> 0 <= start -> 0 <= n -> start + n < size_t_modulus ->
  n = 0 \/ start + n > Expression.size e ->
  Expression.sub e start n = InvalidArgument "Invalid subvector specification".
Proof.
  intros Hwf H0 Hn Hsum. induction e as
    [v|op IH s' n'|l IHl r IHr|l IHl r IHr|l IHl r IHr|l IHl c|l IHl c|op IH|op IH|op IH];
    intros Hbad.
  1,2: cbn [Expression.sub]; rewrite size_t_add_small by lia;
    destruct (decide (n = 0)) as [->|Hne]; [done|];
    rewrite (bool_decide_eq_false_2 (n = 0)) by done;
    by rewrite bool_decide_eq_true_2 by lia.
  1,2,3: destruct Hwf as (Hl & Hr & Hsize); cbn [Expression.size] in Hbad;
    cbn [Expression.sub]; by rewrite (IHl Hl Hbad).
  all: cbn [Expression.wf Expression.size] in *; cbn [Expression.sub];
    by (rewrite (IHl Hwf Hbad) || rewrite (IH Hwf Hbad)).
Qed.

End SubFacts.

(** [sub] on an expression checks the range as the constructor of the view
    does, at the vectors the expression is built from: when the sum of
    start and size does not wrap around, it throws if and only if the
    range is empty or exceeds the size of the expression, and otherwise it
    returns an expression of the size n whose value at i is the value of
    the expression at start+i. *)
Lemma sub_checks_range_of_expression {ET Other} `{!Numeric ET} `{!Scalar ET Other}
  (e : Expr ET Other) (start n : Z) :
  Expression.wf e -> 0 <= start -> 0 <= n -> start + n < size_t_modulus ->
  (n = 0 \/ start + n > Expression.size e ->
   Expression.sub e start n = InvalidArgument "Invalid subvector specification") /\
  (~ (n = 0 \/ start + n > Expression.size e) ->
   exists e',
     Expression.sub e start n = Ok e' /\
     Expression.size e' = n /\
     forall i, 0 <= i < n -> Expression.at_ e' i = Expression.at_ e (start + i)).
Proof.
  intros Hwf H0 Hn Hsum. split.
  - by apply sub_invalid.
  - intros Hok. destruct (sub_run e start n Hwf H0) as (e' & Hsub & _ & Hsize & Hat); [lia|lia|].
    by exists e'.
Qed.

Lemma sub_checks_range_of_expression_witness :
  let e : Expr Z Z :=
    VecVecAddExpr (Concrete example_vector) (VecScalarMultExpr (Concrete example_vector_b) 2) in
  (5 = 0 \/ 8 + 5 > Expression.size e ->
   Expression.sub e 8 5 = InvalidArgument "Invalid subvector specification") /\
  (~ (5 = 0 \/ 8 + 5 > Expression.size e) ->
   exists e',
     Expression.sub e 8 5 = Ok e' /\
     Expression.size e' = 5 /\
     forall i, 0 <= i < 5 -> Expression.at_ e' i = Expression.at_ e (8 + i)).
Proof.
  apply (sub_checks_range_of_expression
           (VecVecAddExpr (Concrete example_vector)
              (VecScalarMultExpr (Concrete example_vector_b) 2)) 8 5).
  - simpl. split; [concrete_wf|]. split; [concrete_wf|reflexivity].
  - lia.
  - lia.
  - unfold size_t_modulus. lia.
Defined.

(** ** The temporary of the assignment, and scaling *)

(** The test of [operator=] for aliasing is sound: whether or not the
    right-hand side can alias the backing vector of the view, the
    assignment runs as the assignment that evaluates the right-hand side
    into a temporary before it resets the range; the temporary is skipped
    only where it makes no difference. *)
Lemma assignment_agrees_with_temporary {ET} `{!Numeric ET} cfg (sv : SparseSubvector)
  (m : memory ET) (v : CompressedVector ET) (rhs : Vector ET) :
  m !! vector_ sv = Some v -> CV.wf v -> view_invariant sv v ->
  vector_wf m rhs (size_ sv) ->
  SV.assign_vector cfg sv rhs m
  = (let* tmp := SV.evaluate cfg rhs in SV.reset sv;; SV.assign cfg sv tmp) m.
Proof.
  intros Hm Hwf Hinv Hrhs.
  destruct (assign_vector_shape cfg sv m v rhs Hm Hwf Hinv Hrhs)
    as (x & _ & Heval & _ & Hshape).
  rewrite Hshape. unfold bind at 2. by rewrite Heval.
Qed.

Lemma assignment_agrees_with_temporary_witness :
  SV.assign_vector all_assertions example_view (SparseVector 1%nat)
    (<[1%nat := {| cv_size := 4; cv_elements := [(1, 0); (3, 6)] |}]> example_memory)
  = (let* tmp := SV.evaluate all_assertions (SparseVector 1%nat) in
     SV.reset example_view;; SV.assign all_assertions example_view tmp)
      (<[1%nat := {| cv_size := 4; cv_elements := [(1, 0); (3, 6)] |}]> example_memory).
Proof.
  apply (assignment_agrees_with_temporary all_assertions example_view _ example_vector
           (SparseVector 1%nat)).
  - reflexivity.
  - concrete_wf.
  - concrete_view.
  - exists {| cv_size := 4; cv_elements := [(1, 0); (3, 6)] |}.
    split; [reflexivity|]. split; [concrete_wf|reflexivity].
Defined.

Section ScalingFacts.
Context {ET : Type} `{!Numeric ET}.
Variable cfg : Assertions.
Implicit Types (sv : SparseSubvector) (v : CompressedVector ET) (m : memory ET).

Lemma filter_fmap_stable (P : Z * ET -> Prop) `{!forall e, Decision (P e)}
  (g : Z * ET -> Z * ET) (l : list (Z * ET)) :
  (forall e, P (g e) <-> P e) -> filter P (g <$> l) = g <$> filter P l.
Proof.
  intros Hg. induction l as [|e l IH]; [done|]. rewrite fmap_cons.
  destruct (decide (P e)) as [He|He].
  - rewrite !filter_cons_True by (done || by apply Hg). by rewrite fmap_cons, IH.
  - rewrite !filter_cons_False by (done || by rewrite Hg). done.
Qed.

Lemma update_values_elements sv (f : ET -> ET) m v :
  m !! vector_ sv = Some v -> CV.wf v -> view_invariant sv v ->
  exists v',
    SV.update_values cfg sv f m = (Ok tt, <[vector_ sv := v']> m) /\
    CV.wf v' /\ view_invariant sv v' /\
    forall out,
      SV.elements cfg sv m = (Ok out, m) ->
      SV.elements cfg sv (<[vector_ sv := v']> m)
      = (Ok ((fun e => (e.1, f e.2)) <$> out), <[vector_ sv := v']> m).
Proof.
  intros Hm Hwf Hinv.
  set (g := fun e : Z * ET => if decide (in_range sv e.1) then (e.1, f e.2) else e).
  set (v' := {| cv_size := cv_size v; cv_elements := g <$> cv_elements v |}).
  assert (Hind : (cv_elements v').*1 = (cv_elements v).*1).
  { simpl. rewrite <- list_fmap_compose. apply list_fmap_ext. intros _ e _. simpl.
    unfold g. by destruct (decide (in_range sv e.1)). }
  assert (Hwf' : CV.wf v') by (by apply (wf_indices v)).
  assert (Hinv' : view_invariant sv v') by done.
  exists v'. split; [by apply update_values_run|]. split; [done|]. split; [done|].
  intros out. rewrite (elements_run cfg sv m v) by done. intros [= <-].
  rewrite (elements_run cfg sv _ v' (lookup_insert_eq _ _ _)) by done.
  do 2 f_equal. simpl. rewrite (filter_fmap_stable (fun e => in_range sv e.1)).
  - rewrite <- !list_fmap_compose. apply list_fmap_ext. intros k e He. simpl.
    apply list_elem_of_lookup_2, list_elem_of_filter in He as [Hr _].
    unfold g. by rewrite decide_True.
  - intros e. unfold g. by destruct (decide (in_range sv e.1)).
Qed.

End ScalingFacts.

(** The scalar assignments and the traversal commute: after [sv *= s],
    after [sv.scale( s )] and after [sv /= s] with a divisor that passes
    the assertion and by which the division of the stored values of the
    range is defined, the traversal of the view yields the elements it
    yielded before, under the same indices, with the scaled values; the
    class invariant of the vector and the invariant of the view are
    kept. *)
Lemma scaling_commutes_with_traversal {ET Other} `{!Numeric ET} `{!Scalar ET Other} cfg
  (sv : SparseSubvector) (s : Other) (m : memory ET) (v : CompressedVector ET) :
  m !! vector_ sv = Some v -> CV.wf v -> view_invariant sv v ->
  exists out,
    SV.elements cfg sv m = (Ok out, m) /\
    let scaled (c : M ET unit) (f : ET -> ET) :=
      exists v',
        c m = (Ok tt, <[vector_ sv := v']> m) /\
        CV.wf v' /\ view_invariant sv v' /\
        SV.elements cfg sv (<[vector_ sv := v']> m)
        = (Ok ((fun e => (e.1, f e.2)) <$> out), <[vector_ sv := v']> m) in
    scaled (SV.mul_assign_scalar cfg sv s) (fun x => mul_assign x s) /\
    scaled (SV.scale cfg sv s) (fun x => mul_assign x s) /\
    (BLAZE_USER_ASSERTION cfg && is_zero s = false ->
     (floating_division ET Other = false ->
      forall pos g x, cv_elements v !! pos = Some (g, x) -> in_range sv g ->
                      div_defined x s = true) ->
     scaled (SV.div_assign_scalar cfg sv s)
       (fun x => if floating_division ET Other
                 then mul_assign_tmp x (reciprocal s) else div_assign x s)).
Proof.
  intros Hm Hwf Hinv. eexists. split; [by apply elements_run|].
  assert (Hf : forall f : ET -> ET,
    exists v',
      SV.update_values cfg sv f m = (Ok tt, <[vector_ sv := v']> m) /\
      CV.wf v' /\ view_invariant sv v' /\
      SV.elements cfg sv (<[vector_ sv := v']> m)
      = (Ok ((fun e => (e.1, f e.2)) <$>
               ((fun e => (e.1 - start_ sv, e.2)) <$>
                  filter (fun e => in_range sv e.1) (cv_elements v))),
         <[vector_ sv := v']> m)).
  { intros f. destruct (update_values_elements cfg sv f m v Hm Hwf Hinv)
      as (v' & Hrun & Hwf' & Hinv' & Hout).
    exists v'. split; [done|]. split; [done|]. split; [done|].
    apply Hout. by apply elements_run. }
  split; [apply Hf|]. split; [apply Hf|].
  intros Hassert Hdef. unfold SV.div_assign_scalar. rewrite Hassert.
  unfold bind at 1. unfold ret at 1.
  destruct (floating_division ET Other); [apply Hf|].
  assert (SV.divide_values cfg sv s m
          = SV.update_values cfg sv (fun x => div_assign x s) m) as ->; [|apply Hf].
  rewrite (divide_values_run cfg sv s m v) by (done || by apply Hdef).
  by rewrite (update_values_run cfg sv _ m v).
Qed.

Lemma scaling_commutes_with_traversal_witness :
  exists out,
    SV.elements all_assertions example_view example_memory = (Ok out, example_memory) /\
    let scaled (c : M Z unit) (f : Z -> Z) :=
      exists v',
        c example_memory = (Ok tt, <[vector_ example_view := v']> example_memory) /\
        CV.wf v' /\ view_invariant example_view v' /\
        SV.elements all_assertions example_view
          (<[vector_ example_view := v']> example_memory)
        = (Ok ((fun e => (e.1, f e.2)) <$> out),
           <[vector_ example_view := v']> example_memory) in
    scaled (SV.mul_assign_scalar all_assertions example_view 3) (fun x => mul_assign x 3) /\
    scaled (SV.scale all_assertions example_view 3) (fun x => mul_assign x 3) /\
    (BLAZE_USER_ASSERTION all_assertions && is_zero 3 = false ->
     (floating_division Z Z = false ->
      forall pos g x, cv_elements example_vector !! pos = Some (g, x) ->
                      in_range example_view g -> div_defined x 3 = true) ->
     scaled (SV.div_assign_scalar all_assertions example_view 3)
       (fun x => if floating_division Z Z
                 then mul_assign_tmp x (reciprocal 3) else div_assign x 3)).
Proof.
  apply (scaling_commutes_with_traversal (Other := Z) all_assertions example_view 3
           example_memory example_vector).
  - reflexivity.
  - concrete_wf.
  - concrete_view.
Defined.
